(** * fabric.js geometry core: affine matrices, object corners, pencil
      stroke capture, bounding boxes and the eraser brush.

    Shallow embedding of
      - util/misc/matrix.ts            (affine 2x3 matrix algebra),
      - util/misc/boundingBoxFromPoints.ts,
      - shapes/Object/ObjectOrigin.ts and ObjectGeometry.ts,
      - brushes/PencilBrush.ts,
      - mixins/eraser_brush.mixin.ts.

    JavaScript numbers are modelled as real numbers [R]: every arithmetic
    operation is exact, there is no rounding, no overflow and no NaN.
    A number is falsy exactly when it is [0].  [Math.sqrt], [Math.tan],
    [Math.atan2] are the functions of the Standard Library's [Reals]. *)

From Stdlib Require Import Reals Lra Lia List Bool Arith PeanoNat.
From Stdlib Require Import String Permutation.
Import ListNotations.

Open Scope R_scope.
Set Warnings "-register-all".

(** ** JavaScript number helpers *)

(** Truthiness of a number: [v ? a : b], [v && e], [v || e]. *)
Definition truthy (v : R) : bool :=
  if Req_dec_T v 0 then false else true.

(** [v || d] on numbers. *)
Definition or_else (v d : R) : R :=
  if truthy v then v else d.

(** [v && e]: the guarded entry of a matrix array is skipped when [v] is
    falsy. *)
Definition and_then {A : Type} (v : R) (e : A) : option A :=
  if truthy v then Some e else None.

(** [a >= b] as a boolean. *)
Definition Rgeb (a b : R) : bool :=
  if Rle_dec b a then true else false.

(** [a === b] on numbers. *)
Definition Reqb (a b : R) : bool :=
  if Req_dec_T a b then true else false.

(** [Math.pow(v, 2)]. *)
Definition pow2 (v : R) : R := v * v.

(** [Math.atan2(y, x)], by quadrant, as ECMAScript defines it on finite
    arguments (with [atan2(0, 0) = 0]). *)
Definition atan2 (y x : R) : R :=
  if Rlt_dec 0 x then atan (y / x)
  else if Rlt_dec x 0 then
    if Rle_dec 0 y then atan (y / x) + PI else atan (y / x) - PI
  else if Rlt_dec 0 y then PI / 2
  else if Rlt_dec y 0 then - (PI / 2)
  else 0.

(** Modelled from the spec: util/misc/radiansDegreesConversion.ts is not
    part of the sources; angles are in degrees at the public boundary and
    converted to radians internally. *)
Definition degreesToRadians (degrees : R) : R := degrees * (PI / 180).

(** Modelled from the spec: util/misc/radiansDegreesConversion.ts, the
    inverse conversion. *)
Definition radiansToDegrees (radians : R) : R := radians / (PI / 180).

(** ** Point *)

(** Modelled from the spec: Point.ts is not part of the sources; a point is
    an [(x, y)] pair that supports arithmetic, rotation, midpoint and
    transform-by-matrix. *)
Module Point.

Record t : Type := new { x : R; y : R }.

Definition eq (p q : t) : bool := Reqb (x p) (x q) && Reqb (y p) (y q).

Definition add (p q : t) : t := new (x p + x q) (y p + y q).

Definition subtract (p q : t) : t := new (x p - x q) (y p - y q).

Definition scalarAdd (p : t) (s : R) : t := new (x p + s) (y p + s).

Definition min (p q : t) : t := new (Rmin (x p) (x q)) (Rmin (y p) (y q)).

Definition max (p q : t) : t := new (Rmax (x p) (x q)) (Rmax (y p) (y q)).

Definition midPointFrom (p q : t) : t :=
  new (x p + (x q - x p) * (1 / 2)) (y p + (y q - y p) * (1 / 2)).

(** Rotation of [p] by [radians] about [origin]. *)
Definition rotate (p : t) (radians : R) (origin : t) : t :=
  let s := sin radians in
  let c := cos radians in
  let v := subtract p origin in
  add (new (x v * c - y v * s) (x v * s + y v * c)) origin.

End Point.

Abbreviation Point := Point.t.

(** ** util/misc/matrix.ts *)

(** [TMat2D]: the six numbers [[a, b, c, d, e, f]]. *)
Record TMat2D : Type := Mat { m0 : R; m1 : R; m2 : R; m3 : R; m4 : R; m5 : R }.

Definition iMatrix : TMat2D := Mat 1 0 0 1 0 0.

(** Modelled from the spec: [Point#transform] of Point.ts, the
    transform-by-matrix of a point; [ignoreOffset] drops the translation. *)
Definition Point_transform (p : Point) (t : TMat2D) (ignoreOffset : bool)
  : Point :=
  Point.new
    (m0 t * Point.x p + m2 t * Point.y p + (if ignoreOffset then 0 else m4 t))
    (m1 t * Point.x p + m3 t * Point.y p + (if ignoreOffset then 0 else m5 t)).

Definition transformPoint (p : Point) (t : TMat2D) (ignoreOffset : bool)
  : Point :=
  Point_transform p t ignoreOffset.

Definition invertTransform (t : TMat2D) : TMat2D :=
  let a := 1 / (m0 t * m3 t - m1 t * m2 t) in
  let r := Mat (a * m3 t) (- a * m1 t) (- a * m2 t) (a * m0 t) 0 0 in
  let p := Point_transform (Point.new (m4 t) (m5 t)) r true in
  Mat (m0 r) (m1 r) (m2 r) (m3 r) (- Point.x p) (- Point.y p).

Definition multiplyTransformMatrices (a b : TMat2D) (is2x2 : bool) : TMat2D :=
  Mat (m0 a * m0 b + m2 a * m1 b)
      (m1 a * m0 b + m3 a * m1 b)
      (m0 a * m2 b + m2 a * m3 b)
      (m1 a * m2 b + m3 a * m3 b)
      (if is2x2 then 0 else m0 a * m4 b + m2 a * m5 b + m4 a)
      (if is2x2 then 0 else m1 a * m4 b + m3 a * m5 b + m5 a).

(** [matrices.reduceRight(..., iMatrix)]; a falsy entry is [None]. *)
Definition multiplyTransformMatrixArray
  (matrices : list (option TMat2D)) (is2x2 : bool) : TMat2D :=
  fold_right
    (fun curr product =>
       match curr with
       | Some c => multiplyTransformMatrices c product is2x2
       | None => product
       end)
    iMatrix matrices.

(** [TQrDecomposeOut]: every component present, no flips. *)
Module Qr.
Record t : Type := make {
  angle : R;
  scaleX : R;
  scaleY : R;
  skewX : R;
  skewY : R;
  translateX : R;
  translateY : R
}.
End Qr.

Definition qrDecompose (a : TMat2D) : Qr.t :=
  let angle := atan2 (m1 a) (m0 a) in
  let denom := pow2 (m0 a) + pow2 (m1 a) in
  let scaleX := sqrt denom in
  let scaleY := (m0 a * m3 a - m2 a * m1 a) / scaleX in
  let skewX := atan2 (m0 a * m2 a + m1 a * m3 a) denom in
  Qr.make (radiansToDegrees angle) scaleX scaleY (radiansToDegrees skewX) 0
          (or_else (m4 a) 0) (or_else (m5 a) 0).

Definition createTranslateMatrix (x : R) (y : option R) : TMat2D :=
  Mat 1 0 0 1 x (match y with Some v => v | None => 0 end).

(** Modelled from the spec: util/misc/cos.ts and sin.ts are not part of the
    sources; they are the cosine and sine of an angle in radians. *)
Definition fcos (angle : R) : R := cos angle.
Definition fsin (angle : R) : R := sin angle.

(** [createRotateMatrix({ angle = 0 } = {}, { x = 0, y = 0 } = {})]: a
    missing field is [None]. *)
Definition createRotateMatrix (angle : option R) (x y : option R) : TMat2D :=
  let angle := match angle with Some v => v | None => 0 end in
  let x := match x with Some v => v | None => 0 end in
  let y := match y with Some v => v | None => 0 end in
  let angleRadiant := degreesToRadians angle in
  let cosValue := fcos angleRadiant in
  let sinValue := fsin angleRadiant in
  Mat cosValue sinValue (- sinValue) cosValue
      (if truthy x then x - (cosValue * x - sinValue * y) else 0)
      (if truthy y then y - (sinValue * x + cosValue * y) else 0).

Definition createScaleMatrix (x : R) (y : option R) : TMat2D :=
  Mat x 0 0 (match y with Some v => v | None => x end) 0 0.

Definition angleToSkew (angle : R) : R := tan (degreesToRadians angle).

Definition skewToAngle (value : R) : R := radiansToDegrees (atan value).

Definition createSkewXMatrix (skewValue : R) : TMat2D :=
  Mat 1 0 (angleToSkew skewValue) 1 0 0.

Definition createSkewYMatrix (skewValue : R) : TMat2D :=
  Mat 1 (angleToSkew skewValue) 0 1 0 0.

(** [TComposeMatrixArgs]: every field is optional. *)
Module Args.
Record t : Type := make {
  translateX : option R;
  translateY : option R;
  angle : option R;
  scaleX : option R;
  scaleY : option R;
  flipX : option bool;
  flipY : option bool;
  skewX : option R;
  skewY : option R
}.
End Args.

Definition dflt {A : Type} (o : option A) (d : A) : A :=
  match o with Some v => v | None => d end.

Definition calcDimensionsMatrix (o : Args.t) : TMat2D :=
  let scaleX := dflt (Args.scaleX o) 1 in
  let scaleY := dflt (Args.scaleY o) 1 in
  let flipX := dflt (Args.flipX o) false in
  let flipY := dflt (Args.flipY o) false in
  let skewX := dflt (Args.skewX o) 0 in
  let skewY := dflt (Args.skewY o) 0 in
  multiplyTransformMatrixArray
    [ Some (createScaleMatrix (if flipX then - scaleX else scaleX)
                              (Some (if flipY then - scaleY else scaleY)));
      and_then skewX (createSkewXMatrix skewX);
      and_then skewY (createSkewYMatrix skewY) ]
    true.

Definition composeMatrix (o : Args.t) : TMat2D :=
  let translateX := dflt (Args.translateX o) 0 in
  let translateY := dflt (Args.translateY o) 0 in
  let angle := dflt (Args.angle o) 0 in
  multiplyTransformMatrixArray
    [ Some (createTranslateMatrix translateX (Some translateY));
      and_then angle (createRotateMatrix (Some angle) None None);
      Some (calcDimensionsMatrix o) ]
    false.

(** A decomposition handed back to [composeMatrix]: all seven components
    present, no flip fields. *)
Definition args_of_qr (c : Qr.t) : Args.t :=
  Args.make (Some (Qr.translateX c)) (Some (Qr.translateY c))
            (Some (Qr.angle c)) (Some (Qr.scaleX c)) (Some (Qr.scaleY c))
            None None (Some (Qr.skewX c)) (Some (Qr.skewY c)).

(** Sign of a scale factor under a flip: [flip ? -s : s]. *)
Definition signed (flip : bool) (s : R) : R := if flip then - s else s.

(** Determinant [a*d - b*c] of the linear part. *)
Definition det (t : TMat2D) : R := m0 t * m3 t - m1 t * m2 t.

(** Closeness of two numbers up to a tolerance. *)
Definition approx (tol u v : R) : Prop := Rabs (u - v) <= tol.

(** The round-trip tolerance [1e-9]. *)
Definition tolerance : R := / 1000000000.

(** The decomposition of [composeMatrix C] gives back the scale, angle and
    horizontal skew of [C] up to [tol]. *)
Definition roundtrip_recovers (tol : R) (C : Qr.t) : Prop :=
  let D := qrDecompose (composeMatrix (args_of_qr C)) in
  approx tol (Qr.scaleX D) (Qr.scaleX C) /\
  approx tol (Qr.scaleY D) (Qr.scaleY C) /\
  approx tol (Qr.angle D) (Qr.angle C) /\
  approx tol (Qr.skewX D) (Qr.skewX C).

(** ** util/misc/boundingBoxFromPoints.ts *)

Module BBox.
Record t : Type := make { left : R; top : R; width : R; height : R }.
End BBox.

Abbreviation TBBox := BBox.t.

Definition makeBoundingBoxFromPoints (points : list Point) : TBBox :=
  match points with
  | [] => BBox.make 0 0 0 0
  | p0 :: _ =>
      let '(min, max) :=
        fold_left
          (fun acc curr => (Point.min (fst acc) curr, Point.max (snd acc) curr))
          points (p0, p0) in
      let size := Point.subtract max min in
      BBox.make (Point.x min) (Point.y min) (Point.x size) (Point.y size)
  end.

(** [m] is the minimum of the numbers [l]: a member below all the others. *)
Definition is_minimum (m : R) (l : list R) : Prop :=
  In m l /\ forall v, In v l -> m <= v.

(** [m] is the maximum of the numbers [l]. *)
Definition is_maximum (m : R) (l : list R) : Prop :=
  In m l /\ forall v, In v l -> v <= m.

(** ** shapes/Object/ObjectOrigin.ts and ObjectGeometry.ts *)

(** [TOriginX] is left, center or right and [TOriginY] is top, center or
    bottom; [CENTER] is shared by both. *)
Inductive TOrigin : Type := LEFT | TOP | CENTER | RIGHT | BOTTOM.

(** Modelled from the spec: util/misc/resolveOrigin.ts is not part of the
    sources; left and top are 0, center is 0.5, right and bottom are 1. *)
Definition resolveOrigin (o : TOrigin) : R :=
  match o with
  | LEFT | TOP => 0
  | CENTER => 1 / 2
  | RIGHT | BOTTOM => 1
  end.

(** Modelled from the spec: util/misc/objectTransforms.ts is not part of the
    sources; the width and height of a [width] by [height] box after scale
    and skew are applied, that is the size of the axis-aligned box around
    its four transformed corners. *)
Definition sizeAfterTransform (width height : R) (options : Args.t) : Point :=
  let dimX := width / 2 in
  let dimY := height / 2 in
  let transformMatrix := calcDimensionsMatrix options in
  let points :=
    map (fun p => Point_transform p transformMatrix false)
        [ Point.new (- dimX) (- dimY); Point.new dimX (- dimY);
          Point.new (- dimX) dimY; Point.new dimX dimY ] in
  let bbox := makeBoundingBoxFromPoints points in
  Point.new (BBox.width bbox) (BBox.height bbox).

(** One segment of the fingerprint [transformMatrixKey] builds: the
    properties of one object, in the order they are concatenated.  The
    string of the source is modelled by the tuple of the values it prints;
    the fingerprint of an object in a group is the list of the segments of
    its ancestors followed by its own. *)
Record KeySegment : Type := mkKeySegment {
  k_top : R; k_left : R; k_scaleX : R; k_scaleY : R; k_skewX : R; k_skewY : R;
  k_angle : R; k_originX : TOrigin; k_originY : TOrigin;
  k_width : R; k_height : R; k_strokeWidth : R; k_flipX : bool; k_flipY : bool
}.

Definition TOrigin_eqb (a b : TOrigin) : bool :=
  match a, b with
  | LEFT, LEFT | TOP, TOP | CENTER, CENTER | RIGHT, RIGHT | BOTTOM, BOTTOM => true
  | _, _ => false
  end.

Definition KeySegment_eqb (a b : KeySegment) : bool :=
  Reqb (k_top a) (k_top b) && Reqb (k_left a) (k_left b) &&
  Reqb (k_scaleX a) (k_scaleX b) && Reqb (k_scaleY a) (k_scaleY b) &&
  Reqb (k_skewX a) (k_skewX b) && Reqb (k_skewY a) (k_skewY b) &&
  Reqb (k_angle a) (k_angle b) &&
  TOrigin_eqb (k_originX a) (k_originX b) &&
  TOrigin_eqb (k_originY a) (k_originY b) &&
  Reqb (k_width a) (k_width b) && Reqb (k_height a) (k_height b) &&
  Reqb (k_strokeWidth a) (k_strokeWidth b) &&
  Bool.eqb (k_flipX a) (k_flipX b) && Bool.eqb (k_flipY a) (k_flipY b).

Fixpoint key_eqb (a b : list KeySegment) : bool :=
  match a, b with
  | [], [] => true
  | x :: a', y :: b' => KeySegment_eqb x y && key_eqb a' b'
  | _, _ => false
  end.

(** [TMatrixCache]. *)
Record TMatrixCache : Type := mkCache {
  cache_key : list KeySegment;
  cache_value : TMat2D
}.

(** The four corners [TCornerPoint]. *)
Module Corners.
Record t : Type := make { tl : Point; tr : Point; bl : Point; br : Point }.
End Corners.

Abbreviation TCornerPoint := Corners.t.

(** The geometric properties of a scene object ([ObjectOrigin] and
    [ObjectGeometry]); [group] is the object that contains it. *)
Module FabricObject.
Inductive t : Type := make {
  top : R;
  left : R;
  width : R;
  height : R;
  flipX : bool;
  flipY : bool;
  scaleX : R;
  scaleY : R;
  skewX : R;
  skewY : R;
  originX : TOrigin;
  originY : TOrigin;
  angle : R;
  strokeWidth : R;
  strokeUniform : bool;
  ownMatrixCache : option TMatrixCache;
  matrixCache : option TMatrixCache;
  group : option t
}.

Definition set_ownMatrixCache (o : t) (c : option TMatrixCache) : t :=
  make (top o) (left o) (width o) (height o) (flipX o) (flipY o)
       (scaleX o) (scaleY o) (skewX o) (skewY o) (originX o) (originY o)
       (angle o) (strokeWidth o) (strokeUniform o) c (matrixCache o)
       (group o).

Definition set_matrixCache (o : t) (c : option TMatrixCache) : t :=
  make (top o) (left o) (width o) (height o) (flipX o) (flipY o)
       (scaleX o) (scaleY o) (skewX o) (skewY o) (originX o) (originY o)
       (angle o) (strokeWidth o) (strokeUniform o) (ownMatrixCache o) c
       (group o).

Definition set_group (o : t) (g : option t) : t :=
  make (top o) (left o) (width o) (height o) (flipX o) (flipY o)
       (scaleX o) (scaleY o) (skewX o) (skewY o) (originX o) (originY o)
       (angle o) (strokeWidth o) (strokeUniform o) (ownMatrixCache o)
       (matrixCache o) g.
End FabricObject.

(** The overrides [options] of [_getTransformedDimensions]: each field that
    is present replaces the property of the object. *)
Module DimOptions.
Record t : Type := make {
  scaleX : option R;
  scaleY : option R;
  skewX : option R;
  skewY : option R;
  width : option R;
  height : option R;
  strokeWidth : option R
}.
Definition empty : t := make None None None None None None None.
End DimOptions.

Definition _getTransformedDimensions
  (this : FabricObject.t) (options : DimOptions.t) : Point :=
  let scaleX := dflt (DimOptions.scaleX options) (FabricObject.scaleX this) in
  let scaleY := dflt (DimOptions.scaleY options) (FabricObject.scaleY this) in
  let skewX := dflt (DimOptions.skewX options) (FabricObject.skewX this) in
  let skewY := dflt (DimOptions.skewY options) (FabricObject.skewY this) in
  let width := dflt (DimOptions.width options) (FabricObject.width this) in
  let height := dflt (DimOptions.height options) (FabricObject.height this) in
  let strokeWidth :=
    dflt (DimOptions.strokeWidth options) (FabricObject.strokeWidth this) in
  let preScalingStrokeValue :=
    if FabricObject.strokeUniform this then 0 else strokeWidth in
  let postScalingStrokeValue :=
    if FabricObject.strokeUniform this then strokeWidth else 0 in
  let dimX := width + preScalingStrokeValue in
  let dimY := height + preScalingStrokeValue in
  let noSkew := Reqb skewX 0 && Reqb skewY 0 in
  let finalDimensions :=
    if noSkew then Point.new (dimX * scaleX) (dimY * scaleY)
    else sizeAfterTransform dimX dimY
           (Args.make None None None (Some scaleX) (Some scaleY) None None
                      (Some skewX) (Some skewY)) in
  Point.scalarAdd finalDimensions postScalingStrokeValue.

Definition translateToGivenOrigin
  (this : FabricObject.t) (point : Point)
  (fromOriginX fromOriginY toOriginX toOriginY : TOrigin) : Point :=
  let offsetX := resolveOrigin toOriginX - resolveOrigin fromOriginX in
  let offsetY := resolveOrigin toOriginY - resolveOrigin fromOriginY in
  if truthy offsetX || truthy offsetY then
    let dim := _getTransformedDimensions this DimOptions.empty in
    Point.new (Point.x point + offsetX * Point.x dim)
              (Point.y point + offsetY * Point.y dim)
  else Point.new (Point.x point) (Point.y point).

Definition translateToCenterPoint
  (this : FabricObject.t) (point : Point) (originX originY : TOrigin) : Point :=
  let p := translateToGivenOrigin this point originX originY CENTER CENTER in
  if truthy (FabricObject.angle this)
  then Point.rotate p (degreesToRadians (FabricObject.angle this)) point
  else p.

Definition translateToOriginPoint
  (this : FabricObject.t) (center : Point) (originX originY : TOrigin) : Point :=
  let p := translateToGivenOrigin this center CENTER CENTER originX originY in
  if truthy (FabricObject.angle this)
  then Point.rotate p (degreesToRadians (FabricObject.angle this)) center
  else p.

Definition getRelativeCenterPoint (this : FabricObject.t) : Point :=
  translateToCenterPoint this
    (Point.new (FabricObject.left this) (FabricObject.top this))
    (FabricObject.originX this) (FabricObject.originY this).

Definition getPointByOrigin
  (this : FabricObject.t) (originX originY : TOrigin) : Point :=
  translateToOriginPoint this (getRelativeCenterPoint this) originX originY.

Definition _getLeftTopCoords (this : FabricObject.t) : Point :=
  translateToOriginPoint this (getRelativeCenterPoint this) LEFT TOP.

Definition calcACoords (this : FabricObject.t) : TCornerPoint :=
  let rotateMatrix :=
    createRotateMatrix (Some (FabricObject.angle this)) None None in
  let c := getRelativeCenterPoint this in
  let tMatrix := createTranslateMatrix (Point.x c) (Some (Point.y c)) in
  let finalMatrix := multiplyTransformMatrices tMatrix rotateMatrix false in
  let dim := _getTransformedDimensions this DimOptions.empty in
  let w := Point.x dim / 2 in
  let h := Point.y dim / 2 in
  Corners.make
    (transformPoint (Point.new (- w) (- h)) finalMatrix false)
    (transformPoint (Point.new w (- h)) finalMatrix false)
    (transformPoint (Point.new (- w) h) finalMatrix false)
    (transformPoint (Point.new w h) finalMatrix false).

Definition own_key_segment (this : FabricObject.t) : KeySegment :=
  mkKeySegment
    (FabricObject.top this) (FabricObject.left this)
    (FabricObject.scaleX this) (FabricObject.scaleY this)
    (FabricObject.skewX this) (FabricObject.skewY this)
    (FabricObject.angle this)
    (FabricObject.originX this) (FabricObject.originY this)
    (FabricObject.width this) (FabricObject.height this)
    (FabricObject.strokeWidth this)
    (FabricObject.flipX this) (FabricObject.flipY this).

Fixpoint transformMatrixKey (skipGroup : bool) (this : FabricObject.t)
  : list KeySegment :=
  let prefix :=
    match FabricObject.group this with
    | Some g => if skipGroup then [] else transformMatrixKey skipGroup g
    | None => []
    end in
  prefix ++ [own_key_segment this].

Definition calcOwnMatrix (this : FabricObject.t) : TMat2D * FabricObject.t :=
  let key := transformMatrixKey true this in
  let compute :=
    let center := getRelativeCenterPoint this in
    let options :=
      Args.make (Some (Point.x center)) (Some (Point.y center))
                (Some (FabricObject.angle this))
                (Some (FabricObject.scaleX this))
                (Some (FabricObject.scaleY this))
                (Some (FabricObject.flipX this))
                (Some (FabricObject.flipY this))
                (Some (FabricObject.skewX this))
                (Some (FabricObject.skewY this)) in
    let value := composeMatrix options in
    (value, FabricObject.set_ownMatrixCache this (Some (mkCache key value))) in
  match FabricObject.ownMatrixCache this with
  | Some cache =>
      if key_eqb (cache_key cache) key then (cache_value cache, this)
      else compute
  | None => compute
  end.

(** [calcTransformMatrix]: the matrix and the object with its caches (and
    those of its ancestors) filled. *)
Fixpoint calcTransformMatrix (skipGroup : bool) (this : FabricObject.t)
  : TMat2D * FabricObject.t :=
  let '(matrix, this1) := calcOwnMatrix this in
  match FabricObject.group this with
  | None => (matrix, this1)
  | Some g =>
      if skipGroup then (matrix, this1)
      else
        let key := transformMatrixKey skipGroup this1 in
        let compute :=
          let '(gm, g') := calcTransformMatrix false g in
          let matrix' := multiplyTransformMatrices gm matrix false in
          (matrix',
           FabricObject.set_matrixCache
             (FabricObject.set_group this1 (Some g'))
             (Some (mkCache key matrix'))) in
        match FabricObject.matrixCache this1 with
        | Some cache =>
            if key_eqb (cache_key cache) key then (cache_value cache, this1)
            else compute
        | None => compute
        end
  end.

(** [getBoundingRect(absolute = true, calculate = true)] of an object that
    is not in a group: the box around its four absolute corners, in the
    order [tl, tr, br, bl] of [getCoords]. *)
Definition getBoundingRect (this : FabricObject.t) : TBBox :=
  let c := calcACoords this in
  makeBoundingBoxFromPoints
    [Corners.tl c; Corners.tr c; Corners.br c; Corners.bl c].

(** ** Paths, clip paths and the notification log *)

(** One command of a [TSimplePathData]. *)
Inductive PathCommand : Type :=
| CmdM (x y : R)
| CmdQ (x1 y1 x y : R)
| CmdL (x y : R).

Definition TSimplePathData : Type := list PathCommand.

(** A clip path: its transform matrix and its two flags. *)
Record ClipPath : Type := mkClipPath {
  clip_transform : TMat2D;
  absolutePositioned : bool;
  clip_inverted : bool
}.

(** A [Path] object.  Its geometry is kept as the transform matrix that
    [calcTransformMatrix] returns for it; the style options that
    [createPath] copies from the brush without reading them (line cap, line
    join, miter limit, dash array, shadow) are left out. *)
Record Path : Type := mkPath {
  path_data : TSimplePathData;
  path_transform : TMat2D;
  path_clipPath : option ClipPath;
  path_stroke : string;
  path_strokeWidth : R;
  globalCompositeOperation : string
}.

Definition set_path_transform (p : Path) (t : TMat2D) : Path :=
  mkPath (path_data p) t (path_clipPath p) (path_stroke p)
         (path_strokeWidth p) (globalCompositeOperation p).

Definition set_path_clipPath (p : Path) (c : option ClipPath) : Path :=
  mkPath (path_data p) (path_transform p) c (path_stroke p)
         (path_strokeWidth p) (globalCompositeOperation p).


(** [fabric.Eraser]: the group of the erase paths of one object. *)
Record Eraser : Type := mkEraser { eraser_objects : list Path }.

(** The [erasable] property: [false], [true] or ['deep']. *)
Inductive Erasable : Type := ErasableFalse | ErasableTrue | ErasableDeep.

(** Truthiness of [obj.erasable]. *)
Definition erasable_truthy (e : Erasable) : bool :=
  match e with ErasableFalse => false | _ => true end.

Definition is_deep (e : Erasable) : bool :=
  match e with ErasableDeep => true | _ => false end.

(** Objects are referred to by identity. *)
Definition ObjId : Type := nat.

(** The mutable fields of a scene object that the eraser reads and writes. *)
Record ObjState : Type := mkObjState {
  geometry : FabricObject.t;
  erasable : Erasable;
  visible : bool;
  dirty : bool;
  eraser : option Eraser;
  clipPath : option ClipPath
}.

Definition set_geometry (o : ObjState) (g : FabricObject.t) : ObjState :=
  mkObjState g (erasable o) (visible o) (dirty o) (eraser o) (clipPath o).

Definition set_visible (o : ObjState) (v : bool) : ObjState :=
  mkObjState (geometry o) (erasable o) v (dirty o) (eraser o) (clipPath o).

Definition set_dirty (o : ObjState) (d : bool) : ObjState :=
  mkObjState (geometry o) (erasable o) (visible o) d (eraser o) (clipPath o).

Definition set_eraser (o : ObjState) (e : option Eraser) : ObjState :=
  mkObjState (geometry o) (erasable o) (visible o) (dirty o) e (clipPath o).

(** The heap of scene objects: every reference denotes an object. *)
Definition Store : Type := ObjId -> ObjState.

Definition update (s : Store) (id : ObjId) (o : ObjState) : Store :=
  fun j => if Nat.eqb j id then o else s j.

(** A reference to a scene object together with its [_objects] when it is
    a collection (when it has [forEachObject]).  The nesting of the scene
    is not changed by the functions below, only the fields in the store. *)
Inductive SceneObject : Type :=
| Obj (id : ObjId) (_objects : option (list SceneObject)).

Definition obj_id (o : SceneObject) : ObjId :=
  match o with Obj id _ => id end.


(** The accumulator [context] of one erase gesture. *)
Record Context : Type := mkContext {
  targets : list ObjId;
  subTargets : list ObjId;
  drawable_backgroundImage : option ObjId;
  drawable_overlayImage : option ObjId
}.

Definition empty_context : Context := mkContext [] [] None None.

(** The canvas fields that the brushes read. *)
Record Canvas : Type := mkCanvas {
  canvas_objects : list SceneObject;
  _objectsToRender : option (list SceneObject);
  backgroundImage : option SceneObject;
  overlayImage : option SceneObject;
  backgroundColor : string;
  overlayColor : string;
  zoom : R
}.

Definition set_backgroundImage (c : Canvas) (b : option SceneObject) : Canvas :=
  mkCanvas (canvas_objects c) (_objectsToRender c) b (overlayImage c)
           (backgroundColor c) (overlayColor c) (zoom c).

Definition set_overlayImage (c : Canvas) (b : option SceneObject) : Canvas :=
  mkCanvas (canvas_objects c) (_objectsToRender c) (backgroundImage c) b
           (backgroundColor c) (overlayColor c) (zoom c).

(** Truthiness of a string: only the empty string is falsy. *)
Definition string_truthy (s : string) : bool :=
  match s with EmptyString => false | _ => true end.

(** Calls to the collaborators (render surface, notification bus), in the
    order they are made.  A render call records the canvas and the store it
    reads. *)
Inductive Event : Type :=
| EvClosePath
| EvClearContextTop
| EvRequestRenderAll
| EvResetShadow
| EvRender
| EvSetCoords (path : Path)
| EvCanvasAdd (path : Path)
| EvCanvasFire (name : string) (path : option Path) (context : option Context)
| EvObjectFire (target : ObjId) (name : string) (path : Path)
| EvRenderBackground (c : Canvas) (s : Store)
| EvRenderObjects (objects : list SceneObject) (s : Store)
| EvRenderOverlay (c : Canvas) (s : Store).

(** The canvas, the heap and the log of collaborator calls. *)
Record World : Type := mkWorld {
  canvas : Canvas;
  store : Store;
  log : list Event
}.

Definition set_canvas (w : World) (c : Canvas) : World :=
  mkWorld c (store w) (log w).

Definition set_store (w : World) (s : Store) : World :=
  mkWorld (canvas w) s (log w).

Definition emit (w : World) (e : Event) : World :=
  mkWorld (canvas w) (store w) (log w ++ [e]).

(** ** brushes/PencilBrush.ts *)

(** The fields of a [PencilBrush]; the last four are those an
    [EraserBrush] adds. *)
Module Brush.
Record t : Type := make {
  decimate : R;
  drawStraightLine : bool;
  _points : list Point;
  _hasStraightLine : bool;
  oldEnd : option Point;
  width : R;
  color : string;
  inverted : bool;
  erasingWidthAliasing : R;
  _isErasing : bool;
  _patternCanvas : bool
}.

Definition set_points (b : t) (pts : list Point) : t :=
  make (decimate b) (drawStraightLine b) pts (_hasStraightLine b) (oldEnd b)
       (width b) (color b) (inverted b) (erasingWidthAliasing b)
       (_isErasing b) (_patternCanvas b).

Definition set_hasStraightLine (b : t) (v : bool) : t :=
  make (decimate b) (drawStraightLine b) (_points b) v (oldEnd b)
       (width b) (color b) (inverted b) (erasingWidthAliasing b)
       (_isErasing b) (_patternCanvas b).

Definition set_drawStraightLine (b : t) (v : bool) : t :=
  make (decimate b) v (_points b) (_hasStraightLine b) (oldEnd b)
       (width b) (color b) (inverted b) (erasingWidthAliasing b)
       (_isErasing b) (_patternCanvas b).

Definition set_oldEnd (b : t) (v : option Point) : t :=
  make (decimate b) (drawStraightLine b) (_points b) (_hasStraightLine b) v
       (width b) (color b) (inverted b) (erasingWidthAliasing b)
       (_isErasing b) (_patternCanvas b).


Definition set_patternCanvas (b : t) (v : bool) : t :=
  make (decimate b) (drawStraightLine b) (_points b) (_hasStraightLine b)
       (oldEnd b) (width b) (color b) (inverted b) (erasingWidthAliasing b)
       (_isErasing b) v.
End Brush.

(** [_addPoint]: the answer and the brush after the call. *)
Definition _addPoint (this : Brush.t) (point : Point) : bool * Brush.t :=
  let points := Brush._points this in
  if (1 <? List.length points)%nat && Point.eq point (last points point)
  then (false, this)
  else
    let this1 :=
      if Brush.drawStraightLine this && (1 <? List.length points)%nat
      then Brush.set_points (Brush.set_hasStraightLine this true)
                            (removelast points)
      else this in
    (true, Brush.set_points this1 (Brush._points this1 ++ [point])).

(** [_reset], for the fields of the brush; the styles and the shadow it
    sets belong to the render surface. *)
Definition _reset (this : Brush.t) : Brush.t :=
  Brush.set_hasStraightLine (Brush.set_points this []) false.

Definition _prepareForDrawing (this : Brush.t) (pointer : Point) : Brush.t :=
  snd (_addPoint (_reset this) pointer).

(** [onMouseDown]; [isMainEvent] is the answer of [canvas._isMainEvent(e)]
    and [modifier] is [e[this.straightLineKey]] when the key is enabled. *)
Definition onMouseDown
  (this : Brush.t) (pointer : Point) (isMainEvent modifier : bool) (w : World)
  : Brush.t * World :=
  if negb isMainEvent then (this, w)
  else
    let this1 := Brush.set_drawStraightLine this modifier in
    let this2 := _prepareForDrawing this1 pointer in
    let this3 := snd (_addPoint this2 pointer) in
    (this3, emit w EvRender).

(** The body of the [for] loop of [decimatePoints], [n] iterations from
    index [i]; reading past the end of the array is a [TypeError], that is
    [None]. *)
Fixpoint decimate_loop
  (points : list Point) (adjustedDistance : R) (n i : nat)
  (lastPoint : Point) (newPoints : list Point) : option (list Point) :=
  match n with
  | O => Some newPoints
  | S n' =>
      match nth_error points i with
      | None => None
      | Some p =>
          let cDistance :=
            pow2 (Point.x lastPoint - Point.x p) +
            pow2 (Point.y lastPoint - Point.y p) in
          if Rgeb cDistance adjustedDistance
          then decimate_loop points adjustedDistance n' (S i) p
                 (newPoints ++ [p])
          else decimate_loop points adjustedDistance n' (S i) lastPoint
                 newPoints
      end
  end.

(** [decimatePoints(points, distance)] with [zoom = canvas.getZoom()]; the
    loop runs for [i = 1 .. l - 2]. *)
Definition decimatePoints (zoom : R) (points : list Point) (distance : R)
  : option (list Point) :=
  if (List.length points <=? 2)%nat then Some points
  else
    match nth_error points 0 with
    | None => None
    | Some lastPoint =>
        let adjustedDistance := pow2 (distance / zoom) in
        let l := (List.length points - 1)%nat in
        match decimate_loop points adjustedDistance (l - 1 - 1) 1
                lastPoint [lastPoint] with
        | None => None
        | Some newPoints =>
            match nth_error points l with
            | None => None
            | Some pl => Some (newPoints ++ [pl])
            end
        end
    end.

(** ** Path finalization and mixins/eraser_brush.mixin.ts *)

Section Brushes.

(** util/path ([getSmoothPathFromPoints], [joinPath]), shapes/Path (the
    geometry of a new path), [mergeClipPaths] and the polygon
    intersection behind [intersectsWithObject] are not part of the
    sources: they are parameters. *)
Variable getSmoothPathFromPoints : list Point -> R -> TSimplePathData.
Variable joinPath : TSimplePathData -> string.
Variable newPathTransform : TSimplePathData -> R -> TMat2D.
Variable mergeClipPaths : ClipPath -> ClipPath -> ClipPath.
Variable intersectsWithObject : FabricObject.t -> Path -> bool.

Definition isEmptySVGPath (pathData : TSimplePathData) : bool :=
  String.eqb (joinPath pathData) "M 0 0 Q 0 0 0 0 L 0 0".

Definition convertPointsToSVGPath (this : Brush.t) (points : list Point)
  : TSimplePathData :=
  let correction := Brush.width this / 1000 in
  getSmoothPathFromPoints points correction.

(** [PencilBrush.createPath]. *)
Definition createPath (this : Brush.t) (pathData : TSimplePathData) : Path :=
  mkPath pathData (newPathTransform pathData (Brush.width this)) None
         (Brush.color this) (Brush.width this) "source-over".

(** The points after [if (this.decimate) this._points = decimatePoints(..)]. *)
Definition decimated_points (this : Brush.t) (w : World)
  : option (list Point) :=
  if truthy (Brush.decimate this)
  then decimatePoints (zoom (canvas w)) (Brush._points this)
                      (Brush.decimate this)
  else Some (Brush._points this).

(** [PencilBrush._finalizeAndAddPath]. *)
Definition Pencil_finalizeAndAddPath (this : Brush.t) (w : World)
  : option (Brush.t * World) :=
  let w1 := emit w EvClosePath in
  match decimated_points this w with
  | None => None
  | Some pts =>
      let this1 := Brush.set_points this pts in
      let pathData := convertPointsToSVGPath this1 pts in
      if isEmptySVGPath pathData
      then Some (this1, emit w1 EvRequestRenderAll)
      else
        let path := createPath this1 pathData in
        let w2 := emit w1 EvClearContextTop in
        let w3 := emit w2 (EvCanvasFire "before:path:created" (Some path) None) in
        let w4 := emit w3 (EvCanvasAdd path) in
        let w5 := emit w4 EvRequestRenderAll in
        let w6 := emit w5 (EvSetCoords path) in
        let w7 := emit w6 EvResetShadow in
        Some (this1, emit w7 (EvCanvasFire "path:created" (Some path) None))
  end.

(** [_isErasable]: [object.erasable !== false]. *)
Definition _isErasable (o : ObjState) : bool :=
  match erasable o with ErasableFalse => false | _ => true end.

(** [restorationContext]: the objects hidden, the masks detached with
    their owners, and the collections marked dirty. *)
Record RestorationContext : Type := mkRestoration {
  rc_visibility : list ObjId;
  rc_eraser : list (ObjId * Eraser);
  rc_collection : list ObjId
}.

(** The end of the [forEach] callback of [_prepareCollectionTraversal]:
    [if (dirty && collection instanceof fabric.Object)]; the canvas is
    the collection [None]. *)
Definition mark_collection
  (collection : option ObjId) (st : Store * RestorationContext)
  : Store * RestorationContext :=
  match collection with
  | None => st
  | Some cid =>
      let '(s, rc) := st in
      (update s cid (set_dirty (s cid) true),
       mkRestoration (rc_visibility rc) (rc_eraser rc)
                     (rc_collection rc ++ [cid]))
  end.

(** The [forEach] callback of [_prepareCollectionTraversal] on [obj]. *)
Fixpoint prepare_object
  (inverted : bool) (collection : option ObjId) (obj : SceneObject)
  (st : Store * RestorationContext) {struct obj}
  : Store * RestorationContext :=
  match obj with
  | Obj id kids =>
      let '(s, rc) := st in
      let o := s id in
      let leaf :=
        if negb inverted && erasable_truthy (erasable o) && visible o then
          mark_collection collection
            (update s id (set_visible o false),
             mkRestoration (rc_visibility rc ++ [id]) (rc_eraser rc)
                           (rc_collection rc))
        else
          match eraser o with
          | Some e =>
              if inverted && erasable_truthy (erasable o) && visible o then
                mark_collection collection
                  (update s id (set_dirty (set_eraser o None) true),
                   mkRestoration (rc_visibility rc)
                                 (rc_eraser rc ++ [(id, e)])
                                 (rc_collection rc))
              else st
          | None => st
          end in
      match kids with
      | Some objs =>
          if is_deep (erasable o)
          then fold_left
                 (fun acc c => prepare_object inverted (Some id) c acc)
                 objs st
          else leaf
      | None => leaf
      end
  end.

Definition _prepareCollectionTraversal
  (inverted : bool) (collection : option ObjId) (objects : list SceneObject)
  (st : Store * RestorationContext) : Store * RestorationContext :=
  fold_left (fun acc c => prepare_object inverted collection c acc)
            objects st.

(** [restorationContext.visibility.forEach(obj => obj.visible = true)]. *)
Definition restore_visibility (l : list ObjId) (s : Store) : Store :=
  fold_left (fun acc id => update acc id (set_visible (acc id) true)) l s.

(** [restorationContext.eraser.forEach(...)]. *)
Definition restore_eraser (l : list (ObjId * Eraser)) (s : Store) : Store :=
  fold_left
    (fun acc entry =>
       let '(id, e) := entry in
       update acc id (set_dirty (set_eraser (acc id) (Some e)) true))
    l s.

(** [restorationContext.collection.forEach(obj => obj.dirty = true)]. *)
Definition restore_collection (l : list ObjId) (s : Store) : Store :=
  fold_left (fun acc id => update acc id (set_dirty (acc id) true)) l s.

(** The background or overlay part of [preparePattern]: [image] and
    [imageErasable] are read when [preparePattern] starts, [set] writes
    the canvas field of the drawable, [color] is the matching fill and
    [render] the render call. *)
Definition prepare_drawable
  (inverted : bool)
  (image : option SceneObject) (imageErasable : bool)
  (set : Canvas -> option SceneObject -> Canvas)
  (color : Canvas -> string)
  (render : Canvas -> Store -> Event)
  (w : World) : World :=
  let present := match image with Some _ => true | None => false end in
  if negb inverted &&
     ((present && negb imageErasable) || string_truthy (color (canvas w)))
  then
    let w1 := if imageErasable then set_canvas w (set (canvas w) None) else w in
    let w2 := emit w1 (render (canvas w1) (store w1)) in
    if imageErasable then set_canvas w2 (set (canvas w2) image) else w2
  else if inverted then
    match image with
    | Some i =>
        let id := obj_id i in
        match eraser (store w id) with
        | Some e =>
            let w1 :=
              set_store w
                (update (store w) id
                   (set_dirty (set_eraser (store w id) None) true)) in
            let w2 := emit w1 (render (canvas w1) (store w1)) in
            set_store w2
              (update (store w2) id
                 (set_dirty (set_eraser (store w2 id) (Some e)) true))
        | None => emit w (render (canvas w) (store w))
        end
    | None => emit w (render (canvas w) (store w))
    end
  else w.

(** [image && this._isErasable(image)]. *)
Definition drawable_erasable (s : Store) (image : option SceneObject) : bool :=
  match image with
  | Some i => _isErasable (s (obj_id i))
  | None => false
  end.

(** [preparePattern(objects)]. *)
Definition preparePattern
  (this : Brush.t) (objects : option (list SceneObject)) (w : World)
  : Brush.t * World :=
  let this1 := Brush.set_patternCanvas this true in
  let objects :=
    match objects with
    | Some l => l
    | None =>
        match _objectsToRender (canvas w) with
        | Some l => l
        | None => canvas_objects (canvas w)
        end
    end in
  let bgImage := backgroundImage (canvas w) in
  let bgErasable := drawable_erasable (store w) bgImage in
  let ovImage := overlayImage (canvas w) in
  let overlayErasable := drawable_erasable (store w) ovImage in
  let w1 :=
    prepare_drawable (Brush.inverted this) bgImage bgErasable
      set_backgroundImage backgroundColor EvRenderBackground w in
  let '(s2, rc) :=
    _prepareCollectionTraversal (Brush.inverted this) None objects
      (store w1, mkRestoration [] [] []) in
  let w2 := emit (set_store w1 s2) (EvRenderObjects objects s2) in
  let s3 := restore_visibility (rc_visibility rc) (store w2) in
  let s4 := restore_eraser (rc_eraser rc) s3 in
  let s5 := restore_collection (rc_collection rc) s4 in
  let w3 := set_store w2 s5 in
  let w4 :=
    prepare_drawable (Brush.inverted this) ovImage overlayErasable
      set_overlayImage overlayColor EvRenderOverlay w3 in
  (this1, w4).


(** Modelled from the spec: util/misc/objectTransforms.ts
    ([applyTransformToObject]) is not part of the sources; it gives the
    object the transform it is handed. *)
Definition applyTransformToPath (path : Path) (transform : TMat2D) : Path :=
  set_path_transform path transform.

(** Modelled from the spec: [applyTransformToObject] on a clip path. *)
Definition applyTransformToClipPath (c : ClipPath) (transform : TMat2D)
  : ClipPath :=
  mkClipPath transform (absolutePositioned c) (clip_inverted c).

Definition applyClipPathToPath
  (path : Path) (clipPath : ClipPath)
  (clipPathContainerTransformMatrix : TMat2D) : Path :=
  let pathInvTransform := invertTransform (path_transform path) in
  let clipPathTransform := clip_transform clipPath in
  let transform :=
    if absolutePositioned clipPath then pathInvTransform
    else multiplyTransformMatrices pathInvTransform
           clipPathContainerTransformMatrix false in
  let clipPath1 :=
    mkClipPath (clip_transform clipPath) false (clip_inverted clipPath) in
  let clipPath2 :=
    applyTransformToClipPath clipPath1
      (multiplyTransformMatrices transform clipPathTransform false) in
  set_path_clipPath path
    (match path_clipPath path with
     | Some own => Some (mergeClipPaths clipPath2 own)
     | None => Some clipPath2
     end).

(** The result of [_addPathToObjectEraser]: whether the call returned a
    promise ([false] when it returned [undefined]), the context and the
    world once the promise has settled. *)
Record AddResult : Type := mkAddResult {
  returned : bool;
  res_context : option Context;
  res_world : World
}.

(** [clonePathWithClipPath(path, object)]: the path to hand down and the
    world with the caches of [object] filled. *)
Definition clonePathWithClipPath
  (path : Path) (id : ObjId) (clip : ClipPath) (w : World) : Path * World :=
  let o := store w id in
  let '(objTransform, g) := calcTransformMatrix false (geometry o) in
  (applyClipPathToPath path clip objTransform,
   set_store w (update (store w) id (set_geometry o g))).

(** The part of [_addPathToObjectEraser] below [//  prepare eraser]: the
    target is not walked into. *)
Definition attach_to_leaf
  (id : ObjId) (path : Path) (context : option Context) (w : World)
  : AddResult :=
  let o := store w id in
  let eraser0 :=
    match eraser o with Some e => e | None => mkEraser [] end in
  let o1 := set_eraser o (Some eraser0) in
  let '(m, g) := calcTransformMatrix false (geometry o1) in
  let desiredTransform :=
    multiplyTransformMatrices (invertTransform m) (path_transform path)
                              false in
  let path1 := applyTransformToPath path desiredTransform in
  let o2 :=
    set_dirty
      (set_eraser (set_geometry o1 g)
         (Some (mkEraser (eraser_objects eraser0 ++ [path1]))))
      true in
  let w1 := set_store w (update (store w) id o2) in
  let w2 := emit w1 (EvObjectFire id "erasing:end" path1) in
  let context1 :=
    match context with
    | Some c =>
        Some
          (match FabricObject.group (geometry o) with
           | Some _ =>
               mkContext (targets c) (subTargets c ++ [id])
                         (drawable_backgroundImage c)
                         (drawable_overlayImage c)
           | None =>
               mkContext (targets c ++ [id]) (subTargets c)
                         (drawable_backgroundImage c)
                         (drawable_overlayImage c)
           end)
    | None => None
    end in
  mkAddResult true context1 w2.

(** [_addPathToObjectEraser(obj, path, context)], the tasks of the
    fan-out run one after the other in the order of [_objects]. *)
Fixpoint _addPathToObjectEraser
  (obj : SceneObject) (path : Path) (context : option Context) (w : World)
  {struct obj} : AddResult :=
  match obj with
  | Obj id kids =>
      let o := store w id in
      match kids with
      | Some objs =>
          if is_deep (erasable o) then
            let s0 := store w in
            let is_target c := erasable_truthy (erasable (s0 (obj_id c))) in
            if existsb is_target objs then
              let '(path1, w1) :=
                match clipPath o with
                | Some clip => clonePathWithClipPath path id clip w
                | None => (path, w)
                end in
              let '(context2, w2) :=
                fold_left
                  (fun acc c =>
                     if is_target c then
                       let r :=
                         _addPathToObjectEraser c path1 (fst acc) (snd acc) in
                       (res_context r, res_world r)
                     else acc)
                  objs (context, w1) in
              mkAddResult true context2 w2
            else mkAddResult false context w
          else attach_to_leaf id path context w
      | None => attach_to_leaf id path context w
      end
  end.

(** One entry of [applyEraserToCanvas]; [None] is the [TypeError] of
    calling [then] on [undefined]. *)
Definition apply_to_drawable
  (drawable : option SceneObject) (record : Context -> ObjId -> Context)
  (path : Path) (st : option Context * World) : option (option Context * World) :=
  let '(context, w) := st in
  match drawable with
  | Some d =>
      if erasable_truthy (erasable (store w (obj_id d))) then
        let r := _addPathToObjectEraser d path None w in
        if returned r then
          Some (match context with
                | Some c => Some (record c (obj_id d))
                | None => None
                end, res_world r)
        else None
      else Some st
  | None => Some st
  end.

Definition applyEraserToCanvas
  (path : Path) (context : option Context) (w : World)
  : option (option Context * World) :=
  match apply_to_drawable (backgroundImage (canvas w))
          (fun c id => mkContext (targets c) (subTargets c) (Some id)
                                 (drawable_overlayImage c))
          path (context, w) with
  | None => None
  | Some st =>
      apply_to_drawable (overlayImage (canvas w))
        (fun c id => mkContext (targets c) (subTargets c)
                               (drawable_backgroundImage c) (Some id))
        path st
  end.



End Brushes.

(** ** Sample inputs *)

(** Components with a negative horizontal scale and nothing else. *)
Definition mirrored_components : Qr.t := Qr.make 0 (-1) 1 0 0 0 0.

(** Components inside the range the decomposition returns. *)
Definition sample_components : Qr.t := Qr.make 90 2 3 45 0 5 7.

(** An invertible matrix with a shear and a translation. *)
Definition sample_matrix : TMat2D := Mat 2 0 1 1 3 4.

(** The corners the claim expects from the center and the bare [width] and
    [height] of an object. *)
Definition corners_of_size (o : FabricObject.t) (W H : R) : TCornerPoint :=
  let c := getRelativeCenterPoint o in
  Corners.make
    (Point.new (Point.x c - W / 2) (Point.y c - H / 2))
    (Point.new (Point.x c + W / 2) (Point.y c - H / 2))
    (Point.new (Point.x c - W / 2) (Point.y c + H / 2))
    (Point.new (Point.x c + W / 2) (Point.y c + H / 2)).

(** An object that is not rotated, skewed or scaled. *)
Definition plain_object (o : FabricObject.t) : Prop :=
  FabricObject.angle o = 0 /\
  FabricObject.skewX o = 0 /\ FabricObject.skewY o = 0 /\
  FabricObject.scaleX o = 1 /\ FabricObject.scaleY o = 1.

(** A 100 by 100 square centred on the origin with the default stroke of
    width 1. *)
Definition stroked_square : FabricObject.t :=
  FabricObject.make 0 0 100 100 false false 1 1 0 0 CENTER CENTER 0 1 false
                    None None None.

(** The same square without a stroke. *)
Definition bare_square : FabricObject.t :=
  FabricObject.make 0 0 100 100 false false 1 1 0 0 CENTER CENTER 0 0 false
                    None None None.

(** The step of the [reduce] in [makeBoundingBoxFromPoints]. *)
Definition bbox_step (acc : Point * Point) (curr : Point) : Point * Point :=
  (Point.min (fst acc) curr, Point.max (snd acc) curr).

(** Three points given in two orders. *)
Definition sample_points : list Point :=
  [Point.new 1 2; Point.new 3 0; Point.new (-1) 5].

Definition sample_points_reordered : list Point :=
  [Point.new 3 0; Point.new 1 2; Point.new (-1) 5].

(** [_addPoint] turns the point away and leaves the brush as it was. *)
Definition rejects_duplicate (this : Brush.t) (point : Point) : Prop :=
  _addPoint this point = (false, this).

(** A brush with the given captured points and the defaults of
    [PencilBrush] ([decimate = 0.4], width 1). *)
Definition brush_with (points : list Point) : Brush.t :=
  Brush.make (4 / 10) false points false None 1 "rgb(0, 0, 0)" false 4 false
             false.

(** The session right after [_prepareForDrawing]: one captured point. *)
Definition one_point_brush : Brush.t := brush_with [Point.new 3 4].

(** A session with two captured points. *)
Definition two_point_brush : Brush.t :=
  brush_with [Point.new 0 0; Point.new 3 4].


(** Four points on a line, one unit apart. *)
Definition line_points : list Point :=
  [Point.new 0 0; Point.new 1 0; Point.new 2 0; Point.new 3 0].

(** Two object states that differ at most in their [dirty] flag. *)
Definition same_but_dirty (a b : ObjState) : Prop :=
  geometry a = geometry b /\ erasable a = erasable b /\
  visible a = visible b /\ eraser a = eraser b /\ clipPath a = clipPath b.

(** What holds while [preparePattern] walks the scene: against the store
    [s0] it started from, an object listed as hidden was visible, an object
    not listed has the visibility it had; a mask listed as detached is the
    mask its owner had and the owner has none now, an object without an
    entry has the mask it had; nothing else but [dirty] has changed. *)
Definition restorable (s0 s : Store) (rc : RestorationContext) : Prop :=
  forall j,
    geometry (s j) = geometry (s0 j) /\
    erasable (s j) = erasable (s0 j) /\
    clipPath (s j) = clipPath (s0 j) /\
    (In j (rc_visibility rc) -> visible (s0 j) = true) /\
    (~ In j (rc_visibility rc) -> visible (s j) = visible (s0 j)) /\
    (forall e, In (j, e) (rc_eraser rc) ->
               eraser (s0 j) = Some e /\ eraser (s j) = None) /\
    ((forall e, ~ In (j, e) (rc_eraser rc)) -> eraser (s j) = eraser (s0 j)).

(** Induction on a scene object with the hypothesis for every object of
    its [_objects]. *)
Fixpoint SceneObject_nested_ind
  (P : SceneObject -> Prop)
  (H : forall id kids,
      match kids with Some objs => Forall P objs | None => True end ->
      P (Obj id kids))
  (o : SceneObject) {struct o} : P o :=
  match o with
  | Obj id kids =>
      H id kids
        (match kids
               return match kids with
                      | Some objs => Forall P objs
                      | None => True
                      end
         with
         | Some objs =>
             (fix all (l : list SceneObject) : Forall P l :=
                match l with
                | [] => Forall_nil P
                | c :: l' =>
                    Forall_cons c (SceneObject_nested_ind P H c) (all l')
                end) objs
         | None => I
         end)
  end.


(** The mask of an object as a list of paths, empty when it has none. *)
Definition mask_paths (o : ObjState) : list Path :=
  match eraser o with Some e => eraser_objects e | None => [] end.


(** A scene: object 1 is an erasable square, object 2 a deep-erasable
    group of the erasable object 3 and the non-erasable object 4; every
    object is visible and object 3 already has an empty mask. *)
Definition sample_store : Store :=
  fun id =>
    mkObjState bare_square
      (match id with 2%nat => ErasableDeep | 4%nat => ErasableFalse
                | _ => ErasableTrue end)
      true false
      (match id with 3%nat => Some (mkEraser []) | _ => None end)
      None.

Definition sample_scene : list SceneObject :=
  [Obj 1%nat None; Obj 2%nat (Some [Obj 3%nat None; Obj 4%nat None])].

Definition sample_canvas : Canvas :=
  mkCanvas sample_scene None None None EmptyString EmptyString 1.

Definition sample_world : World := mkWorld sample_canvas sample_store [].

(** An erase path in canvas coordinates. *)
Definition sample_path : Path :=
  mkPath [CmdM 0 0; CmdL 10 10] (Mat 1 0 0 1 5 5) None "black" 10
         "destination-out".


Definition sample_joinPath (d : TSimplePathData) : string :=
  match d with [] => "M 0 0 Q 0 0 0 0 L 0 0" | _ => "M 1 1 L 2 2" end.


Definition sample_mergeClipPaths (a b : ClipPath) : ClipPath := a.


(** The store that a render call of the log read, if the call at position
    [n] is [_renderObjects]. *)
Definition rendered_store (l : list Event) (n : nat) : option Store :=
  match nth_error l n with
  | Some (EvRenderObjects _ s) => Some s
  | _ => None
  end.

(** ** More of util/misc/matrix.ts *)

(** [isIdentityMatrix]: every entry is the entry of [iMatrix]. *)
Definition isIdentityMatrix (mat : TMat2D) : bool :=
  Reqb (m0 mat) (m0 iMatrix) && Reqb (m1 mat) (m1 iMatrix) &&
  Reqb (m2 mat) (m2 iMatrix) && Reqb (m3 mat) (m3 iMatrix) &&
  Reqb (m4 mat) (m4 iMatrix) && Reqb (m5 mat) (m5 iMatrix).

(** The linear part [[a, b, c, d]] of a matrix. *)
Definition linear_part (t : TMat2D) : R * R * R * R :=
  (m0 t, m1 t, m2 t, m3 t).

(** A second invertible matrix, a rotation by 90 degrees with a
    translation. *)
Definition sample_matrix2 : TMat2D := Mat 0 1 (-1) 0 2 (-3).

(** ** More of ObjectOrigin.ts and ObjectGeometry.ts *)

(** [this.set({ left, top })]. *)
Definition set_position (o : FabricObject.t) (left top : R) : FabricObject.t :=
  FabricObject.make top left (FabricObject.width o) (FabricObject.height o)
    (FabricObject.flipX o) (FabricObject.flipY o)
    (FabricObject.scaleX o) (FabricObject.scaleY o)
    (FabricObject.skewX o) (FabricObject.skewY o)
    (FabricObject.originX o) (FabricObject.originY o)
    (FabricObject.angle o) (FabricObject.strokeWidth o)
    (FabricObject.strokeUniform o) (FabricObject.ownMatrixCache o)
    (FabricObject.matrixCache o) (FabricObject.group o).

(** [this.strokeUniform = v]. *)
Definition set_strokeUniform (o : FabricObject.t) (v : bool) : FabricObject.t :=
  FabricObject.make (FabricObject.top o) (FabricObject.left o)
    (FabricObject.width o) (FabricObject.height o)
    (FabricObject.flipX o) (FabricObject.flipY o)
    (FabricObject.scaleX o) (FabricObject.scaleY o)
    (FabricObject.skewX o) (FabricObject.skewY o)
    (FabricObject.originX o) (FabricObject.originY o)
    (FabricObject.angle o) (FabricObject.strokeWidth o)
    v (FabricObject.ownMatrixCache o)
    (FabricObject.matrixCache o) (FabricObject.group o).

Definition setPositionByOrigin
  (this : FabricObject.t) (pos : Point) (originX originY : TOrigin)
  : FabricObject.t :=
  let center := translateToCenterPoint this pos originX originY in
  let position :=
    translateToOriginPoint this center
      (FabricObject.originX this) (FabricObject.originY this) in
  set_position this (Point.x position) (Point.y position).

Definition _getNonTransformedDimensions (this : FabricObject.t) : Point :=
  Point.scalarAdd
    (Point.new (FabricObject.width this) (FabricObject.height this))
    (FabricObject.strokeWidth this).

(** [getCenterPoint]: the point and the object with the caches of its
    group filled. *)
Definition getCenterPoint (this : FabricObject.t) : Point * FabricObject.t :=
  let relCenter := getRelativeCenterPoint this in
  match FabricObject.group this with
  | Some g =>
      let '(t, g') := calcTransformMatrix false g in
      (transformPoint relCenter t false, FabricObject.set_group this (Some g'))
  | None => (relCenter, this)
  end.

(** [getTotalAngle]: the angle and the object with its caches filled. *)
Definition getTotalAngle (this : FabricObject.t) : R * FabricObject.t :=
  match FabricObject.group this with
  | Some _ =>
      let '(m, this1) := calcTransformMatrix false this in
      (Qr.angle (qrDecompose m), this1)
  | None => (FabricObject.angle this, this)
  end.

(** [calcLineCoords]; [padding] is [this.padding] and [viewportTransform]
    is [this.canvas?.viewportTransform], which [getViewportTransform]
    replaces by the identity matrix when it is missing. *)
Definition calcLineCoords
  (this : FabricObject.t) (padding : R) (viewportTransform : option TMat2D)
  : TCornerPoint * FabricObject.t :=
  let vpt := dflt viewportTransform iMatrix in
  let '(totalAngle, this1) := getTotalAngle this in
  let angle := degreesToRadians totalAngle in
  let cosP := fcos angle * padding in
  let sinP := fsin angle * padding in
  let cosPSinP := cosP + sinP in
  let cosPMinusSinP := cosP - sinP in
  let c := calcACoords this1 in
  let tl := transformPoint (Corners.tl c) vpt false in
  let tr := transformPoint (Corners.tr c) vpt false in
  let bl := transformPoint (Corners.bl c) vpt false in
  let br := transformPoint (Corners.br c) vpt false in
  if truthy padding then
    (Corners.make
       (Point.new (Point.x tl - cosPMinusSinP) (Point.y tl - cosPSinP))
       (Point.new (Point.x tr + cosPSinP) (Point.y tr - cosPMinusSinP))
       (Point.new (Point.x bl - cosPSinP) (Point.y bl + cosPMinusSinP))
       (Point.new (Point.x br + cosPMinusSinP) (Point.y br + cosPSinP)),
     this1)
  else (Corners.make tl tr bl br, this1).

(** An object as ObjectGeometry.ts sees it: the fields of the object
    that the matrices depend on, the coordinates stored on it in
    [aCoords] and [lineCoords], which are unset until [_getCoords] or
    [setCoords] fills them, its [padding], and the [viewportTransform] of
    its canvas if it has one. *)
Module ObjectGeometry.
Record t : Type := make {
  object : FabricObject.t;
  aCoords : option TCornerPoint;
  lineCoords : option TCornerPoint;
  padding : R;
  viewportTransform : option TMat2D
}.

Definition set_object (this : t) (o : FabricObject.t) : t :=
  make o (aCoords this) (lineCoords this) (padding this)
       (viewportTransform this).

Definition set_aCoords (this : t) (c : option TCornerPoint) : t :=
  make (object this) c (lineCoords this) (padding this)
       (viewportTransform this).

Definition set_lineCoords (this : t) (c : option TCornerPoint) : t :=
  make (object this) (aCoords this) c (padding this)
       (viewportTransform this).
End ObjectGeometry.

(** [this.calcLineCoords()] with the padding and the viewport of
    [this]: the corners and [this] with the caches of its object
    filled. *)
Definition line_coords (this : ObjectGeometry.t)
  : TCornerPoint * ObjectGeometry.t :=
  let '(l, o) :=
    calcLineCoords (ObjectGeometry.object this) (ObjectGeometry.padding this)
                   (ObjectGeometry.viewportTransform this) in
  (l, ObjectGeometry.set_object this o).

(** [_getCoords(absolute = false, calculate = false)]: calculated
    coordinates when [calculate] is set; else the stored ones, each of
    the two filled first if it is unset. *)
Definition _getCoords
  (this : ObjectGeometry.t) (absolute calculate : bool)
  : TCornerPoint * ObjectGeometry.t :=
  if calculate then
    if absolute then (calcACoords (ObjectGeometry.object this), this)
    else line_coords this
  else
    let '(a, this1) :=
      match ObjectGeometry.aCoords this with
      | Some a => (a, this)
      | None =>
          let a := calcACoords (ObjectGeometry.object this) in
          (a, ObjectGeometry.set_aCoords this (Some a))
      end in
    let '(l, this2) :=
      match ObjectGeometry.lineCoords this1 with
      | Some l => (l, this1)
      | None =>
          let '(l, this') := line_coords this1 in
          (l, ObjectGeometry.set_lineCoords this' (Some l))
      end in
    (if absolute then a else l, this2).

(** [getCoords(absolute = false, calculate = false)]: the corners of
    [_getCoords] in the order [tl, tr, br, bl], taken through the matrix
    of the group when there is one. *)
Definition getCoords
  (this : ObjectGeometry.t) (absolute calculate : bool)
  : list Point * ObjectGeometry.t :=
  let '(c, this1) := _getCoords this absolute calculate in
  let coords := [Corners.tl c; Corners.tr c; Corners.br c; Corners.bl c] in
  match FabricObject.group (ObjectGeometry.object this1) with
  | Some g =>
      let '(t, g') := calcTransformMatrix false g in
      (map (fun p => transformPoint p t false) coords,
       ObjectGeometry.set_object this1
         (FabricObject.set_group (ObjectGeometry.object this1) (Some g')))
  | None => (coords, this1)
  end.

(** [isContainedWithinRect(pointTL, pointBR, absolute, calculate)];
    [boundingRect] is [getBoundingRect(absolute, calculate)], the box of
    [makeBoundingBoxFromPoints] around [getCoords(absolute, calculate)].
    An argument left out is [undefined], for which the default [false] of
    [getCoords] stands. *)
Definition isContainedWithinRect
  (this : ObjectGeometry.t) (pointTL pointBR : Point)
  (absolute calculate : bool) : bool * ObjectGeometry.t :=
  let '(coords, this1) := getCoords this absolute calculate in
  let boundingRect := makeBoundingBoxFromPoints coords in
  (Rgeb (BBox.left boundingRect) (Point.x pointTL) &&
   Rgeb (Point.x pointBR) (BBox.left boundingRect + BBox.width boundingRect) &&
   Rgeb (BBox.top boundingRect) (Point.y pointTL) &&
   Rgeb (Point.y pointBR) (BBox.top boundingRect + BBox.height boundingRect),
   this1).

(** The opposite corners of [k] are symmetric about [m]. *)
Definition symmetric_about (k : TCornerPoint) (m : Point) : Prop :=
  Point.x (Corners.tl k) + Point.x (Corners.br k) = 2 * Point.x m /\
  Point.y (Corners.tl k) + Point.y (Corners.br k) = 2 * Point.y m /\
  Point.x (Corners.tr k) + Point.x (Corners.bl k) = 2 * Point.x m /\
  Point.y (Corners.tr k) + Point.y (Corners.bl k) = 2 * Point.y m.

(** [o1] has a group exactly when [o] has one, and the two groups answer
    [calcTransformMatrix] with the same matrix. *)
Definition same_group_matrix (o o1 : FabricObject.t) : Prop :=
  match FabricObject.group o with
  | Some g =>
      exists g1,
        FabricObject.group o1 = Some g1 /\
        fst (calcTransformMatrix false g1) = fst (calcTransformMatrix false g)
  | None => FabricObject.group o1 = None
  end.

(** The stroked square on a canvas that is zoomed by 2 and panned, with
    a padding of 3 and no coordinates stored yet. *)
Definition zoomed_square : ObjectGeometry.t :=
  ObjectGeometry.make stroked_square None None 3 (Some (Mat 2 0 0 2 10 20)).

(** The matrix that [calcOwnMatrix] computes when its cache does not
    answer. *)
Definition own_matrix (this : FabricObject.t) : TMat2D :=
  let center := getRelativeCenterPoint this in
  composeMatrix
    (Args.make (Some (Point.x center)) (Some (Point.y center))
               (Some (FabricObject.angle this))
               (Some (FabricObject.scaleX this))
               (Some (FabricObject.scaleY this))
               (Some (FabricObject.flipX this))
               (Some (FabricObject.flipY this))
               (Some (FabricObject.skewX this))
               (Some (FabricObject.skewY this))).

(** The product of the own matrices from the outermost group down to the
    object. *)
Fixpoint chain_matrix (this : FabricObject.t) : TMat2D :=
  match FabricObject.group this with
  | Some g =>
      multiplyTransformMatrices (chain_matrix g) (own_matrix this) false
  | None => own_matrix this
  end.

(** The caches of an object and of its ancestors answer, when their key
    matches, with the matrix that would be computed. *)
Fixpoint coherent (this : FabricObject.t) : Prop :=
  match FabricObject.ownMatrixCache this with
  | Some c =>
      key_eqb (cache_key c) (transformMatrixKey true this) = true ->
      cache_value c = own_matrix this
  | None => True
  end /\
  match FabricObject.group this with
  | Some g =>
      match FabricObject.matrixCache this with
      | Some c =>
          key_eqb (cache_key c) (transformMatrixKey false this) = true ->
          cache_value c = chain_matrix this
      | None => True
      end /\ coherent g
  | None => True
  end.

(** No cache is filled, in the object or in its ancestors. *)
Fixpoint cold (this : FabricObject.t) : Prop :=
  FabricObject.ownMatrixCache this = None /\
  FabricObject.matrixCache this = None /\
  match FabricObject.group this with
  | Some g => cold g
  | None => True
  end.

(** Induction along the chain of groups of an object. *)
Fixpoint FabricObject_chain_ind
  (P : FabricObject.t -> Prop)
  (H : forall o,
      match FabricObject.group o with Some g => P g | None => True end -> P o)
  (o : FabricObject.t) {struct o} : P o :=
  match o as o0
        return (match FabricObject.group o0 with
                | Some g => P g
                | None => True
                end -> P o0) -> P o0
  with
  | FabricObject.make _ _ _ _ _ _ _ _ _ _ _ _ _ _ _ _ _ g =>
      fun k =>
        k (match g with
           | Some g' => FabricObject_chain_ind P H g'
           | None => I
           end)
  end (H o).

(** A rotated, scaled rectangle anchored at its top-left corner, with a
    stroke, inside a scaled and translated group. *)
Definition sample_group : FabricObject.t :=
  FabricObject.make 10 20 200 100 false false 2 2 0 0 CENTER CENTER 0 0 false
                    None None None.

Definition sample_child : FabricObject.t :=
  FabricObject.make 5 7 40 30 false false 3 2 0 0 LEFT TOP 90 2 false
                    None None (Some sample_group).

(** A rectangle anchored at its top-left corner with a stroke and a
    horizontal scale of 2. *)
Definition scaled_stroked : FabricObject.t :=
  FabricObject.make 0 0 100 50 false false 2 1 0 0 LEFT TOP 0 4 false
                    None None None.

(** ** More of brushes/PencilBrush.ts *)

(** [needsFullRender]; [superNeedsFullRender] is the answer of
    [BaseBrush.needsFullRender], which is not part of the sources. *)
Definition needsFullRender (this : Brush.t) (superNeedsFullRender : bool)
  : bool :=
  superNeedsFullRender || Brush._hasStraightLine this.

(** What the incremental branch of [onMouseMove] draws on the top context:
    a curve from [seg_from], when there is an [oldEnd] to start from, with
    the control point [seg_control] to the end point [seg_to]. *)
Record Segment : Type := mkSegment {
  seg_from : option Point;
  seg_control : Point;
  seg_to : Point
}.

(** [drawSegment(ctx, p1, p2)]: the curve drawn and the midpoint
    returned. *)
Definition drawSegment (from : option Point) (p1 p2 : Point)
  : Segment * Point :=
  let midPoint := Point.midPointFrom p1 p2 in
  (mkSegment from p1 midPoint, midPoint).

(** [onMouseMove]; [isMainEvent] and [modifier] are as for [onMouseDown],
    [outside] is [this.limitedToCanvasSize === true &&
    this._isOutSideCanvas(pointer)] and [superNeedsFullRender] is as for
    [needsFullRender].  The result holds the segment drawn by the
    incremental branch, if it ran; reading [points[length - 2]] past the
    array gives [None] for the whole call. *)
Definition onMouseMove
  (this : Brush.t) (pointer : Point)
  (isMainEvent modifier outside superNeedsFullRender : bool) (w : World)
  : option (Brush.t * World * option Segment) :=
  if negb isMainEvent then Some (this, w, None)
  else
    let this1 := Brush.set_drawStraightLine this modifier in
    if outside then Some (this1, w, None)
    else
      let '(added, this2) := _addPoint this1 pointer in
      if added && (1 <? List.length (Brush._points this2))%nat then
        if needsFullRender this2 superNeedsFullRender then
          Some (this2, emit (emit w EvClearContextTop) EvRender, None)
        else
          let points := Brush._points this2 in
          let length := List.length points in
          match nth_error points (length - 2), nth_error points (length - 1) with
          | Some p1, Some p2 =>
              let '(segment, midPoint) :=
                drawSegment (Brush.oldEnd this2) p1 p2 in
              Some (Brush.set_oldEnd this2 (Some midPoint), w, Some segment)
          | _, _ => None
          end
      else Some (this2, w, None).

(** [kept] is [l] with some elements left out. *)
Inductive Subseq {A : Type} : list A -> list A -> Prop :=
| Subseq_nil : Subseq [] []
| Subseq_skip (x : A) (kept l : list A) : Subseq kept l -> Subseq kept (x :: l)
| Subseq_take (x : A) (kept l : list A) :
    Subseq kept l -> Subseq (x :: kept) (x :: l).

(** The squared distance that [decimatePoints] compares. *)
Definition squared_distance (p q : Point) : R :=
  pow2 (Point.x p - Point.x q) + pow2 (Point.y p - Point.y q).

(** Each point of the list is at squared distance [adj] or more from the
    point before it. *)
Fixpoint spaced (adj : R) (l : list Point) : Prop :=
  match l with
  | p :: ((q :: _) as rest) => adj <= squared_distance p q /\ spaced adj rest
  | _ => True
  end.

(** What the loop of [decimatePoints] keeps of the points [l] it visits,
    [lastPoint] being the last point kept so far. *)
Fixpoint thin (adj : R) (lastPoint : Point) (l : list Point) : list Point :=
  match l with
  | [] => []
  | p :: rest =>
      if Rgeb (squared_distance lastPoint p) adj
      then p :: thin adj p rest
      else thin adj lastPoint rest
  end.

(** ** More of mixins/eraser_brush.mixin.ts *)

(** The event is [erasing:end] fired on an object. *)
Definition fires_erasing_end (e : Event) : Prop :=
  match e with
  | EvObjectFire _ name _ => name = "erasing:end"%string
  | _ => False
  end.

(** [w'] differs from [w] by attached erase paths only: the canvas is the
    same; the log has gained [erasing:end] events of objects and nothing
    else; every object has the [erasable], [visible] and [clipPath] it
    had and the same matrix down from its outermost group, and its mask
    has the paths it had, in their order, with paths added after them. *)
Definition only_masks_grow (w w' : World) : Prop :=
  canvas w' = canvas w /\
  (exists events,
     log w' = log w ++ events /\ Forall fires_erasing_end events) /\
  forall j,
    erasable (store w' j) = erasable (store w j) /\
    visible (store w' j) = visible (store w j) /\
    clipPath (store w' j) = clipPath (store w j) /\
    chain_matrix (geometry (store w' j)) =
      chain_matrix (geometry (store w j)) /\
    (exists paths,
       mask_paths (store w' j) = mask_paths (store w j) ++ paths) /\
    (eraser (store w j) <> None -> eraser (store w' j) <> None).

(** The sample scene over a background that is a deep-erasable group of
    the non-erasable object 4 alone. *)
Definition deep_background_world : World :=
  mkWorld
    (mkCanvas sample_scene None (Some (Obj 2%nat (Some [Obj 4%nat None])))
              None EmptyString EmptyString 1)
    sample_store [].

(** A clip path placed in the plane of its owner. *)
Definition sample_clip : ClipPath := mkClipPath (Mat 1 0 0 1 2 3) false false.

(** * Properties *)

(** *** Matrix algebra *)

Lemma truthy_0 : truthy 0 = false.
Proof. unfold truthy. destruct (Req_dec_T 0 0); [reflexivity | contradiction]. Qed.

Lemma truthy_neq (v : R) : v <> 0 -> truthy v = true.
Proof. intro H. unfold truthy. destruct (Req_dec_T v 0); [contradiction | reflexivity]. Qed.

Lemma or_else_0 (v : R) : or_else v 0 = v.
Proof. unfold or_else, truthy. destruct (Req_dec_T v 0); congruence. Qed.

Lemma atan2_pos (y x : R) : 0 < x -> atan2 y x = atan (y / x).
Proof. intro H. unfold atan2. destruct (Rlt_dec 0 x); [reflexivity | contradiction]. Qed.

Lemma rad_deg (r : R) : degreesToRadians (radiansToDegrees r) = r.
Proof. unfold degreesToRadians, radiansToDegrees. field. apply PI_neq0. Qed.

Lemma deg_rad (d : R) : radiansToDegrees (degreesToRadians d) = d.
Proof. unfold degreesToRadians, radiansToDegrees. field. apply PI_neq0. Qed.

(** [atan2] gives back the angle of a point in polar coordinates. *)
Lemma atan2_polar (r th : R) :
  0 < r -> - PI < th <= PI -> atan2 (r * sin th) (r * cos th) = th.
Proof.
  intros Hr [Hlo Hhi].
  assert (HPI := PI_RGT_0).
  assert (Hq : forall c, c <> 0 -> r * sin th / (r * c) = sin th / c)
    by (intros c Hc; field; split; lra).
  destruct (Rtotal_order th (- (PI / 2))) as [H1 | [H1 | H1]].
  - (* th in (-PI, -PI/2): third quadrant *)
    assert (Hc : cos th < 0).
    { rewrite <- cos_neg. apply cos_lt_0; lra. }
    assert (Hs : sin th < 0) by (apply sin_lt_0_var; lra).
    unfold atan2.
    destruct (Rlt_dec 0 (r * cos th)) as [H | _]; [nra |].
    destruct (Rlt_dec (r * cos th) 0) as [_ | H]; [| nra].
    destruct (Rle_dec 0 (r * sin th)) as [H | _]; [nra |].
    rewrite Hq by lra.
    replace (sin th / cos th) with (tan (th + PI)).
    + rewrite atan_tan by lra. lra.
    + unfold tan. rewrite neg_sin, neg_cos. field. lra.
  - subst th. rewrite sin_neg, cos_neg, sin_PI2, cos_PI2.
    unfold atan2.
    destruct (Rlt_dec 0 (r * 0)) as [H | _]; [lra |].
    destruct (Rlt_dec (r * 0) 0) as [H | _]; [lra |].
    destruct (Rlt_dec 0 (r * - (1))) as [H | _]; [lra |].
    destruct (Rlt_dec (r * - (1)) 0) as [_ | H]; [reflexivity | lra].
  - destruct (Rtotal_order th (PI / 2)) as [H2 | [H2 | H2]].
    + assert (Hc : 0 < cos th) by (apply cos_gt_0; lra).
      rewrite atan2_pos by nra.
      rewrite Hq by lra. fold (tan th). apply atan_tan. lra.
    + subst th. rewrite sin_PI2, cos_PI2.
      unfold atan2.
      destruct (Rlt_dec 0 (r * 0)) as [H | _]; [lra |].
      destruct (Rlt_dec (r * 0) 0) as [H | _]; [lra |].
      destruct (Rlt_dec 0 (r * 1)) as [_ | H]; [reflexivity | lra].
    + assert (Hc : cos th < 0) by (apply cos_lt_0; lra).
      assert (Hs : 0 <= sin th) by (apply sin_ge_0; lra).
      unfold atan2.
      destruct (Rlt_dec 0 (r * cos th)) as [H | _]; [nra |].
      destruct (Rlt_dec (r * cos th) 0) as [_ | H]; [| nra].
      destruct (Rle_dec 0 (r * sin th)) as [_ | H]; [| nra].
      rewrite Hq by lra.
      replace (sin th / cos th) with (tan (th - PI)).
      * rewrite atan_tan by lra. lra.
      * unfold tan. 
        replace (th - PI) with (- (PI - th)) by lra.
        rewrite sin_neg, cos_neg.
        rewrite Rtrigo_facts.sin_pi_minus, Rtrigo_facts.cos_pi_minus. field. lra.
Qed.

Lemma and_then_0 {A : Type} (e : A) : and_then 0 e = None.
Proof. unfold and_then. now rewrite truthy_0. Qed.

Lemma and_then_neq {A : Type} (v : R) (e : A) : v <> 0 -> and_then v e = Some e.
Proof. intro H. unfold and_then. now rewrite truthy_neq. Qed.

Lemma angleToSkew_0 : angleToSkew 0 = 0.
Proof. unfold angleToSkew, degreesToRadians. rewrite Rmult_0_l. apply tan_0. Qed.

(** The dimensions matrix in closed form: a skipped skew matrix is the
    identity, since the tangent of 0 is 0. *)
Lemma calcDimensionsMatrix_closed (o : Args.t) :
  let sx := signed (dflt (Args.flipX o) false) (dflt (Args.scaleX o) 1) in
  let sy := signed (dflt (Args.flipY o) false) (dflt (Args.scaleY o) 1) in
  let tx := angleToSkew (dflt (Args.skewX o) 0) in
  let ty := angleToSkew (dflt (Args.skewY o) 0) in
  calcDimensionsMatrix o = Mat (sx * (1 + tx * ty)) (sy * ty) (sx * tx) sy 0 0.
Proof.
  intros sx sy tx ty. unfold calcDimensionsMatrix.
  fold sx sy. unfold signed in sx, sy. 
  destruct (Req_dec_T (dflt (Args.skewX o) 0) 0) as [Hx | Hx];
  destruct (Req_dec_T (dflt (Args.skewY o) 0) 0) as [Hy | Hy].
  all: subst tx ty.
  all: try (rewrite Hx; rewrite (and_then_0 (createSkewXMatrix 0)); rewrite angleToSkew_0).
  all: try (rewrite Hy; rewrite (and_then_0 (createSkewYMatrix 0)); rewrite angleToSkew_0).
  all: try (rewrite (and_then_neq _ _ Hx)).
  all: try (rewrite (and_then_neq _ _ Hy)).
  all: unfold multiplyTransformMatrixArray, multiplyTransformMatrices,
         createScaleMatrix, createSkewXMatrix, createSkewYMatrix, iMatrix; simpl.
  all: fold sx sy; f_equal; ring.
Qed.

(** [composeMatrix] in closed form: the rotation applied to the dimensions
    matrix, then the translation. *)
Lemma composeMatrix_closed (o : Args.t) :
  let th := degreesToRadians (dflt (Args.angle o) 0) in
  let d := calcDimensionsMatrix o in
  composeMatrix o =
    Mat (cos th * m0 d - sin th * m1 d) (sin th * m0 d + cos th * m1 d)
        (cos th * m2 d - sin th * m3 d) (sin th * m2 d + cos th * m3 d)
        (dflt (Args.translateX o) 0) (dflt (Args.translateY o) 0).
Proof.
  intros th d. unfold composeMatrix. fold d.
  assert (Hd : m4 d = 0 /\ m5 d = 0).
  { subst d. rewrite calcDimensionsMatrix_closed. simpl. auto. }
  destruct Hd as [Hd4 Hd5]. clearbody d.
  destruct d as [d0 d1 d2 d3 d4 d5]; simpl in Hd4, Hd5; subst d4 d5; simpl.
  destruct (Req_dec_T (dflt (Args.angle o) 0) 0) as [Ha | Ha].
  - subst th. rewrite Ha. rewrite and_then_0.
    unfold degreesToRadians. rewrite Rmult_0_l, cos_0, sin_0.
    unfold multiplyTransformMatrixArray, multiplyTransformMatrices,
      createTranslateMatrix, iMatrix; simpl.
    f_equal; ring.
  - rewrite (and_then_neq _ _ Ha).
    unfold multiplyTransformMatrixArray, multiplyTransformMatrices,
      createTranslateMatrix, createRotateMatrix, fcos, fsin, iMatrix; simpl.
    rewrite truthy_0. fold th.
    f_equal; ring.
Qed.

Lemma sqrt_unique (v s : R) : 0 <= s -> s * s = v -> sqrt v = s.
Proof. intros Hs Hv. subst v. apply sqrt_square. exact Hs. Qed.

Lemma norm_pos (a b : R) : a <> 0 \/ b <> 0 -> 0 < sqrt (pow2 a + pow2 b).
Proof. intro H. apply sqrt_lt_R0. unfold pow2. destruct H; nra. Qed.

Lemma norm_sqr (a b : R) :
  sqrt (pow2 a + pow2 b) * sqrt (pow2 a + pow2 b) = pow2 a + pow2 b.
Proof. apply sqrt_sqrt. unfold pow2. nra. Qed.

(** The norm of [(1, y/x)] from the norm of [(x, y)]. *)
Lemma sqrt_ratio (y x : R) :
  x <> 0 -> sqrt (1 + (y / x)²) = sqrt (pow2 x + pow2 y) / Rabs x.
Proof.
  intro Hx.
  assert (Hn := norm_pos x y (or_introl Hx)).
  assert (Hq := norm_sqr x y).
  assert (Ha : 0 < Rabs x) by (apply Rabs_pos_lt; exact Hx).
  assert (Haa : Rabs x * Rabs x = x * x).
  { unfold Rabs. destruct (Rcase_abs x); ring. }
  apply sqrt_unique.
  - apply Rlt_le. apply Rdiv_lt_0_compat; assumption.
  - unfold Rsqr. 
    replace (sqrt (pow2 x + pow2 y) / Rabs x * (sqrt (pow2 x + pow2 y) / Rabs x))
      with ((sqrt (pow2 x + pow2 y) * sqrt (pow2 x + pow2 y)) / (Rabs x * Rabs x))
      by (field; lra).
    rewrite Hq, Haa. unfold pow2. field. exact Hx.
Qed.

(** The cosine and sine of [atan2 b a] are [a] and [b] over the norm. *)
Lemma cos_sin_atan2 (b a : R) :
  a <> 0 \/ b <> 0 ->
  cos (atan2 b a) = a / sqrt (pow2 a + pow2 b) /\
  sin (atan2 b a) = b / sqrt (pow2 a + pow2 b).
Proof.
  intro Hab.
  assert (Hn := norm_pos a b Hab).
  unfold atan2.
  destruct (Rlt_dec 0 a) as [Hpos | Hnpos].
  - rewrite cos_atan, sin_atan, sqrt_ratio by lra.
    rewrite Rabs_pos_eq by lra. split; field; lra.
  - destruct (Rlt_dec a 0) as [Hneg | Hnneg].
    + destruct (Rle_dec 0 b) as [Hb | Hb].
      * rewrite neg_cos, neg_sin, cos_atan, sin_atan, sqrt_ratio by lra.
        rewrite Rabs_left by lra. split; field; lra.
      * replace (atan (b / a) - PI) with (- (PI - atan (b / a))) by ring.
        rewrite cos_neg, sin_neg, Rtrigo_facts.cos_pi_minus,
          Rtrigo_facts.sin_pi_minus, cos_atan, sin_atan, sqrt_ratio by lra.
        rewrite Rabs_left by lra. split; field; lra.
    + assert (Ha : a = 0) by lra. subst a.
      assert (Hb : b <> 0) by (destruct Hab; [lra | assumption]).
      assert (Hs : forall s, 0 <= s -> s * s = b * b -> sqrt (pow2 0 + pow2 b) = s).
      { intros s Hs Hss. apply sqrt_unique; [exact Hs |]. unfold pow2. lra. }
      destruct (Rlt_dec 0 b) as [Hbp | Hbnp].
      * rewrite cos_PI2, sin_PI2, (Hs b) by lra. split; field; lra.
      * destruct (Rlt_dec b 0) as [Hbn | Hbnn]; [| lra].
        rewrite cos_neg, sin_neg, cos_PI2, sin_PI2, (Hs (- b)) by lra.
        split; field; lra.
Qed.

(** Recomposing the decomposition of an invertible matrix gives the
    matrix. *)
Lemma compose_decompose (M : TMat2D) :
  m0 M * m3 M - m1 M * m2 M <> 0 ->
  composeMatrix (args_of_qr (qrDecompose M)) = M.
Proof.
  destruct M as [a b c d e f]; simpl; intro Hdet.
  assert (Hab : a <> 0 \/ b <> 0).
  { destruct (Req_dec_T a 0) as [Ha | Ha]; [| now left].
    right. intro Hb. apply Hdet. subst. ring. }
  assert (Hn := norm_pos a b Hab).
  assert (Hq := norm_sqr a b).
  destruct (cos_sin_atan2 b a Hab) as [Hc Hs].
  rewrite composeMatrix_closed, calcDimensionsMatrix_closed.
  unfold args_of_qr, qrDecompose; simpl.
  rewrite !or_else_0, angleToSkew_0.
  unfold angleToSkew. rewrite !rad_deg, Hc, Hs.
  rewrite atan2_pos by (unfold pow2 in *; nra).
  rewrite tan_atan.
  set (s := sqrt (pow2 a + pow2 b)) in *.
  assert (Hden : pow2 a + pow2 b <> 0) by (rewrite <- Hq; nra).
  clearbody s. rewrite <- Hq.
  assert (Hss : s * s <> 0) by nra.
  f_equal.
  - field. lra.
  - field. lra.
  - replace (a / s * (s * ((a * c + b * d) / (s * s))) - b / s * ((a * d - c * b) / s))
      with ((a * (a * c + b * d) - b * (a * d - c * b)) / (s * s)) by (field; lra).
    rewrite Hq. unfold pow2 in *. field. lra.
  - replace (b / s * (s * ((a * c + b * d) / (s * s))) + a / s * ((a * d - c * b) / s))
      with ((b * (a * c + b * d) + a * (a * d - c * b)) / (s * s)) by (field; lra).
    rewrite Hq. unfold pow2 in *. field. lra.
Qed.

(** Decomposing the composition of components in range gives the
    components. *)
Lemma decompose_compose (C : Qr.t) :
  0 < Qr.scaleX C -> Qr.skewY C = 0 ->
  -180 < Qr.angle C <= 180 -> -90 < Qr.skewX C < 90 ->
  qrDecompose (composeMatrix (args_of_qr C)) = C.
Proof.
  destruct C as [an sx sy kx ky tx ty]; simpl.
  intros Hsx Hky [Ha1 Ha2] [Hk1 Hk2]. subst ky.
  assert (HPI := PI_RGT_0).
  rewrite composeMatrix_closed, calcDimensionsMatrix_closed.
  unfold args_of_qr, qrDecompose; simpl.
  rewrite angleToSkew_0, !or_else_0.
  set (th := degreesToRadians an).
  set (t := angleToSkew kx).
  assert (Hth : - PI < th <= PI).
  { unfold th, degreesToRadians. split; nra. }
  assert (Hcs : cos th * cos th + sin th * sin th = 1).
  { generalize (sin2_cos2 th). unfold Rsqr. lra. }
  replace (cos th * (sx * (1 + t * 0)) - sin th * (sy * 0)) with (sx * cos th) by ring.
  replace (sin th * (sx * (1 + t * 0)) + cos th * (sy * 0)) with (sx * sin th) by ring.
  assert (Hden : pow2 (sx * cos th) + pow2 (sx * sin th) = sx * sx).
  { unfold pow2. 
    replace (sx * cos th * (sx * cos th) + sx * sin th * (sx * sin th))
      with (sx * sx * (cos th * cos th + sin th * sin th)) by ring.
    rewrite Hcs. ring. }
  rewrite Hden, sqrt_square by lra.
  rewrite atan2_polar by assumption.
  rewrite atan2_pos by nra.
  replace ((sx * cos th * (cos th * (sx * t) - sin th * sy) +
            sx * sin th * (sin th * (sx * t) + cos th * sy)) / (sx * sx))
    with ((cos th * cos th + sin th * sin th) * t) by (field; lra).
  rewrite Hcs, Rmult_1_l.
  unfold t, angleToSkew. rewrite atan_tan.
  2:{ unfold degreesToRadians. split; nra. }
  unfold th. rewrite !deg_rad.
  f_equal. fold th.
  replace (sx * cos th * (sin th * (sx * tan (degreesToRadians kx)) + cos th * sy) -
           (cos th * (sx * tan (degreesToRadians kx)) - sin th * sy) * (sx * sin th))
    with (sx * sy * (cos th * cos th + sin th * sin th)) by ring.
  rewrite Hcs. field. lra.
Qed.

(** [qrDecompose] puts no skew on the y axis. *)
Lemma skewY_zero (M : TMat2D) : Qr.skewY (qrDecompose M) = 0.
Proof. reflexivity. Qed.

(** The decomposition of the mirrored components has a positive scale. *)
Lemma mirrored_decompose :
  Qr.scaleX (qrDecompose (composeMatrix (args_of_qr mirrored_components))) = 1.
Proof.
  rewrite composeMatrix_closed, calcDimensionsMatrix_closed.
  unfold args_of_qr, qrDecompose, mirrored_components; simpl.
  rewrite angleToSkew_0.
  unfold degreesToRadians. rewrite Rmult_0_l, cos_0, sin_0.
  apply sqrt_unique; [lra | unfold pow2; ring].
Qed.

Lemma approx_refl (tol v : R) : 0 <= tol -> approx tol v v.
Proof.
  intro H. unfold approx. rewrite Rminus_diag, Rabs_R0. exact H.
Qed.

(** C1, the claim as stated fails: the components with [scaleX = -1]
    compose to the matrix [[-1, 0, 0, 1, 0, 0]], whose decomposition has
    [scaleX = 1] (and [angle = 180], [scaleY = -1]), at distance 2 from
    the [scaleX] that was composed. *)
Lemma qrDecompose_roundtrip_negative_scale :
  ~ roundtrip_recovers tolerance mirrored_components.
Proof.
  unfold roundtrip_recovers. intros [H _].
  rewrite mirrored_decompose in H. unfold approx, tolerance in H. simpl in H.
  replace (1 - -1) with 2 in H by ring.
  rewrite Rabs_pos_eq in H by lra. lra.
Qed.

(** C1 (amended): in exact arithmetic, components [C] with [scaleX > 0],
    [skewY = 0], [angle] in (-180, 180] and [skewX] in (-90, 90) are given
    back unchanged by [qrDecompose (composeMatrix C)]; the [skewY] that
    [qrDecompose] returns is 0 for every matrix; and
    [composeMatrix (qrDecompose M)] is [M] for every matrix [M] with a
    nonzero determinant. *)
Theorem qrDecompose_roundtrip (C : Qr.t) (M : TMat2D) :
  (0 < Qr.scaleX C -> Qr.skewY C = 0 ->
   -180 < Qr.angle C <= 180 -> -90 < Qr.skewX C < 90 ->
   qrDecompose (composeMatrix (args_of_qr C)) = C) /\
  Qr.skewY (qrDecompose M) = 0 /\
  (det M <> 0 -> composeMatrix (args_of_qr (qrDecompose M)) = M).
Proof.
  split; [| split].
  - apply decompose_compose.
  - apply skewY_zero.
  - apply compose_decompose.
Qed.

(** The round trip on the sample components and the sample matrix. *)
Lemma qrDecompose_roundtrip_witness :
  qrDecompose (composeMatrix (args_of_qr sample_components)) = sample_components /\
  composeMatrix (args_of_qr (qrDecompose sample_matrix)) = sample_matrix.
Proof.
  destruct (qrDecompose_roundtrip sample_components sample_matrix)
    as [Hc [_ Hm]].
  split.
  - apply Hc; simpl; lra.
  - apply Hm. unfold det; simpl. lra.
Defined.

(** C2: for a matrix with a nonzero determinant, the product with its
    inverse is the identity matrix and inverting twice gives the matrix
    back; in exact arithmetic both hold with equality. *)
Theorem invertTransform_inverse (M : TMat2D) :
  det M <> 0 ->
  multiplyTransformMatrices M (invertTransform M) false = iMatrix /\
  invertTransform (invertTransform M) = M.
Proof.
  destruct M as [a b c d e f]; unfold det; simpl; intro Hdet.
  unfold multiplyTransformMatrices, invertTransform, iMatrix, Point_transform;
    simpl.
  split; f_equal; field; try assumption.
  all: try (split; [try assumption|]).
  all: try assumption.
Qed.

(** The inverse of the sample matrix. *)
Lemma invertTransform_inverse_witness :
  multiplyTransformMatrices sample_matrix (invertTransform sample_matrix) false
    = iMatrix /\
  invertTransform (invertTransform sample_matrix) = sample_matrix.
Proof.
  apply (invertTransform_inverse sample_matrix). unfold det; simpl. lra.
Defined.

Lemma degreesToRadians_90 : degreesToRadians 90 = PI / 2.
Proof. unfold degreesToRadians. field. Qed.

(** When both coordinates of the pivot are nonzero the rotation matrix
    leaves the pivot where it is, as the matrix documented above
    [createRotateMatrix] does. *)
Lemma createRotateMatrix_fixes_pivot (angle x y : R) :
  x <> 0 -> y <> 0 ->
  transformPoint (Point.new x y)
    (createRotateMatrix (Some angle) (Some x) (Some y)) false = Point.new x y.
Proof.
  intros Hx Hy.
  unfold transformPoint, Point_transform, createRotateMatrix; simpl.
  rewrite (truthy_neq x Hx), (truthy_neq y Hy).
  f_equal; ring.
Qed.

(** C3, the code at the failing input: the matrix for a rotation by 90
    degrees about the pivot (0, 1) sends the pivot to (-1, 1); its
    translation is (0, 1) where the documented matrix has (1, 1). *)
Theorem createRotateMatrix_pivot_on_axis :
  transformPoint (Point.new 0 1)
    (createRotateMatrix (Some 90) (Some 0) (Some 1)) false = Point.new (-1) 1 /\
  createRotateMatrix (Some 90) (Some 0) (Some 1) = Mat 0 1 (-1) 0 0 1.
Proof.
  unfold transformPoint, Point_transform, createRotateMatrix, fcos, fsin; simpl.
  rewrite truthy_0, (truthy_neq 1) by lra.
  rewrite degreesToRadians_90, cos_PI2, sin_PI2. simpl.
  split; f_equal; ring.
Qed.

(** *** Object corners *)

Lemma Reqb_refl (v : R) : Reqb v v = true.
Proof. unfold Reqb. destruct (Req_dec_T v v); [reflexivity | contradiction]. Qed.

Lemma Reqb_neq (u v : R) : u <> v -> Reqb u v = false.
Proof. intro H. unfold Reqb. destruct (Req_dec_T u v); [contradiction | reflexivity]. Qed.

Lemma degreesToRadians_0 : degreesToRadians 0 = 0.
Proof. unfold degreesToRadians. ring. Qed.

(** Without skew and scale the transformed dimensions are the size plus the
    stroke width, whether the stroke is uniform or not. *)
Lemma _getTransformedDimensions_plain (o : FabricObject.t) :
  plain_object o ->
  _getTransformedDimensions o DimOptions.empty =
    Point.new (FabricObject.width o + FabricObject.strokeWidth o)
              (FabricObject.height o + FabricObject.strokeWidth o).
Proof.
  intros (_ & Hkx & Hky & Hsx & Hsy).
  unfold _getTransformedDimensions; simpl.
  rewrite Hkx, Hky, Hsx, Hsy, Reqb_refl; simpl.
  unfold Point.scalarAdd; simpl.
  destruct (FabricObject.strokeUniform o); f_equal; ring.
Qed.

(** The corners of an object that is not rotated, skewed or scaled, around
    its center, for the size [W] by [H] of its transformed dimensions. *)
Lemma calcACoords_plain (o : FabricObject.t) :
  plain_object o ->
  calcACoords o =
    corners_of_size o (FabricObject.width o + FabricObject.strokeWidth o)
                      (FabricObject.height o + FabricObject.strokeWidth o).
Proof.
  intro Hplain.
  unfold calcACoords, corners_of_size.
  rewrite (_getTransformedDimensions_plain o Hplain).
  destruct Hplain as (Ha & _). rewrite Ha.
  set (c := getRelativeCenterPoint o).
  unfold createRotateMatrix, fcos, fsin, createTranslateMatrix,
    multiplyTransformMatrices, transformPoint, Point_transform; simpl.
  rewrite degreesToRadians_0, cos_0, sin_0, truthy_0; simpl.
  f_equal; f_equal; field.
Qed.

(** C4, the claim as stated fails: a 100 by 100 square with stroke width 1
    that is not rotated, skewed or scaled has its center at (0, 0) and its
    top-left corner at (-50.5, -50.5), not at (-50, -50). *)
Lemma calcACoords_stroke_counterexample :
  plain_object stroked_square /\
  calcACoords stroked_square <>
    corners_of_size stroked_square (FabricObject.width stroked_square)
                                   (FabricObject.height stroked_square).
Proof.
  assert (Hp : plain_object stroked_square)
    by (unfold plain_object; simpl; repeat split; reflexivity).
  split; [exact Hp |].
  rewrite (calcACoords_plain _ Hp).
  unfold corners_of_size; simpl. intro H.
  apply (f_equal Corners.tl) in H. apply (f_equal Point.x) in H.
  simpl in H. lra.
Qed.

(** C4 (amended): for an object with angle 0, no skew and scale 1, of
    width [W], height [H], stroke width [s] and center (cx, cy),
    [calcACoords] returns exactly the corners (cx -+ (W+s)/2, cy -+ (H+s)/2),
    which are the corners of the claim when the stroke width is 0. *)
Theorem calcACoords_unrotated (o : FabricObject.t) :
  plain_object o ->
  calcACoords o =
    corners_of_size o (FabricObject.width o + FabricObject.strokeWidth o)
                      (FabricObject.height o + FabricObject.strokeWidth o) /\
  (FabricObject.strokeWidth o = 0 ->
   calcACoords o =
     corners_of_size o (FabricObject.width o) (FabricObject.height o)).
Proof.
  intro Hplain. split.
  - apply calcACoords_plain. exact Hplain.
  - intro Hs. rewrite (calcACoords_plain o Hplain), Hs, !Rplus_0_r.
    reflexivity.
Qed.

(** The corners of the square without a stroke. *)
Lemma calcACoords_unrotated_witness :
  calcACoords bare_square = corners_of_size bare_square (100 + 0) (100 + 0) /\
  calcACoords bare_square = corners_of_size bare_square 100 100.
Proof.
  assert (Hp : plain_object bare_square)
    by (unfold plain_object; simpl; repeat split; reflexivity).
  destruct (calcACoords_unrotated bare_square Hp) as [H1 H2].
  split; [exact H1 | apply H2; reflexivity].
Defined.

(** *** Bounding box *)

(** A fold of [Rmin] is below its start and every element, and is one of
    them; dually for [Rmax]. *)
Lemma fold_Rmin_le_init (l : list R) (a : R) : fold_left Rmin l a <= a.
Proof.
  revert a. induction l as [| v l IH]; intro a; simpl.
  - apply Rle_refl.
  - eapply Rle_trans; [apply IH | apply Rmin_l].
Qed.

Lemma fold_Rmin_le (l : list R) (a v : R) :
  In v l -> fold_left Rmin l a <= v.
Proof.
  revert a. induction l as [| u l IH]; intros a Hin; simpl in *.
  - contradiction.
  - destruct Hin as [-> | Hin].
    + eapply Rle_trans; [apply fold_Rmin_le_init | apply Rmin_r].
    + apply IH. exact Hin.
Qed.

Lemma fold_Rmin_in (l : list R) (a : R) :
  fold_left Rmin l a = a \/ In (fold_left Rmin l a) l.
Proof.
  revert a. induction l as [| u l IH]; intro a; simpl.
  - now left.
  - destruct (IH (Rmin a u)) as [H | H].
    + rewrite H. unfold Rmin. destruct (Rle_dec a u); [now left | right; now left].
    + right. now right.
Qed.

Lemma fold_Rmax_ge_init (l : list R) (a : R) : a <= fold_left Rmax l a.
Proof.
  revert a. induction l as [| v l IH]; intro a; simpl.
  - apply Rle_refl.
  - eapply Rle_trans; [apply Rmax_l | apply IH].
Qed.

Lemma fold_Rmax_ge (l : list R) (a v : R) :
  In v l -> v <= fold_left Rmax l a.
Proof.
  revert a. induction l as [| u l IH]; intros a Hin; simpl in *.
  - contradiction.
  - destruct Hin as [-> | Hin].
    + eapply Rle_trans; [apply Rmax_r | apply fold_Rmax_ge_init].
    + apply IH. exact Hin.
Qed.

Lemma fold_Rmax_in (l : list R) (a : R) :
  fold_left Rmax l a = a \/ In (fold_left Rmax l a) l.
Proof.
  revert a. induction l as [| u l IH]; intro a; simpl.
  - now left.
  - destruct (IH (Rmax a u)) as [H | H].
    + rewrite H. unfold Rmax. destruct (Rle_dec a u); [right; now left | now left].
    + right. now right.
Qed.

(** The [reduce] runs four independent folds, one per coordinate. *)
Lemma bbox_fold_components (pts : list Point) (acc : Point * Point) :
  let r := fold_left bbox_step pts acc in
  Point.x (fst r) = fold_left Rmin (map Point.x pts) (Point.x (fst acc)) /\
  Point.y (fst r) = fold_left Rmin (map Point.y pts) (Point.y (fst acc)) /\
  Point.x (snd r) = fold_left Rmax (map Point.x pts) (Point.x (snd acc)) /\
  Point.y (snd r) = fold_left Rmax (map Point.y pts) (Point.y (snd acc)).
Proof.
  revert acc. induction pts as [| p pts IH]; intro acc; simpl.
  - repeat split.
  - apply (IH (bbox_step acc p)).
Qed.

Lemma is_minimum_fold (v : R) (l : list R) :
  is_minimum (fold_left Rmin (v :: l) v) (v :: l).
Proof.
  split.
  - destruct (fold_Rmin_in (v :: l) v) as [H | H]; [rewrite H; now left | exact H].
  - intros u Hu. apply fold_Rmin_le. exact Hu.
Qed.

Lemma is_maximum_fold (v : R) (l : list R) :
  is_maximum (fold_left Rmax (v :: l) v) (v :: l).
Proof.
  split.
  - destruct (fold_Rmax_in (v :: l) v) as [H | H]; [rewrite H; now left | exact H].
  - intros u Hu. apply fold_Rmax_ge. exact Hu.
Qed.

(** The minimum and the maximum do not depend on the order. *)
Lemma is_minimum_perm (m m' : R) (l l' : list R) :
  Permutation l l' -> is_minimum m l -> is_minimum m' l' -> m = m'.
Proof.
  intros HP [Hin Hle] [Hin' Hle'].
  apply Rle_antisym.
  - apply Hle. eapply Permutation_in; [apply Permutation_sym; exact HP | exact Hin'].
  - apply Hle'. eapply Permutation_in; [exact HP | exact Hin].
Qed.

Lemma is_maximum_perm (m m' : R) (l l' : list R) :
  Permutation l l' -> is_maximum m l -> is_maximum m' l' -> m = m'.
Proof.
  intros HP [Hin Hle] [Hin' Hle'].
  apply Rle_antisym.
  - apply Hle'. eapply Permutation_in; [exact HP | exact Hin].
  - apply Hle. eapply Permutation_in; [apply Permutation_sym; exact HP | exact Hin'].
Qed.

(** The box of a non-empty list, read off its coordinates. *)
Lemma makeBoundingBoxFromPoints_extrema (points : list Point) :
  points <> [] ->
  exists minx miny maxx maxy,
    is_minimum minx (map Point.x points) /\
    is_minimum miny (map Point.y points) /\
    is_maximum maxx (map Point.x points) /\
    is_maximum maxy (map Point.y points) /\
    makeBoundingBoxFromPoints points =
      BBox.make minx miny (maxx - minx) (maxy - miny).
Proof.
  destruct points as [| p0 rest]; [congruence | intros _].
  unfold makeBoundingBoxFromPoints.
  fold bbox_step.
  destruct (bbox_fold_components (p0 :: rest) (p0, p0)) as (Hx & Hy & HX & HY).
  destruct (fold_left bbox_step (p0 :: rest) (p0, p0)) as [mn mx].
  simpl fst in *; simpl snd in *.
  exists (Point.x mn), (Point.y mn), (Point.x mx), (Point.y mx).
  rewrite Hx at 1. rewrite Hy at 1. rewrite HX at 1. rewrite HY at 1.
  repeat split; try apply is_minimum_fold; try apply is_maximum_fold;
    try (apply (is_minimum_fold (Point.x p0) (map Point.x rest)));
    try (apply (is_maximum_fold (Point.x p0) (map Point.x rest))).
Qed.

(** C10: the box of the empty list is all zeros; the box of a non-empty
    list has the minimum x as [left], the minimum y as [top], the maximum x
    minus the minimum x as [width] and the maximum y minus the minimum y as
    [height]; and the box does not depend on the order of the points. *)
Theorem makeBoundingBoxFromPoints_spec (points points' : list Point) :
  makeBoundingBoxFromPoints [] = BBox.make 0 0 0 0 /\
  (points <> [] ->
   let b := makeBoundingBoxFromPoints points in
   exists maxx maxy,
     is_minimum (BBox.left b) (map Point.x points) /\
     is_minimum (BBox.top b) (map Point.y points) /\
     is_maximum maxx (map Point.x points) /\
     is_maximum maxy (map Point.y points) /\
     BBox.width b = maxx - BBox.left b /\
     BBox.height b = maxy - BBox.top b) /\
  (Permutation points points' ->
   makeBoundingBoxFromPoints points = makeBoundingBoxFromPoints points').
Proof.
  split; [reflexivity | split].
  - intro Hne.
    destruct (makeBoundingBoxFromPoints_extrema points Hne)
      as (minx & miny & maxx & maxy & Hx & Hy & HX & HY & Hb).
    cbv zeta. rewrite Hb. simpl. exists maxx, maxy.
    repeat split; solve [apply Hx | apply Hy | apply HX | apply HY].
  - intro HP.
    destruct points as [| p rest].
    + apply Permutation_nil in HP. subst points'. reflexivity.
    + assert (Hne : p :: rest <> []) by congruence.
      assert (Hne' : points' <> []).
      { intro He. subst points'. apply Permutation_sym, Permutation_nil in HP.
        congruence. }
      destruct (makeBoundingBoxFromPoints_extrema _ Hne)
        as (minx & miny & maxx & maxy & Hx & Hy & HX & HY & Hb).
      destruct (makeBoundingBoxFromPoints_extrema _ Hne')
        as (minx' & miny' & maxx' & maxy' & Hx' & Hy' & HX' & HY' & Hb').
      rewrite Hb, Hb'.
      rewrite (is_minimum_perm _ _ _ _ (Permutation_map Point.x HP) Hx Hx').
      rewrite (is_minimum_perm _ _ _ _ (Permutation_map Point.y HP) Hy Hy').
      rewrite (is_maximum_perm _ _ _ _ (Permutation_map Point.x HP) HX HX').
      rewrite (is_maximum_perm _ _ _ _ (Permutation_map Point.y HP) HY HY').
      reflexivity.
Qed.

(** The box of the sample points in two orders. *)
Lemma makeBoundingBoxFromPoints_spec_witness :
  (exists maxx maxy,
     is_minimum (BBox.left (makeBoundingBoxFromPoints sample_points))
                (map Point.x sample_points) /\
     is_minimum (BBox.top (makeBoundingBoxFromPoints sample_points))
                (map Point.y sample_points) /\
     is_maximum maxx (map Point.x sample_points) /\
     is_maximum maxy (map Point.y sample_points) /\
     BBox.width (makeBoundingBoxFromPoints sample_points) =
       maxx - BBox.left (makeBoundingBoxFromPoints sample_points) /\
     BBox.height (makeBoundingBoxFromPoints sample_points) =
       maxy - BBox.top (makeBoundingBoxFromPoints sample_points)) /\
  makeBoundingBoxFromPoints sample_points =
    makeBoundingBoxFromPoints sample_points_reordered.
Proof.
  destruct (makeBoundingBoxFromPoints_spec sample_points sample_points_reordered)
    as (_ & Hext & Hperm).
  split.
  - apply Hext. unfold sample_points. discriminate.
  - apply Hperm. unfold sample_points, sample_points_reordered.
    apply perm_swap.
Defined.

(** Evaluation of [Rmin] and [Rmax] on numerals, innermost first. *)
Ltac eval_minmax :=
  repeat match goal with
         | |- context [Rmin ?a ?b] =>
             first [ rewrite (Rmin_left a b) by lra
                   | rewrite (Rmin_right a b) by lra ]
         | |- context [Rmax ?a ?b] =>
             first [ rewrite (Rmax_left a b) by lra
                   | rewrite (Rmax_right a b) by lra ]
         end.

(** The box of the sample points, computed. *)
Example makeBoundingBoxFromPoints_sample :
  makeBoundingBoxFromPoints sample_points = BBox.make (-1) 0 4 5.
Proof.
  unfold makeBoundingBoxFromPoints, sample_points, Point.min, Point.max,
    Point.subtract; simpl.
  eval_minmax. f_equal; lra.
Qed.

(** *** Stroke capture *)

Lemma Point_eq_refl (p : Point) : Point.eq p p = true.
Proof. unfold Point.eq. now rewrite !Reqb_refl. Qed.

Lemma Point_eq_true (p q : Point) : Point.eq p q = true -> p = q.
Proof.
  destruct p as [px py], q as [qx qy]. unfold Point.eq, Reqb; simpl.
  destruct (Req_dec_T px qx), (Req_dec_T py qy); simpl; try discriminate.
  intros _. congruence.
Qed.

(** C6, the claim as stated fails: with one captured point, the same point
    is accepted and captured a second time. *)
Lemma _addPoint_single_point_counterexample :
  Brush._points one_point_brush = [Point.new 3 4] /\
  ~ rejects_duplicate one_point_brush (Point.new 3 4) /\
  _addPoint one_point_brush (Point.new 3 4) =
    (true, brush_with [Point.new 3 4; Point.new 3 4]).
Proof.
  split; [reflexivity |].
  assert (H : _addPoint one_point_brush (Point.new 3 4) =
              (true, brush_with [Point.new 3 4; Point.new 3 4]))
    by reflexivity.
  split; [| exact H].
  unfold rejects_duplicate. rewrite H. discriminate.
Qed.

(** [onMouseDown] relies on it: pointer-down captures the same point twice,
    which is what lets a click without movement draw a dot. *)
Lemma onMouseDown_captures_twice (this : Brush.t) (p : Point) (w : World) :
  Brush._points (fst (onMouseDown this p true false w)) = [p; p].
Proof. reflexivity. Qed.

(** C6 (amended): when at least two points have been captured, [_addPoint]
    with a point equal to the last captured point returns false and leaves
    the brush, and so the captured points, unchanged; when exactly one
    point has been captured the point is appended and the answer is true. *)
Theorem _addPoint_rejects_duplicate
  (this : Brush.t) (point : Point) (pts : list Point) (q : Point) :
  Brush._points this = pts ++ [q] ->
  Point.eq point q = true ->
  (pts <> [] -> _addPoint this point = (false, this)) /\
  (pts = [] ->
   _addPoint this point = (true, Brush.set_points this [q; point])).
Proof.
  intros Hpts Heq. unfold _addPoint. rewrite Hpts, last_last, Heq.
  rewrite length_app; simpl. split.
  - intro Hne. destruct pts as [| p0 pts']; [congruence |]. simpl.
    replace (List.length pts' + 1)%nat with (S (List.length pts')) by lia.
    reflexivity.
  - intro He. subst pts. simpl. rewrite andb_false_r. rewrite Hpts.
    reflexivity.
Qed.

(** The last point again, after two points and after one. *)
Lemma _addPoint_rejects_duplicate_witness :
  _addPoint two_point_brush (Point.new 3 4) = (false, two_point_brush) /\
  _addPoint one_point_brush (Point.new 3 4) =
    (true, Brush.set_points one_point_brush [Point.new 3 4; Point.new 3 4]).
Proof.
  split.
  - apply (_addPoint_rejects_duplicate two_point_brush (Point.new 3 4)
             [Point.new 0 0] (Point.new 3 4)).
    + reflexivity.
    + apply Point_eq_refl.
    + discriminate.
  - apply (_addPoint_rejects_duplicate one_point_brush (Point.new 3 4)
             [] (Point.new 3 4)).
    + reflexivity.
    + apply Point_eq_refl.
    + reflexivity.
Defined.

(** The last element of an array is at index [length - 1]. *)
Lemma nth_error_last {A : Type} (l : list A) (d : A) :
  l <> [] -> nth_error l (List.length l - 1) = Some (last l d).
Proof.
  intro Hne. destruct (exists_last Hne) as (l' & a & ->).
  rewrite last_last, length_app; simpl.
  replace (List.length l' + 1 - 1)%nat with (List.length l') by lia.
  rewrite nth_error_app2 by lia. now rewrite Nat.sub_diag.
Qed.

(** The loop of [decimatePoints] never reads past the array, only appends
    points of the array, and never drops what was kept. *)
Lemma decimate_loop_spec
  (points : list Point) (adj : R) (n i : nat) (lastPoint : Point)
  (newPoints : list Point) :
  (i + n <= List.length points)%nat ->
  exists r,
    decimate_loop points adj n i lastPoint newPoints = Some r /\
    (List.length newPoints <= List.length r)%nat /\
    (forall p, In p r -> In p newPoints \/ In p points).
Proof.
  revert i lastPoint newPoints.
  induction n as [| n IH]; intros i lastPoint newPoints Hi; simpl.
  - exists newPoints. repeat split; auto.
  - destruct (nth_error points i) as [p |] eqn:Hp.
    + assert (Hin : In p points) by (eapply nth_error_In; exact Hp).
      destruct (Rgeb _ adj).
      * destruct (IH (S i) p (newPoints ++ [p])) as (r & Hr & Hlen & Hsub);
          [lia |].
        exists r. split; [exact Hr | split].
        -- rewrite length_app in Hlen. simpl in Hlen. lia.
        -- intros q Hq. destruct (Hsub q Hq) as [H | H]; [| now right].
           apply in_app_or in H. destruct H as [H | [<- | []]]; auto.
      * destruct (IH (S i) lastPoint newPoints) as (r & Hr & Hlen & Hsub);
          [lia |].
        exists r. auto.
    + apply nth_error_None in Hp. lia.
Qed.

(** [decimatePoints] always returns, with points of its input only; the
    rest holds from 2 points on. *)
Lemma decimatePoints_spec (zoom distance : R) (points : list Point) :
  exists res,
    decimatePoints zoom points distance = Some res /\
    (forall p, In p res -> In p points) /\
    ((2 <= List.length points)%nat ->
     (2 <= List.length res)%nat /\ forall d, last res d = last points d).
Proof.
  unfold decimatePoints.
  destruct (List.length points <=? 2)%nat eqn:Hle.
  - exists points. repeat split; auto.
  - apply Nat.leb_gt in Hle.
    destruct (nth_error points 0) as [p0 |] eqn:H0;
      [| apply nth_error_None in H0; lia].
    assert (Hin0 : In p0 points) by (eapply nth_error_In; exact H0).
    destruct (decimate_loop_spec points (pow2 (distance / zoom))
                (List.length points - 1 - 1 - 1) 1 p0 [p0])
      as (r & Hr & Hrlen & Hsub); [lia |].
    rewrite Hr.
    assert (Hne : points <> []) by (intro He; subst points; simpl in Hle; lia).
    rewrite (nth_error_last points p0 Hne).
    destruct (exists_last Hne) as (l' & a & Ha).
    exists (r ++ [last points p0]). split; [reflexivity | repeat split].
    + intros p Hp. apply in_app_or in Hp. destruct Hp as [Hp | [<- | []]].
      * destruct (Hsub p Hp) as [[<- | []] | H]; [exact Hin0 | exact H].
      * rewrite Ha at 1. rewrite last_last. rewrite Ha.
        apply in_or_app. right. now left.
    + rewrite length_app. simpl in *. lia.
    + intro d. rewrite last_last, Ha, !last_last. reflexivity.
Qed.

(** C7: on a list of at least 2 points, for every threshold and zoom,
    [decimatePoints] returns a list of at least 2 points, whose last point
    is the last input point and whose points all occur in the input. *)
Theorem decimatePoints_invariants
  (zoom distance : R) (points : list Point) :
  (2 <= List.length points)%nat ->
  exists res,
    decimatePoints zoom points distance = Some res /\
    (2 <= List.length res)%nat /\
    (forall d, last res d = last points d) /\
    (forall p, In p res -> In p points).
Proof.
  intro Hlen.
  destruct (decimatePoints_spec zoom distance points)
    as (res & Hres & Hsub & Hrest).
  destruct (Hrest Hlen) as [H2 Hlast].
  exists res. auto.
Qed.

(** Decimation of the four points on a line. *)
Lemma decimatePoints_invariants_witness :
  exists res,
    decimatePoints 1 line_points (4 / 10) = Some res /\
    (2 <= List.length res)%nat /\
    (forall d, last res d = last line_points d) /\
    (forall p, In p res -> In p line_points).
Proof.
  apply (decimatePoints_invariants 1 (4 / 10) line_points).
  simpl. lia.
Defined.

(** *** Pattern preparation *)

Lemma update_same (s : Store) (id : ObjId) (o : ObjState) :
  update s id o id = o.
Proof. unfold update. now rewrite Nat.eqb_refl. Qed.

Lemma update_other (s : Store) (id j : ObjId) (o : ObjState) :
  j <> id -> update s id o j = s j.
Proof.
  intro H. unfold update. apply Nat.eqb_neq in H. now rewrite H.
Qed.

Lemma same_but_dirty_refl (a : ObjState) : same_but_dirty a a.
Proof. unfold same_but_dirty. repeat split. Qed.

Lemma same_but_dirty_trans (a b c : ObjState) :
  same_but_dirty a b -> same_but_dirty b c -> same_but_dirty a c.
Proof.
  unfold same_but_dirty.
  intros (H1 & H2 & H3 & H4 & H5) (K1 & K2 & K3 & K4 & K5).
  repeat split; congruence.
Qed.

Lemma same_but_dirty_set_dirty (a : ObjState) (d : bool) :
  same_but_dirty (set_dirty a d) a.
Proof. unfold same_but_dirty. repeat split. Qed.

(** Case analysis on whether [j] is the object just written. *)
Ltac at_object j id :=
  destruct (Nat.eq_dec j id) as [-> | ?];
  [ rewrite ?update_same | rewrite ?update_other by assumption ].

(** Marking the collection dirty, hiding an object and detaching a mask
    each keep the scene restorable. *)
Lemma restorable_mark_collection
  (s0 : Store) (collection : option ObjId) (s : Store)
  (rc : RestorationContext) :
  restorable s0 s rc ->
  restorable s0 (fst (mark_collection collection (s, rc)))
                (snd (mark_collection collection (s, rc))).
Proof.
  intro H. destruct collection as [cid |]; simpl; [| exact H].
  intro j. specialize (H j). at_object j cid; simpl; exact H.
Qed.

Lemma restorable_hide
  (s0 s : Store) (rc : RestorationContext) (id : ObjId) :
  restorable s0 s rc ->
  visible (s id) = true ->
  restorable s0 (update s id (set_visible (s id) false))
    (mkRestoration (rc_visibility rc ++ [id]) (rc_eraser rc)
                   (rc_collection rc)).
Proof.
  intros H Hvis j. pose proof (H j) as (Hg & He & Hc & Hv1 & Hv2 & He1 & He2).
  at_object j id; simpl;
    refine (conj Hg (conj He (conj Hc (conj _ (conj _ (conj He1 He2)))))).
  - intros _. destruct (in_dec Nat.eq_dec id (rc_visibility rc)) as [Hin | Hin].
    + auto.
    + rewrite <- Hv2 by assumption. exact Hvis.
  - intro Hn. exfalso. apply Hn. apply in_or_app. right. now left.
  - intro Hin. apply in_app_or in Hin.
    destruct Hin as [Hin | [Heq | []]]; [auto | congruence].
  - intro Hn. apply Hv2. intro Hin. apply Hn. apply in_or_app. now left.
Qed.

Lemma restorable_detach
  (s0 s : Store) (rc : RestorationContext) (id : ObjId) (e : Eraser) :
  restorable s0 s rc ->
  eraser (s id) = Some e ->
  restorable s0 (update s id (set_dirty (set_eraser (s id) None) true))
    (mkRestoration (rc_visibility rc) (rc_eraser rc ++ [(id, e)])
                   (rc_collection rc)).
Proof.
  intros H Hsome j.
  pose proof (H j) as (Hg & He & Hc & Hv1 & Hv2 & He1 & He2).
  at_object j id; simpl;
    refine (conj Hg (conj He (conj Hc (conj Hv1 (conj Hv2 (conj _ _)))))).
  - intros e' Hin. split; [| reflexivity].
    apply in_app_or in Hin. destruct Hin as [Hin | [Heq | []]].
    + destruct (He1 _ Hin) as [_ Hnone]. congruence.
    + inversion Heq; subst. rewrite <- He2; [exact Hsome |].
      intros e'' Hin. destruct (He1 _ Hin) as [_ Hnone]. congruence.
  - intro Hn. exfalso. apply (Hn e). apply in_or_app. right. now left.
  - intros e' Hin. apply in_app_or in Hin. destruct Hin as [Hin | [Heq | []]].
    + apply (He1 _ Hin).
    + inversion Heq. congruence.
  - intro Hn. apply He2. intros e' Hin. apply (Hn e'). apply in_or_app.
    now left.
Qed.

(** One step of the walk keeps the scene restorable. *)
Lemma prepare_object_restorable (s0 : Store) (inverted : bool) (obj : SceneObject) :
  forall collection st,
    restorable s0 (fst st) (snd st) ->
    restorable s0 (fst (prepare_object inverted collection obj st))
                  (snd (prepare_object inverted collection obj st)).
Proof.
  induction obj as [id kids IH] using SceneObject_nested_ind.
  intros collection [s rc] H. simpl fst in H; simpl snd in H.
  assert (Hleaf :
    let st' :=
      if negb inverted && erasable_truthy (erasable (s id)) && visible (s id)
      then mark_collection collection
             (update s id (set_visible (s id) false),
              mkRestoration (rc_visibility rc ++ [id]) (rc_eraser rc)
                            (rc_collection rc))
      else match eraser (s id) with
           | Some e =>
               if inverted && erasable_truthy (erasable (s id)) && visible (s id)
               then mark_collection collection
                      (update s id (set_dirty (set_eraser (s id) None) true),
                       mkRestoration (rc_visibility rc)
                                     (rc_eraser rc ++ [(id, e)])
                                     (rc_collection rc))
               else (s, rc)
           | None => (s, rc)
           end in
    restorable s0 (fst st') (snd st')).
  { cbv zeta.
    destruct (negb inverted && erasable_truthy (erasable (s id)) && visible (s id))
      eqn:Hn.
    - apply restorable_mark_collection. apply restorable_hide; [exact H |].
      apply andb_true_iff in Hn. tauto.
    - destruct (eraser (s id)) as [e |] eqn:He; [| exact H].
      destruct (inverted && erasable_truthy (erasable (s id)) && visible (s id));
        [| exact H].
      apply restorable_mark_collection. apply restorable_detach; assumption. }
  simpl. destruct kids as [objs |]; [| exact Hleaf].
  destruct (is_deep (erasable (s id))); [| exact Hleaf].
  clear Hleaf. change (restorable s0 (fst (s, rc)) (snd (s, rc))) in H.
  revert H. generalize (s, rc). revert IH.
  induction objs as [| c objs IHl]; intros HF st H; simpl.
  - exact H.
  - inversion HF; subst. apply IHl; [assumption |]. apply H2. exact H.
Qed.

(** So does the walk over a list of objects. *)
Lemma _prepareCollectionTraversal_restorable
  (s0 : Store) (inverted : bool) (collection : option ObjId)
  (objects : list SceneObject) :
  forall st,
    restorable s0 (fst st) (snd st) ->
    restorable s0
      (fst (_prepareCollectionTraversal inverted collection objects st))
      (snd (_prepareCollectionTraversal inverted collection objects st)).
Proof.
  unfold _prepareCollectionTraversal.
  induction objects as [| c objects IH]; intros st H; simpl.
  - exact H.
  - apply IH. apply prepare_object_restorable. exact H.
Qed.

(** What each of the three replays does to an object. *)
Lemma restore_visibility_spec (l : list ObjId) :
  forall (s : Store) (j : ObjId),
    let r := restore_visibility l s in
    geometry (r j) = geometry (s j) /\ erasable (r j) = erasable (s j) /\
    clipPath (r j) = clipPath (s j) /\ eraser (r j) = eraser (s j) /\
    (In j l -> visible (r j) = true) /\
    (~ In j l -> visible (r j) = visible (s j)).
Proof.
  unfold restore_visibility.
  induction l as [| i l IH]; intros s j; simpl.
  - repeat split; tauto.
  - specialize (IH (update s i (set_visible (s i) true)) j).
    cbv zeta in IH. destruct IH as (Hg & He & Hc & Hm & Hv1 & Hv2).
    rewrite Hg, He, Hc, Hm.
    destruct (Nat.eq_dec j i) as [-> | Hne].
    + rewrite update_same. simpl. repeat split; try tauto.
      intros _. destruct (in_dec Nat.eq_dec i l) as [Hin | Hin]; [auto |].
      rewrite (Hv2 Hin), update_same. reflexivity.
    + rewrite update_other by assumption. repeat split.
      * intros [Heq | Hin]; [congruence | auto].
      * intro Hn. rewrite Hv2 by tauto. now rewrite update_other.
Qed.

Lemma restore_eraser_spec (l : list (ObjId * Eraser)) :
  forall (s : Store) (j : ObjId) (X : option Eraser),
    (forall e, In (j, e) l -> X = Some e) ->
    (eraser (s j) = X \/ exists e, In (j, e) l) ->
    let r := restore_eraser l s in
    eraser (r j) = X /\
    geometry (r j) = geometry (s j) /\ erasable (r j) = erasable (s j) /\
    clipPath (r j) = clipPath (s j) /\ visible (r j) = visible (s j).
Proof.
  unfold restore_eraser.
  induction l as [| [i e] l IH]; intros s j X Hall Hsome; simpl.
  - destruct Hsome as [H | [e [] ]]. repeat split; assumption.
  - set (s1 := update s i (set_dirty (set_eraser (s i) (Some e)) true)).
    assert (Hall' : forall e', In (j, e') l -> X = Some e')
      by (intros e' Hin; apply Hall; now right).
    assert (Hfields :
      geometry (s1 j) = geometry (s j) /\ erasable (s1 j) = erasable (s j) /\
      clipPath (s1 j) = clipPath (s j) /\ visible (s1 j) = visible (s j)).
    { unfold s1. destruct (Nat.eq_dec j i) as [-> | Hne].
      - rewrite update_same. simpl. repeat split.
      - rewrite update_other by assumption. repeat split. }
    assert (Hsome' : eraser (s1 j) = X \/ exists e', In (j, e') l).
    { unfold s1. destruct (Nat.eq_dec j i) as [-> | Hne].
      - left. rewrite update_same. simpl. symmetry. apply Hall. now left.
      - rewrite update_other by assumption.
        destruct Hsome as [H | [e' [Heq | Hin]]].
        + now left.
        + inversion Heq. congruence.
        + right. now exists e'. }
    destruct (IH s1 j X Hall' Hsome') as (Hr & Hg & He & Hc & Hv).
    destruct Hfields as (Fg & Fe & Fc & Fv).
    repeat split; congruence.
Qed.

Lemma restore_collection_spec (l : list ObjId) :
  forall (s : Store) (j : ObjId),
    same_but_dirty (restore_collection l s j) (s j).
Proof.
  unfold restore_collection.
  induction l as [| i l IH]; intros s j; simpl.
  - apply same_but_dirty_refl.
  - eapply same_but_dirty_trans; [apply IH |].
    destruct (Nat.eq_dec j i) as [-> | Hne].
    + rewrite update_same. apply same_but_dirty_set_dirty.
    + rewrite update_other by assumption. apply same_but_dirty_refl.
Qed.

(** An object has a detached mask on the list or it has none. *)
Lemma entry_dec (l : list (ObjId * Eraser)) (j : ObjId) :
  (exists e, In (j, e) l) \/ (forall e, ~ In (j, e) l).
Proof.
  induction l as [| [i e] l IH].
  - right. intros e [].
  - destruct (Nat.eq_dec i j) as [-> | Hne].
    + left. exists e. now left.
    + destruct IH as [[e' Hin] | Hnone].
      * left. exists e'. now right.
      * right. intros e' [Heq | Hin]; [congruence | apply (Hnone e' Hin)].
Qed.

(** A restorable scene is the scene it started from once the three lists
    have been replayed. *)
Lemma restore_all
  (s0 s : Store) (rc : RestorationContext) (j : ObjId) :
  restorable s0 s rc ->
  same_but_dirty
    (restore_collection (rc_collection rc)
       (restore_eraser (rc_eraser rc)
          (restore_visibility (rc_visibility rc) s)) j)
    (s0 j).
Proof.
  intro H. destruct (H j) as (Hg & He & Hc & Hv1 & Hv2 & He1 & He2).
  eapply same_but_dirty_trans; [apply restore_collection_spec |].
  destruct (restore_visibility_spec (rc_visibility rc) s j)
    as (Vg & Ve & Vc & Vm & Vv1 & Vv2).
  assert (Hall : forall e, In (j, e) (rc_eraser rc) -> eraser (s0 j) = Some e)
    by (intros e Hin; apply (He1 e Hin)).
  assert (Hsome :
    eraser (restore_visibility (rc_visibility rc) s j) = eraser (s0 j) \/
    exists e, In (j, e) (rc_eraser rc)).
  { destruct (entry_dec (rc_eraser rc) j) as [Hex | Hnone].
    - now right.
    - left. rewrite Vm. apply He2. exact Hnone. }
  destruct (restore_eraser_spec (rc_eraser rc)
              (restore_visibility (rc_visibility rc) s) j (eraser (s0 j))
              Hall Hsome) as (Re & Rg & Rer & Rc & Rv).
  unfold same_but_dirty. rewrite Re, Rg, Rer, Rc, Rv, Vg, Ve, Vc.
  repeat split; try assumption.
  destruct (in_dec Nat.eq_dec j (rc_visibility rc)) as [Hin | Hin].
  - rewrite (Vv1 Hin). symmetry. auto.
  - rewrite (Vv2 Hin). auto.
Qed.

(** Rendering the background or the overlay leaves the canvas fields as
    they were and changes at most [dirty] flags. *)
Lemma prepare_drawable_frame
  (inverted : bool) (image : option SceneObject) (imageErasable : bool)
  (set : Canvas -> option SceneObject -> Canvas) (color : Canvas -> string)
  (render : Canvas -> Store -> Event) (w : World) :
  set (set (canvas w) None) image = canvas w ->
  let w' := prepare_drawable inverted image imageErasable set color render w in
  canvas w' = canvas w /\
  forall j, same_but_dirty (store w' j) (store w j).
Proof.
  intro Hset. unfold prepare_drawable.
  destruct (negb inverted &&
            ((match image with Some _ => true | None => false end
              && negb imageErasable) || string_truthy (color (canvas w)))).
  - destruct imageErasable; simpl.
    + split; [exact Hset | intro j; apply same_but_dirty_refl].
    + split; [reflexivity | intro j; apply same_but_dirty_refl].
  - destruct inverted; [| split; [reflexivity | intro; apply same_but_dirty_refl]].
    destruct image as [i |];
      [| simpl; split; [reflexivity | intro; apply same_but_dirty_refl]].
    destruct (eraser (store w (obj_id i))) as [e |] eqn:He;
      [| simpl; split; [reflexivity | intro; apply same_but_dirty_refl]].
    simpl. split; [reflexivity |].
    intro j. destruct (Nat.eq_dec j (obj_id i)) as [-> | Hne].
    + rewrite !update_same. unfold same_but_dirty; simpl.
      repeat split. symmetry. exact He.
    + rewrite !update_other by assumption. apply same_but_dirty_refl.
Qed.

Lemma set_backgroundImage_restore (c : Canvas) :
  set_backgroundImage (set_backgroundImage c None) (backgroundImage c) = c.
Proof. destruct c. reflexivity. Qed.

Lemma set_overlayImage_restore (c : Canvas) :
  set_overlayImage (set_overlayImage c None) (overlayImage c) = c.
Proof. destruct c. reflexivity. Qed.

Lemma restorable_start (s : Store) :
  restorable s s (mkRestoration [] [] []).
Proof.
  intro j. simpl. repeat split; tauto.
Qed.

(** C9: after [preparePattern] returns, in either mode and for whatever
    list of objects it is given, every object of the scene (nested objects,
    background and overlay images included) has the [visible] and the
    [eraser] it had before the call, the canvas still refers to the same
    background and overlay images, and no field other than [dirty] has
    changed. *)
Theorem preparePattern_restores
  (this : Brush.t) (objects : option (list SceneObject)) (w : World) :
  let w' := snd (preparePattern this objects w) in
  canvas w' = canvas w /\
  forall id,
    visible (store w' id) = visible (store w id) /\
    eraser (store w' id) = eraser (store w id) /\
    same_but_dirty (store w' id) (store w id).
Proof.
  unfold preparePattern.
  set (objs := match objects with
               | Some l => l
               | None => match _objectsToRender (canvas w) with
                         | Some l => l
                         | None => canvas_objects (canvas w)
                         end
               end).
  set (w1 := prepare_drawable (Brush.inverted this) (backgroundImage (canvas w))
               (drawable_erasable (store w) (backgroundImage (canvas w)))
               set_backgroundImage backgroundColor EvRenderBackground w).
  destruct (prepare_drawable_frame (Brush.inverted this)
              (backgroundImage (canvas w))
              (drawable_erasable (store w) (backgroundImage (canvas w)))
              set_backgroundImage backgroundColor EvRenderBackground w
              (set_backgroundImage_restore (canvas w))) as [Hc1 Hs1].
  fold w1 in Hc1, Hs1.
  pose proof (_prepareCollectionTraversal_restorable (store w1)
                (Brush.inverted this) None objs
                (store w1, mkRestoration [] [] [])
                (restorable_start (store w1))) as Hinv.
  destruct (_prepareCollectionTraversal (Brush.inverted this) None objs
              (store w1, mkRestoration [] [] [])) as [s2 rc].
  simpl fst in Hinv; simpl snd in Hinv.
  set (w3 := set_store _ _).
  assert (Hc3 : canvas w3 = canvas w) by (unfold w3; simpl; exact Hc1).
  assert (Hs3 : forall j, same_but_dirty (store w3 j) (store w j)).
  { intro j. unfold w3; simpl.
    eapply same_but_dirty_trans; [apply (restore_all _ _ _ j Hinv) | apply Hs1]. }
  assert (Hov : set_overlayImage (set_overlayImage (canvas w3) None)
                  (overlayImage (canvas w)) = canvas w3).
  { rewrite <- Hc3. apply set_overlayImage_restore. }
  destruct (prepare_drawable_frame (Brush.inverted this)
              (overlayImage (canvas w))
              (drawable_erasable (store w) (overlayImage (canvas w)))
              set_overlayImage overlayColor EvRenderOverlay w3 Hov)
    as [Hc4 Hs4].
  simpl snd. split.
  - rewrite Hc4. exact Hc3.
  - intro id.
    assert (H : same_but_dirty
                  (store (prepare_drawable (Brush.inverted this)
                            (overlayImage (canvas w))
                            (drawable_erasable (store w) (overlayImage (canvas w)))
                            set_overlayImage overlayColor EvRenderOverlay w3) id)
                  (store w id))
      by (eapply same_but_dirty_trans; [apply Hs4 | apply Hs3]).
    split; [apply H | split; [apply H | exact H]].
Qed.

(** On the sample scene in normal mode the pattern is rendered with the
    erasable objects 1 and 3 hidden and the non-erasable object 4 shown. *)
Example preparePattern_hides_while_rendering :
  match rendered_store
          (log (snd (preparePattern (brush_with []) None sample_world))) 0 with
  | Some s => (visible (s 1%nat), visible (s 3%nat), visible (s 4%nat))
  | None => (true, true, false)
  end = (false, false, true).
Proof. reflexivity. Qed.

(** *** Erasing *)

Section EraserProperties.

Variable getSmoothPathFromPoints : list Point -> R -> TSimplePathData.
Variable newPathTransform : TSimplePathData -> R -> TMat2D.
Variable mergeClipPaths : ClipPath -> ClipPath -> ClipPath.
Variable intersectsWithObject : FabricObject.t -> Path -> bool.





End EraserProperties.



(** In inverted mode the background is rendered first; the objects are
    then rendered with every object shown and the mask of object 3
    detached. *)
Example preparePattern_detaches_while_rendering :
  match rendered_store
          (log (snd (preparePattern
                       (Brush.make (4 / 10) false [] false None 1 "black" true
                                   4 false false)
                       None sample_world))) 1 with
  | Some s =>
      (visible (s 1%nat), visible (s 3%nat),
       match eraser (s 3%nat) with Some _ => true | None => false end)
  | None => (false, false, true)
  end = (true, true, false).
Proof. reflexivity. Qed.

(** Four points one unit apart with the default threshold: the loop looks
    at the second point only, so the third is dropped without being
    examined. *)
Example decimatePoints_line :
  decimatePoints 1 line_points (4 / 10) =
    Some [Point.new 0 0; Point.new 1 0; Point.new 3 0].
Proof.
  unfold decimatePoints, line_points. simpl.
  unfold Rgeb, pow2.
  destruct (Rle_dec (4 / 10 / 1 * (4 / 10 / 1)) ((0 - 1) * (0 - 1) + (0 - 0) * (0 - 0)))
    as [_ | H]; [reflexivity | exfalso; apply H; lra].
Qed.

(** *** More matrix algebra *)

Lemma multiply_assoc (A B C : TMat2D) (is2x2 : bool) :
  multiplyTransformMatrices (multiplyTransformMatrices A B is2x2) C is2x2 =
  multiplyTransformMatrices A (multiplyTransformMatrices B C is2x2) is2x2.
Proof.
  unfold multiplyTransformMatrices. destruct is2x2; simpl; f_equal; ring.
Qed.

Lemma multiply_id_l (A : TMat2D) :
  multiplyTransformMatrices iMatrix A false = A.
Proof.
  destruct A. unfold multiplyTransformMatrices, iMatrix; simpl. f_equal; ring.
Qed.

Lemma multiply_id_r (A : TMat2D) :
  multiplyTransformMatrices A iMatrix false = A.
Proof.
  destruct A. unfold multiplyTransformMatrices, iMatrix; simpl. f_equal; ring.
Qed.

(** X1: [multiplyTransformMatrices] is associative, with and without the
    [is2x2] flag, and without the flag [iMatrix] is neutral on both
    sides. *)
Theorem multiplyTransformMatrices_monoid (A B C : TMat2D) (is2x2 : bool) :
  multiplyTransformMatrices (multiplyTransformMatrices A B is2x2) C is2x2 =
    multiplyTransformMatrices A (multiplyTransformMatrices B C is2x2) is2x2 /\
  multiplyTransformMatrices iMatrix A false = A /\
  multiplyTransformMatrices A iMatrix false = A.
Proof.
  split; [apply multiply_assoc | split; [apply multiply_id_l | apply multiply_id_r]].
Qed.

Lemma transformPoint_product_aux (p : Point) (A B : TMat2D) (b : bool) :
  transformPoint p (multiplyTransformMatrices A B false) b =
  transformPoint (transformPoint p B b) A b.
Proof.
  unfold transformPoint, Point_transform, multiplyTransformMatrices.
  destruct b; simpl; f_equal; ring.
Qed.

(** X2: transforming a point by the product of [A] and [B] is transforming
    it by [B] and then by [A]; the same holds when the offsets are
    ignored. *)
Theorem transformPoint_product (p : Point) (A B : TMat2D) (ignoreOffset : bool) :
  transformPoint p (multiplyTransformMatrices A B false) ignoreOffset =
  transformPoint (transformPoint p B ignoreOffset) A ignoreOffset.
Proof. apply transformPoint_product_aux. Qed.

Lemma multiply_invert_r (M : TMat2D) :
  det M <> 0 -> multiplyTransformMatrices M (invertTransform M) false = iMatrix.
Proof.
  destruct M as [a b c d e f]; unfold det; simpl; intro Hdet.
  unfold multiplyTransformMatrices, invertTransform, iMatrix, Point_transform;
    simpl.
  f_equal; field; assumption.
Qed.

Lemma multiply_invert_l (M : TMat2D) :
  det M <> 0 -> multiplyTransformMatrices (invertTransform M) M false = iMatrix.
Proof.
  destruct M as [a b c d e f]; unfold det; simpl; intro Hdet.
  unfold multiplyTransformMatrices, invertTransform, iMatrix, Point_transform;
    simpl.
  f_equal; field; assumption.
Qed.

Lemma det_multiply (A B : TMat2D) (is2x2 : bool) :
  det (multiplyTransformMatrices A B is2x2) = det A * det B.
Proof. unfold det, multiplyTransformMatrices; simpl. ring. Qed.

Lemma det_invert (M : TMat2D) :
  det M <> 0 -> det (invertTransform M) = / det M.
Proof.
  destruct M as [a b c d e f]; unfold det, invertTransform; simpl; intro Hdet.
  field. assumption.
Qed.

(** X3: for a matrix with a nonzero determinant, [invertTransform] is also
    a left inverse, its determinant is the reciprocal, and it takes every
    transformed point back to the point, in both directions. *)
Theorem invertTransform_undoes (M : TMat2D) (p : Point) :
  det M <> 0 ->
  multiplyTransformMatrices (invertTransform M) M false = iMatrix /\
  det (invertTransform M) = / det M /\
  transformPoint (transformPoint p M false) (invertTransform M) false = p /\
  transformPoint (transformPoint p (invertTransform M) false) M false = p.
Proof.
  intro Hdet.
  assert (Hid : forall q, transformPoint q iMatrix false = q).
  { intros [qx qy]. unfold transformPoint, Point_transform, iMatrix; simpl.
    f_equal; ring. }
  repeat split.
  - apply multiply_invert_l; assumption.
  - apply det_invert; assumption.
  - rewrite <- transformPoint_product_aux. rewrite multiply_invert_l by assumption.
    apply Hid.
  - rewrite <- transformPoint_product_aux. rewrite multiply_invert_r by assumption.
    apply Hid.
Qed.

Lemma invertTransform_undoes_witness :
  multiplyTransformMatrices (invertTransform sample_matrix) sample_matrix false
    = iMatrix /\
  det (invertTransform sample_matrix) = / det sample_matrix /\
  transformPoint (transformPoint (Point.new 3 4) sample_matrix false)
    (invertTransform sample_matrix) false = Point.new 3 4 /\
  transformPoint (transformPoint (Point.new 3 4) (invertTransform sample_matrix)
                    false) sample_matrix false = Point.new 3 4.
Proof.
  apply (invertTransform_undoes sample_matrix (Point.new 3 4)).
  unfold det; simpl. lra.
Defined.

(** X4: the inverse of a product is the product of the inverses in the
    opposite order, when both determinants are nonzero. *)
Theorem invertTransform_product (A B : TMat2D) :
  det A <> 0 -> det B <> 0 ->
  invertTransform (multiplyTransformMatrices A B false) =
  multiplyTransformMatrices (invertTransform B) (invertTransform A) false.
Proof.
  destruct A as [a0 a1 a2 a3 a4 a5], B as [b0 b1 b2 b3 b4 b5].
  unfold det; simpl; intros HA HB.
  assert (HAB : (a0 * b0 + a2 * b1) * (a1 * b2 + a3 * b3) -
                (a1 * b0 + a3 * b1) * (a0 * b2 + a2 * b3) <> 0).
  { replace ((a0 * b0 + a2 * b1) * (a1 * b2 + a3 * b3) -
             (a1 * b0 + a3 * b1) * (a0 * b2 + a2 * b3))
      with ((a0 * a3 - a1 * a2) * (b0 * b3 - b1 * b2)) by ring.
    apply Rmult_integral_contrapositive_currified; assumption. }
  unfold multiplyTransformMatrices, invertTransform, Point_transform; simpl.
  f_equal; field; repeat split; assumption.
Qed.

Lemma invertTransform_product_witness :
  invertTransform (multiplyTransformMatrices sample_matrix sample_matrix2 false) =
  multiplyTransformMatrices (invertTransform sample_matrix2)
    (invertTransform sample_matrix) false.
Proof.
  apply (invertTransform_product sample_matrix sample_matrix2);
    unfold det; simpl; lra.
Defined.

(** In [is2x2] mode the product of an array has no translation. *)
Lemma array_2x2_translation (l : list (option TMat2D)) :
  m4 (multiplyTransformMatrixArray l true) = 0 /\
  m5 (multiplyTransformMatrixArray l true) = 0.
Proof.
  induction l as [| [c |] l IH]; simpl; auto.
Qed.

Lemma array_app (l1 l2 : list (option TMat2D)) (is2x2 : bool) :
  multiplyTransformMatrixArray (l1 ++ l2) is2x2 =
  multiplyTransformMatrices (multiplyTransformMatrixArray l1 is2x2)
    (multiplyTransformMatrixArray l2 is2x2) is2x2.
Proof.
  induction l1 as [| [c |] l1 IH]; simpl.
  - destruct is2x2.
    + destruct (array_2x2_translation l2) as [H4 H5].
      destruct (multiplyTransformMatrixArray l2 true) as [a b c d e f].
      simpl in *. subst. unfold multiplyTransformMatrices, iMatrix; simpl.
      f_equal; ring.
    + symmetry. apply multiply_id_l.
  - fold (multiplyTransformMatrixArray (l1 ++ l2) is2x2).
    fold (multiplyTransformMatrixArray l1 is2x2).
    rewrite IH. symmetry. apply multiply_assoc.
  - exact IH.
Qed.

(** X5: the product of an array of matrices is the product of the products
    of its two parts wherever the array is cut; a falsy entry can be
    dropped anywhere; and [[A, B, C]] multiplies to [A(B(C))]. *)
Theorem multiplyTransformMatrixArray_chain
  (l1 l2 : list (option TMat2D)) (A B C : TMat2D) (is2x2 : bool) :
  multiplyTransformMatrixArray (l1 ++ l2) is2x2 =
    multiplyTransformMatrices (multiplyTransformMatrixArray l1 is2x2)
      (multiplyTransformMatrixArray l2 is2x2) is2x2 /\
  multiplyTransformMatrixArray (l1 ++ None :: l2) is2x2 =
    multiplyTransformMatrixArray (l1 ++ l2) is2x2 /\
  multiplyTransformMatrixArray [Some A; Some B; Some C] false =
    multiplyTransformMatrices A (multiplyTransformMatrices B C false) false.
Proof.
  split; [apply array_app | split].
  - rewrite !array_app. reflexivity.
  - simpl. rewrite multiply_id_r. reflexivity.
Qed.

(** X6: with the [is2x2] flag the product of an array has a zero
    translation and the linear part of the product without the flag. *)
Theorem multiplyTransformMatrixArray_2x2 (l : list (option TMat2D)) :
  m4 (multiplyTransformMatrixArray l true) = 0 /\
  m5 (multiplyTransformMatrixArray l true) = 0 /\
  linear_part (multiplyTransformMatrixArray l true) =
    linear_part (multiplyTransformMatrixArray l false).
Proof.
  destruct (array_2x2_translation l) as [H4 H5].
  split; [exact H4 | split; [exact H5 |]].
  clear H4 H5. induction l as [| [c |] l IH]; simpl; auto.
  unfold linear_part in *.
  fold (multiplyTransformMatrixArray l true).
  fold (multiplyTransformMatrixArray l false).
  inversion IH as [[H0 H1 H2 H3]].
  unfold multiplyTransformMatrices; simpl. rewrite H0, H1, H2, H3.
  reflexivity.
Qed.

(** [Math.atan2] stays within (-PI, PI]. *)
Lemma atan2_bound (y x : R) : - PI < atan2 y x <= PI.
Proof.
  assert (HPI := PI_RGT_0).
  unfold atan2.
  destruct (Rlt_dec 0 x) as [Hx | Hx].
  - destruct (atan_bound (y / x)). split; lra.
  - destruct (Rlt_dec x 0) as [Hx' | Hx'].
    + destruct (atan_bound (y / x)) as [Hl Hu].
      destruct (Rle_dec 0 y) as [Hy | Hy].
      * assert (Hq : y / x <= 0).
        { assert (/ x < 0) by (apply Rinv_lt_0_compat; exact Hx').
          unfold Rdiv. nra. }
        assert (atan (y / x) <= 0).
        { destruct Hq as [Hq | Hq].
          - left. rewrite <- atan_0. apply atan_increasing. exact Hq.
          - rewrite Hq, atan_0. lra. }
        split; lra.
      * assert (Hq : 0 < y / x).
        { assert (/ x < 0) by (apply Rinv_lt_0_compat; exact Hx').
          unfold Rdiv. nra. }
        assert (0 < atan (y / x)).
        { rewrite <- atan_0. apply atan_increasing. exact Hq. }
        split; lra.
    + destruct (Rlt_dec 0 y); [split; lra |].
      destruct (Rlt_dec y 0); split; lra.
Qed.

(** X7: whatever the matrix, [qrDecompose] returns a [scaleX] that is not
    negative, an [angle] in (-180, 180], a [skewX] in (-90, 90) and the
    translation of the matrix; and when the first column of the matrix is
    not zero, [scaleX * scaleY] is the determinant. *)
Theorem qrDecompose_ranges (M : TMat2D) :
  let D := qrDecompose M in
  0 <= Qr.scaleX D /\
  -180 < Qr.angle D <= 180 /\
  -90 < Qr.skewX D < 90 /\
  Qr.translateX D = m4 M /\ Qr.translateY D = m5 M /\
  (m0 M <> 0 \/ m1 M <> 0 -> Qr.scaleX D * Qr.scaleY D = det M).
Proof.
  destruct M as [a b c d e f]. cbv zeta. unfold qrDecompose; simpl.
  assert (HPI := PI_RGT_0).
  assert (Hdeg : forall r lo hi, lo * (PI / 180) < r -> r < hi * (PI / 180) ->
                 lo < radiansToDegrees r < hi).
  { intros r lo hi H1 H2. unfold radiansToDegrees. split.
    - apply Rmult_lt_reg_r with (PI / 180); [lra |].
      replace (r / (PI / 180) * (PI / 180)) with r by (field; lra). exact H1.
    - apply Rmult_lt_reg_r with (PI / 180); [lra |].
      replace (r / (PI / 180) * (PI / 180)) with r by (field; lra). exact H2. }
  repeat split.
  - apply sqrt_pos.
  - destruct (atan2_bound b a) as [Hl Hu].
    apply (Hdeg _ (-180) 181); lra.
  - destruct (atan2_bound b a) as [_ Hu].
    unfold radiansToDegrees.
    apply Rmult_le_reg_r with (PI / 180); [lra |].
    replace (atan2 b a / (PI / 180) * (PI / 180)) with (atan2 b a)
      by (field; lra).
    lra.
  - assert (Hs : - (PI / 2) < atan2 (a * c + b * d) (pow2 a + pow2 b) < PI / 2).
    { unfold atan2.
      assert (Hn : 0 <= pow2 a + pow2 b) by (unfold pow2; nra).
      destruct (Rlt_dec 0 (pow2 a + pow2 b)) as [Hp | Hp].
      - destruct (atan_bound ((a * c + b * d) / (pow2 a + pow2 b))). lra.
      - destruct (Rlt_dec (pow2 a + pow2 b) 0) as [Hneg | _]; [lra |].
        assert (Ha : a = 0) by (unfold pow2 in *; nra).
        assert (Hb : b = 0) by (unfold pow2 in *; nra).
        subst. replace (0 * c + 0 * d) with 0 by ring.
        destruct (Rlt_dec 0 0); [lra |]. lra. }
    apply (Hdeg _ (-90) 90); lra.
  - assert (Hs : - (PI / 2) < atan2 (a * c + b * d) (pow2 a + pow2 b) < PI / 2).
    { unfold atan2.
      assert (Hn : 0 <= pow2 a + pow2 b) by (unfold pow2; nra).
      destruct (Rlt_dec 0 (pow2 a + pow2 b)) as [Hp | Hp].
      - destruct (atan_bound ((a * c + b * d) / (pow2 a + pow2 b))). lra.
      - destruct (Rlt_dec (pow2 a + pow2 b) 0) as [Hneg | _]; [lra |].
        assert (Ha : a = 0) by (unfold pow2 in *; nra).
        assert (Hb : b = 0) by (unfold pow2 in *; nra).
        subst. replace (0 * c + 0 * d) with 0 by ring.
        destruct (Rlt_dec 0 0); [lra |]. lra. }
    apply (Hdeg _ (-90) 90); lra.
  - apply or_else_0.
  - apply or_else_0.
  - intro Hab. assert (Hn := norm_pos a b Hab). unfold det; simpl.
    field. lra.
Qed.

Lemma qrDecompose_ranges_witness :
  Qr.scaleX (qrDecompose sample_matrix) * Qr.scaleY (qrDecompose sample_matrix)
    = det sample_matrix.
Proof.
  apply (qrDecompose_ranges sample_matrix). left. simpl. lra.
Defined.

(** X8: the matrix [composeMatrix] builds has the translation it was
    given, and its determinant is the product of the two scale factors,
    each negated when its flip is set: rotation, skew and translation do
    not change it. *)
Theorem composeMatrix_determinant (o : Args.t) :
  let M := composeMatrix o in
  m4 M = dflt (Args.translateX o) 0 /\
  m5 M = dflt (Args.translateY o) 0 /\
  det M =
    signed (dflt (Args.flipX o) false) (dflt (Args.scaleX o) 1) *
    signed (dflt (Args.flipY o) false) (dflt (Args.scaleY o) 1).
Proof.
  cbv zeta. rewrite composeMatrix_closed, calcDimensionsMatrix_closed.
  simpl. repeat split. unfold det; simpl.
  set (th := degreesToRadians (dflt (Args.angle o) 0)).
  assert (Hcs : cos th * cos th + sin th * sin th = 1).
  { generalize (sin2_cos2 th). unfold Rsqr. lra. }
  set (sx := signed _ (dflt (Args.scaleX o) 1)).
  set (sy := signed _ (dflt (Args.scaleY o) 1)).
  set (tx := angleToSkew _). set (ty := angleToSkew _).
  replace ((cos th * (sx * (1 + tx * ty)) - sin th * (sy * ty)) *
           (sin th * (sx * tx) + cos th * sy) -
           (sin th * (sx * (1 + tx * ty)) + cos th * (sy * ty)) *
           (cos th * (sx * tx) - sin th * sy))
    with (sx * sy * (cos th * cos th + sin th * sin th)) by ring.
  rewrite Hcs. ring.
Qed.

Lemma degreesToRadians_plus (a b : R) :
  degreesToRadians (a + b) = degreesToRadians a + degreesToRadians b.
Proof. unfold degreesToRadians. ring. Qed.

Lemma degreesToRadians_opp (a : R) :
  degreesToRadians (- a) = - degreesToRadians a.
Proof. unfold degreesToRadians. ring. Qed.

(** X9: rotations about the origin compose by adding their angles, and
    the inverse of the rotation by [a] is the rotation by [-a]. *)
Theorem createRotateMatrix_compose (a b : R) :
  multiplyTransformMatrices (createRotateMatrix (Some a) None None)
    (createRotateMatrix (Some b) None None) false =
    createRotateMatrix (Some (a + b)) None None /\
  invertTransform (createRotateMatrix (Some a) None None) =
    createRotateMatrix (Some (- a)) None None.
Proof.
  unfold createRotateMatrix, fcos, fsin, multiplyTransformMatrices,
    invertTransform, Point_transform; simpl.
  rewrite truthy_0, degreesToRadians_plus, degreesToRadians_opp.
  rewrite cos_plus, sin_plus, cos_neg, sin_neg.
  set (ra := degreesToRadians a). set (rb := degreesToRadians b).
  assert (Hcs : cos ra * cos ra - sin ra * - sin ra = 1).
  { generalize (sin2_cos2 ra). unfold Rsqr. lra. }
  split; f_equal; try ring.
  all: rewrite Hcs; field.
Qed.

(** X10: when both coordinates of the pivot are nonzero, the matrix of
    [createRotateMatrix] is the translation to the pivot, times the
    rotation about the origin, times the translation back. *)
Theorem createRotateMatrix_conjugation (a x y : R) :
  x <> 0 -> y <> 0 ->
  createRotateMatrix (Some a) (Some x) (Some y) =
  multiplyTransformMatrixArray
    [ Some (createTranslateMatrix x (Some y));
      Some (createRotateMatrix (Some a) None None);
      Some (createTranslateMatrix (- x) (Some (- y))) ] false.
Proof.
  intros Hx Hy.
  unfold createRotateMatrix, fcos, fsin, multiplyTransformMatrixArray,
    multiplyTransformMatrices, createTranslateMatrix, iMatrix; simpl.
  rewrite truthy_0, (truthy_neq x Hx), (truthy_neq y Hy).
  f_equal; ring.
Qed.

Lemma createRotateMatrix_conjugation_witness :
  createRotateMatrix (Some 90) (Some 2) (Some 3) =
  multiplyTransformMatrixArray
    [ Some (createTranslateMatrix 2 (Some 3));
      Some (createRotateMatrix (Some 90) None None);
      Some (createTranslateMatrix (- 2) (Some (- 3))) ] false.
Proof.
  apply (createRotateMatrix_conjugation 90 2 3); lra.
Defined.

(** X11: [skewToAngle] undoes [angleToSkew] on angles in (-90, 90), and
    [angleToSkew] undoes [skewToAngle] on every number. *)
Theorem skewToAngle_angleToSkew (a v : R) :
  (-90 < a < 90 -> skewToAngle (angleToSkew a) = a) /\
  angleToSkew (skewToAngle v) = v.
Proof.
  assert (HPI := PI_RGT_0). unfold skewToAngle, angleToSkew. split.
  - intros [Hl Hu]. rewrite atan_tan.
    + apply deg_rad.
    + unfold degreesToRadians. split; nra.
  - rewrite rad_deg. apply tan_atan.
Qed.

Lemma skewToAngle_angleToSkew_witness :
  skewToAngle (angleToSkew 45) = 45.
Proof.
  apply (skewToAngle_angleToSkew 45 0). lra.
Defined.

(** *** Origins and corners *)

Lemma truthy_false (v : R) : truthy v = false -> v = 0.
Proof. unfold truthy. destruct (Req_dec_T v 0); [auto | discriminate]. Qed.

Lemma Point_eta (p : Point) : Point.new (Point.x p) (Point.y p) = p.
Proof. destruct p. reflexivity. Qed.

(** The offset is added whether or not the guard lets it through. *)
Lemma translateToGivenOrigin_closed
  (o : FabricObject.t) (p : Point) (fx fy tx ty : TOrigin) :
  translateToGivenOrigin o p fx fy tx ty =
  Point.new
    (Point.x p + (resolveOrigin tx - resolveOrigin fx) *
                 Point.x (_getTransformedDimensions o DimOptions.empty))
    (Point.y p + (resolveOrigin ty - resolveOrigin fy) *
                 Point.y (_getTransformedDimensions o DimOptions.empty)).
Proof.
  unfold translateToGivenOrigin.
  destruct (truthy (resolveOrigin tx - resolveOrigin fx)) eqn:Hx;
  destruct (truthy (resolveOrigin ty - resolveOrigin fy)) eqn:Hy; simpl;
    try reflexivity.
  apply truthy_false in Hx, Hy. rewrite Hx, Hy. f_equal; ring.
Qed.

(** X12: moving a point from one origin to a second and from there to a
    third is moving it from the first to the third, and moving it to the
    origin it is on leaves it where it is. *)
Theorem translateToGivenOrigin_chain
  (o : FabricObject.t) (p : Point) (ax ay bx by_ cx cy : TOrigin) :
  translateToGivenOrigin o (translateToGivenOrigin o p ax ay bx by_)
    bx by_ cx cy = translateToGivenOrigin o p ax ay cx cy /\
  translateToGivenOrigin o p ax ay ax ay = p.
Proof.
  rewrite !translateToGivenOrigin_closed. destruct p as [px py]. simpl.
  split; f_equal; ring.
Qed.

(** The identity [cos^2 + sin^2 = 1] in the form [ring] can use. *)
Lemma sin_sqr (th : R) : sin th * sin th = 1 - cos th * cos th.
Proof. generalize (sin2_cos2 th). unfold Rsqr. lra. Qed.

Lemma translateToOriginPoint_center
  (o : FabricObject.t) (p : Point) (ox oy : TOrigin) :
  translateToOriginPoint o (translateToCenterPoint o p ox oy) ox oy = p.
Proof.
  unfold translateToOriginPoint, translateToCenterPoint.
  rewrite !translateToGivenOrigin_closed. destruct p as [px py].
  destruct (truthy (FabricObject.angle o)); simpl.
  - unfold Point.rotate, Point.add, Point.subtract; simpl.
    pose proof (sin_sqr (degreesToRadians (FabricObject.angle o))) as Hs.
    f_equal; ring [Hs].
  - f_equal; ring.
Qed.

Lemma translateToCenterPoint_origin
  (o : FabricObject.t) (c : Point) (ox oy : TOrigin) :
  translateToCenterPoint o (translateToOriginPoint o c ox oy) ox oy = c.
Proof.
  unfold translateToOriginPoint, translateToCenterPoint.
  rewrite !translateToGivenOrigin_closed. destruct c as [px py].
  destruct (truthy (FabricObject.angle o)); simpl.
  - unfold Point.rotate, Point.add, Point.subtract; simpl.
    pose proof (sin_sqr (degreesToRadians (FabricObject.angle o))) as Hs.
    f_equal; ring [Hs].
  - f_equal; ring.
Qed.

(** X13: [translateToOriginPoint] and [translateToCenterPoint] undo each
    other for every origin, angle and size: the origin point of the center
    of a point is the point, and the center of the origin point of a
    center is the center. *)
Theorem translateToCenterPoint_roundtrip
  (o : FabricObject.t) (p : Point) (ox oy : TOrigin) :
  translateToOriginPoint o (translateToCenterPoint o p ox oy) ox oy = p /\
  translateToCenterPoint o (translateToOriginPoint o p ox oy) ox oy = p.
Proof.
  split; [apply translateToOriginPoint_center | apply translateToCenterPoint_origin].
Qed.

(** X14: after [setPositionByOrigin(pos, originX, originY)] the center of
    the object is the center that [pos] stands for, the point of the
    object at that origin is [pos], and size, scale, skew and angle are as
    before; when the origin is the object's own, [left] and [top] are the
    coordinates of [pos]. *)
Theorem setPositionByOrigin_places
  (o : FabricObject.t) (pos : Point) (ox oy : TOrigin) :
  let o' := setPositionByOrigin o pos ox oy in
  getRelativeCenterPoint o' = translateToCenterPoint o pos ox oy /\
  getPointByOrigin o' ox oy = pos /\
  _getTransformedDimensions o' DimOptions.empty =
    _getTransformedDimensions o DimOptions.empty /\
  FabricObject.angle o' = FabricObject.angle o /\
  (ox = FabricObject.originX o -> oy = FabricObject.originY o ->
   Point.new (FabricObject.left o') (FabricObject.top o') = pos).
Proof.
  cbv zeta.
  assert (Hc : getRelativeCenterPoint (setPositionByOrigin o pos ox oy) =
               translateToCenterPoint o pos ox oy).
  { unfold getRelativeCenterPoint, setPositionByOrigin.
    set (c := translateToCenterPoint o pos ox oy).
    set (q := translateToOriginPoint o c _ _).
    change (translateToCenterPoint o (Point.new (Point.x q) (Point.y q))
              (FabricObject.originX o) (FabricObject.originY o) = c).
    rewrite Point_eta. apply translateToCenterPoint_origin. }
  split; [exact Hc | split; [| split; [reflexivity | split; [reflexivity |]]]].
  - unfold getPointByOrigin. rewrite Hc.
    change (translateToOriginPoint o (translateToCenterPoint o pos ox oy) ox oy
            = pos).
    apply translateToOriginPoint_center.
  - intros -> ->. unfold setPositionByOrigin. simpl.
    rewrite Point_eta. apply translateToOriginPoint_center.
Qed.

Lemma setPositionByOrigin_places_witness :
  Point.new
    (FabricObject.left (setPositionByOrigin scaled_stroked (Point.new 7 9) LEFT TOP))
    (FabricObject.top (setPositionByOrigin scaled_stroked (Point.new 7 9) LEFT TOP))
  = Point.new 7 9.
Proof.
  apply (setPositionByOrigin_places scaled_stroked (Point.new 7 9) LEFT TOP);
    reflexivity.
Defined.

(** X15: for every angle, scale, skew and origin, the four corners of
    [calcACoords] form a rectangle around the center of the object: both
    diagonals have the center as midpoint, the side from [tl] to [tr] has
    the length of the transformed width, the side from [tl] to [bl] the
    length of the transformed height (both as squares), and the two sides
    are perpendicular. *)
Theorem calcACoords_rectangle (o : FabricObject.t) :
  let c := getRelativeCenterPoint o in
  let dim := _getTransformedDimensions o DimOptions.empty in
  let k := calcACoords o in
  let vx p q := Point.x q - Point.x p in
  let vy p q := Point.y q - Point.y p in
  Point.midPointFrom (Corners.tl k) (Corners.br k) = c /\
  Point.midPointFrom (Corners.tr k) (Corners.bl k) = c /\
  pow2 (vx (Corners.tl k) (Corners.tr k)) +
    pow2 (vy (Corners.tl k) (Corners.tr k)) = pow2 (Point.x dim) /\
  pow2 (vx (Corners.tl k) (Corners.bl k)) +
    pow2 (vy (Corners.tl k) (Corners.bl k)) = pow2 (Point.y dim) /\
  vx (Corners.tl k) (Corners.tr k) * vx (Corners.tl k) (Corners.bl k) +
    vy (Corners.tl k) (Corners.tr k) * vy (Corners.tl k) (Corners.bl k) = 0.
Proof.
  cbv zeta. unfold calcACoords.
  generalize (getRelativeCenterPoint o) as c.
  generalize (_getTransformedDimensions o DimOptions.empty) as dim.
  intros [dx dy] [cx cy].
  unfold createRotateMatrix, fcos, fsin, createTranslateMatrix,
    multiplyTransformMatrices, transformPoint, Point_transform,
    Point.midPointFrom, pow2; simpl.
  rewrite truthy_0.
  pose proof (sin_sqr (degreesToRadians (FabricObject.angle o))) as Hs.
  repeat split; try (f_equal; field).
  - replace (dx * dx) with (4 * ((dx / 2) * (dx / 2))) by field.
    generalize (dx / 2) (dy / 2). intros hx hy. ring [Hs].
  - replace (dy * dy) with (4 * ((dy / 2) * (dy / 2))) by field.
    generalize (dx / 2) (dy / 2). intros hx hy. ring [Hs].
Qed.

(** *** Boxes around corners *)

Lemma Rgeb_true (a b : R) : Rgeb a b = true <-> b <= a.
Proof.
  unfold Rgeb. destruct (Rle_dec b a); split; auto; discriminate.
Qed.

Lemma makeBoundingBoxFromPoints_inside (points : list Point) :
  let b := makeBoundingBoxFromPoints points in
  0 <= BBox.width b /\ 0 <= BBox.height b /\
  forall p, In p points ->
    BBox.left b <= Point.x p <= BBox.left b + BBox.width b /\
    BBox.top b <= Point.y p <= BBox.top b + BBox.height b.
Proof.
  cbv zeta. destruct points as [| p0 rest].
  - simpl. repeat split; try lra; try contradiction.
  - assert (Hne : p0 :: rest <> []) by congruence.
    destruct (makeBoundingBoxFromPoints_extrema _ Hne)
      as (minx & miny & maxx & maxy & [Hxi Hx] & [Hyi Hy] & [HXi HX] & [HYi HY] & Hb).
    rewrite Hb. simpl BBox.left. simpl BBox.top. simpl BBox.width.
    simpl BBox.height.
    pose proof (Hx _ HXi). pose proof (Hy _ HYi).
    split; [lra | split; [lra |]].
    intros p Hp.
    pose proof (Hx _ (in_map Point.x _ _ Hp)).
    pose proof (HX _ (in_map Point.x _ _ Hp)).
    pose proof (Hy _ (in_map Point.y _ _ Hp)).
    pose proof (HY _ (in_map Point.y _ _ Hp)).
    repeat split; lra.
Qed.

(** X16: the box of [makeBoundingBoxFromPoints] has a width and a height
    that are not negative and contains every point it was given. *)
Theorem makeBoundingBoxFromPoints_contains (points : list Point) (p : Point) :
  let b := makeBoundingBoxFromPoints points in
  0 <= BBox.width b /\ 0 <= BBox.height b /\
  (In p points ->
   BBox.left b <= Point.x p <= BBox.left b + BBox.width b /\
   BBox.top b <= Point.y p <= BBox.top b + BBox.height b).
Proof.
  cbv zeta. destruct (makeBoundingBoxFromPoints_inside points) as (Hw & Hh & Hin).
  split; [exact Hw | split; [exact Hh | apply Hin]].
Qed.

Lemma makeBoundingBoxFromPoints_contains_witness :
  let b := makeBoundingBoxFromPoints sample_points in
  BBox.left b <= 3 <= BBox.left b + BBox.width b /\
  BBox.top b <= 0 <= BBox.top b + BBox.height b.
Proof.
  apply (makeBoundingBoxFromPoints_contains sample_points (Point.new 3 0)).
  unfold sample_points. right. left. reflexivity.
Defined.

(** The box of four points that are symmetric about [m] in pairs is
    centred on [m]. *)
Lemma box_of_symmetric (a b c d m : Point) :
  Point.x a + Point.x c = 2 * Point.x m ->
  Point.y a + Point.y c = 2 * Point.y m ->
  Point.x b + Point.x d = 2 * Point.x m ->
  Point.y b + Point.y d = 2 * Point.y m ->
  let box := makeBoundingBoxFromPoints [a; b; c; d] in
  BBox.left box + BBox.width box / 2 = Point.x m /\
  BBox.top box + BBox.height box / 2 = Point.y m.
Proof.
  intros Hx1 Hy1 Hx2 Hy2. cbv zeta.
  assert (Hne : [a; b; c; d] <> []) by congruence.
  destruct (makeBoundingBoxFromPoints_extrema _ Hne)
    as (minx & miny & maxx & maxy & [Hxi Hx] & [Hyi Hy] & [HXi HX] & [HYi HY] & Hb).
  rewrite Hb. simpl BBox.left. simpl BBox.top. simpl BBox.width.
  simpl BBox.height. simpl in *.
  assert (Hmx : maxx = 2 * Point.x m - minx).
  { apply Rle_antisym.
    - destruct HXi as [E | [E | [E | [E | []]]]]; subst maxx.
      + pose proof (Hx (Point.x c)). lra.
      + pose proof (Hx (Point.x d)). lra.
      + pose proof (Hx (Point.x a)). lra.
      + pose proof (Hx (Point.x b)). lra.
    - destruct Hxi as [E | [E | [E | [E | []]]]]; subst minx.
      + pose proof (HX (Point.x c)). lra.
      + pose proof (HX (Point.x d)). lra.
      + pose proof (HX (Point.x a)). lra.
      + pose proof (HX (Point.x b)). lra. }
  assert (Hmy : maxy = 2 * Point.y m - miny).
  { apply Rle_antisym.
    - destruct HYi as [E | [E | [E | [E | []]]]]; subst maxy.
      + pose proof (Hy (Point.y c)). lra.
      + pose proof (Hy (Point.y d)). lra.
      + pose proof (Hy (Point.y a)). lra.
      + pose proof (Hy (Point.y b)). lra.
    - destruct Hyi as [E | [E | [E | [E | []]]]]; subst miny.
      + pose proof (HY (Point.y c)). lra.
      + pose proof (HY (Point.y d)). lra.
      + pose proof (HY (Point.y a)). lra.
      + pose proof (HY (Point.y b)). lra. }
  split; lra.
Qed.

(** Opposite corners of [calcACoords] add up to twice the center. *)
Lemma calcACoords_sums (o : FabricObject.t) :
  let c := getRelativeCenterPoint o in
  let k := calcACoords o in
  Point.x (Corners.tl k) + Point.x (Corners.br k) = 2 * Point.x c /\
  Point.y (Corners.tl k) + Point.y (Corners.br k) = 2 * Point.y c /\
  Point.x (Corners.tr k) + Point.x (Corners.bl k) = 2 * Point.x c /\
  Point.y (Corners.tr k) + Point.y (Corners.bl k) = 2 * Point.y c.
Proof.
  cbv zeta. unfold calcACoords.
  generalize (getRelativeCenterPoint o) as c.
  generalize (_getTransformedDimensions o DimOptions.empty) as dim.
  intros [dx dy] [cx cy].
  unfold createRotateMatrix, fcos, fsin, createTranslateMatrix,
    multiplyTransformMatrices, transformPoint, Point_transform; simpl.
  rewrite truthy_0. repeat split; field.
Qed.

(** An affine map takes points that are symmetric about a point to points
    that are symmetric about its image. *)
Lemma transformPoint_symmetric (t : TMat2D) (a c m : Point) :
  Point.x a + Point.x c = 2 * Point.x m ->
  Point.y a + Point.y c = 2 * Point.y m ->
  Point.x (transformPoint a t false) + Point.x (transformPoint c t false) =
    2 * Point.x (transformPoint m t false) /\
  Point.y (transformPoint a t false) + Point.y (transformPoint c t false) =
    2 * Point.y (transformPoint m t false).
Proof.
  intros Hx Hy. unfold transformPoint, Point_transform; simpl. split; nra.
Qed.

(** *** Matrix caches *)

Lemma TOrigin_eqb_refl (a : TOrigin) : TOrigin_eqb a a = true.
Proof. destruct a; reflexivity. Qed.

Lemma KeySegment_eqb_refl (k : KeySegment) : KeySegment_eqb k k = true.
Proof.
  unfold KeySegment_eqb.
  rewrite !Reqb_refl, !TOrigin_eqb_refl, !Bool.eqb_reflx. reflexivity.
Qed.

Lemma key_eqb_refl (k : list KeySegment) : key_eqb k k = true.
Proof.
  induction k as [| s k IH]; simpl; [reflexivity |].
  now rewrite KeySegment_eqb_refl, IH.
Qed.

Lemma transformMatrixKey_unfold (b : bool) (o : FabricObject.t) :
  transformMatrixKey b o =
  match FabricObject.group o with
  | Some g => if b then [] else transformMatrixKey b g
  | None => []
  end ++ [own_key_segment o].
Proof. destruct o. reflexivity. Qed.

Lemma own_key_true (o : FabricObject.t) :
  transformMatrixKey true o = [own_key_segment o].
Proof.
  rewrite transformMatrixKey_unfold. destruct (FabricObject.group o); reflexivity.
Qed.

(** [calcOwnMatrix] answers from its cache or fills it. *)
Lemma calcOwnMatrix_cases (o : FabricObject.t) :
  (exists c, FabricObject.ownMatrixCache o = Some c /\
             key_eqb (cache_key c) (transformMatrixKey true o) = true /\
             calcOwnMatrix o = (cache_value c, o)) \/
  calcOwnMatrix o =
    (own_matrix o,
     FabricObject.set_ownMatrixCache o
       (Some (mkCache (transformMatrixKey true o) (own_matrix o)))).
Proof.
  unfold calcOwnMatrix.
  destruct (FabricObject.ownMatrixCache o) as [c |] eqn:Hc.
  - destruct (key_eqb (cache_key c) (transformMatrixKey true o)) eqn:Hk.
    + left. exists c. auto.
    + right. reflexivity.
  - right. reflexivity.
Qed.

Lemma calcOwnMatrix_again (o : FabricObject.t) :
  calcOwnMatrix (snd (calcOwnMatrix o)) = calcOwnMatrix o.
Proof.
  destruct (calcOwnMatrix_cases o) as [(c & Hc & Hk & Hr) | Hr]; rewrite Hr.
  - simpl. exact Hr.
  - simpl. unfold calcOwnMatrix at 1. simpl FabricObject.ownMatrixCache.
    simpl cache_key. rewrite !own_key_true. simpl own_key_segment.
    rewrite <- (own_key_true o) at 1.
    change (own_key_segment
              (FabricObject.set_ownMatrixCache o
                 (Some (mkCache (transformMatrixKey true o) (own_matrix o)))))
      with (own_key_segment o).
    rewrite own_key_true, key_eqb_refl. reflexivity.
Qed.

Lemma calcTransformMatrix_unfold (sg : bool) (o : FabricObject.t) :
  calcTransformMatrix sg o =
  let '(matrix, this1) := calcOwnMatrix o in
  match FabricObject.group o with
  | None => (matrix, this1)
  | Some g =>
      if sg then (matrix, this1)
      else
        let key := transformMatrixKey sg this1 in
        let compute :=
          let '(gm, g') := calcTransformMatrix false g in
          let matrix' := multiplyTransformMatrices gm matrix false in
          (matrix',
           FabricObject.set_matrixCache
             (FabricObject.set_group this1 (Some g'))
             (Some (mkCache key matrix'))) in
        match FabricObject.matrixCache this1 with
        | Some cache =>
            if key_eqb (cache_key cache) key then (cache_value cache, this1)
            else compute
        | None => compute
        end
  end.
Proof. destruct o. reflexivity. Qed.

Lemma chain_matrix_unfold (o : FabricObject.t) :
  chain_matrix o =
  match FabricObject.group o with
  | Some g => multiplyTransformMatrices (chain_matrix g) (own_matrix o) false
  | None => own_matrix o
  end.
Proof. destruct o. reflexivity. Qed.

Lemma coherent_unfold (o : FabricObject.t) :
  coherent o =
  (match FabricObject.ownMatrixCache o with
   | Some c =>
       key_eqb (cache_key c) (transformMatrixKey true o) = true ->
       cache_value c = own_matrix o
   | None => True
   end /\
   match FabricObject.group o with
   | Some g =>
       match FabricObject.matrixCache o with
       | Some c =>
           key_eqb (cache_key c) (transformMatrixKey false o) = true ->
           cache_value c = chain_matrix o
       | None => True
       end /\ coherent g
   | None => True
   end).
Proof. destruct o. reflexivity. Qed.

Lemma cold_coherent (o : FabricObject.t) : cold o -> coherent o.
Proof.
  induction o as [o IH] using FabricObject_chain_ind.
  rewrite coherent_unfold. destruct o; simpl in *.
  intros (-> & -> & Hg). split; [exact I |].
  destruct group; [| exact I]. split; [exact I | apply IH; exact Hg].
Qed.

(** What [calcOwnMatrix] leaves behind differs from the object in its own
    cache only, and that cache answers for the object. *)
Lemma calcOwnMatrix_frame (o : FabricObject.t) :
  exists c,
    snd (calcOwnMatrix o) = FabricObject.set_ownMatrixCache o (Some c) /\
    key_eqb (cache_key c) (transformMatrixKey true o) = true /\
    cache_value c = fst (calcOwnMatrix o) /\
    (coherent o -> cache_value c = own_matrix o).
Proof.
  destruct (calcOwnMatrix_cases o) as [(c & Hc & Hk & Hr) | Hr]; rewrite Hr;
    simpl.
  - exists c. repeat split; auto.
    + destruct o; simpl in *. now subst.
    + rewrite coherent_unfold, Hc. intros [H _]. auto.
  - eexists. repeat split; simpl; auto. apply key_eqb_refl.
Qed.

(** The whole story of [calcTransformMatrix] on an object [o], by
    induction along its groups. *)
Lemma calcTransformMatrix_spec (o : FabricObject.t) :
  forall sg,
    (forall b, transformMatrixKey b (snd (calcTransformMatrix sg o)) =
               transformMatrixKey b o) /\
    own_matrix (snd (calcTransformMatrix sg o)) = own_matrix o /\
    chain_matrix (snd (calcTransformMatrix sg o)) = chain_matrix o /\
    calcTransformMatrix sg (snd (calcTransformMatrix sg o)) =
      calcTransformMatrix sg o /\
    (coherent o ->
     fst (calcTransformMatrix sg o) =
       (if sg then own_matrix o else chain_matrix o) /\
     coherent (snd (calcTransformMatrix sg o))).
Proof.
  induction o as [o IH] using FabricObject_chain_ind. intro sg.
  destruct (calcOwnMatrix_frame o) as (c & Hsnd & Hck & Hcv & Hcoh).
  pose proof (calcOwnMatrix_again o) as Hagain.
  rewrite (calcTransformMatrix_unfold sg o).
  destruct (calcOwnMatrix o) as [matrix this1] eqn:Hown.
  cbn [fst snd] in *. subst this1.
  set (this1 := FabricObject.set_ownMatrixCache o (Some c)) in *.
  assert (Hg1 : FabricObject.group this1 = FabricObject.group o) by reflexivity.
  assert (Hk1 : forall b, transformMatrixKey b this1 = transformMatrixKey b o).
  { intro b. rewrite !transformMatrixKey_unfold. reflexivity. }
  assert (Hm1 : own_matrix this1 = own_matrix o) by reflexivity.
  assert (Hc1 : chain_matrix this1 = chain_matrix o).
  { rewrite !chain_matrix_unfold. reflexivity. }
  assert (Hcoh1 : coherent o -> coherent this1).
  { intro H. pose proof (Hcoh H) as Hv. rewrite coherent_unfold in H |- *.
    destruct H as [_ H2]. rewrite Hg1, (Hk1 false), Hc1.
    change (FabricObject.matrixCache this1) with (FabricObject.matrixCache o).
    split.
    - simpl FabricObject.ownMatrixCache. intros _. rewrite Hm1. exact Hv.
    - exact H2. }
  assert (Hleaf :
    (forall b, transformMatrixKey b this1 = transformMatrixKey b o) /\
    own_matrix this1 = own_matrix o /\
    chain_matrix this1 = chain_matrix o).
  { auto. }
  destruct (FabricObject.group o) as [g |] eqn:Hg.
  - (* in a group *)
    specialize (IH false).
    destruct IH as (IHk & IHm & IHc & _ & IHcoh).
    destruct sg.
    + (* skipGroup *)
      cbn [fst snd].
      destruct Hleaf as (L1 & L2 & L3).
      split; [exact L1 | split; [exact L2 | split; [exact L3 | split]]].
      * rewrite (calcTransformMatrix_unfold true this1), Hagain, Hg1.
        reflexivity.
      * intro H. split; [rewrite <- Hcv; apply Hcoh; exact H | apply Hcoh1; exact H].
    + set (key := transformMatrixKey false this1).
      destruct (calcTransformMatrix false g) as [gm g'] eqn:Hgcalc.
      cbn [fst snd] in *.
      set (final :=
             FabricObject.set_matrixCache
               (FabricObject.set_group this1 (Some g'))
               (Some (mkCache key (multiplyTransformMatrices gm matrix false)))).
      assert (Hkf : forall b, transformMatrixKey b final = transformMatrixKey b o).
      { intro b. rewrite (transformMatrixKey_unfold b final).
        rewrite (transformMatrixKey_unfold b o), Hg.
        simpl FabricObject.group. cbv iota.
        destruct b; [reflexivity |]. rewrite IHk. reflexivity. }
      assert (Hmf : own_matrix final = own_matrix o) by reflexivity.
      assert (Hcf : chain_matrix final = chain_matrix o).
      { rewrite (chain_matrix_unfold final), (chain_matrix_unfold o), Hg.
        simpl FabricObject.group. cbv iota. rewrite IHc. reflexivity. }
      assert (Hownf : calcOwnMatrix final = (matrix, final)).
      { unfold calcOwnMatrix. simpl FabricObject.ownMatrixCache.
        rewrite (Hkf true), Hck, Hcv. reflexivity. }
      assert (Hfinal_again :
        calcTransformMatrix false final =
          (multiplyTransformMatrices gm matrix false, final)).
      { rewrite (calcTransformMatrix_unfold false final), Hownf.
        simpl FabricObject.group. simpl FabricObject.matrixCache.
        simpl cache_key. unfold key. rewrite (Hkf false), (Hk1 false).
        rewrite key_eqb_refl. reflexivity. }
      assert (Hfinal_coh :
        coherent o ->
        multiplyTransformMatrices gm matrix false = chain_matrix o /\
        coherent final).
      { intro H. pose proof (Hcoh H) as Hv.
        pose proof (Hcoh1 H) as H1.
        assert (Hgco : coherent g).
        { rewrite coherent_unfold, Hg in H. tauto. }
        destruct (IHcoh Hgco) as [Hgm Hg'].
        assert (Hval : multiplyTransformMatrices gm matrix false = chain_matrix o).
        { rewrite (chain_matrix_unfold o), Hg, <- Hgm, <- Hv, Hcv. reflexivity. }
        split; [exact Hval |].
        rewrite coherent_unfold. simpl FabricObject.ownMatrixCache.
        simpl FabricObject.group. simpl FabricObject.matrixCache. split.
        - intros _. rewrite Hmf. exact Hv.
        - split; [| exact Hg']. intros _. simpl cache_value.
          rewrite Hcf. exact Hval. }
      destruct (FabricObject.matrixCache this1) as [cache |] eqn:Hmc.
      * destruct (key_eqb (cache_key cache) key) eqn:Hkey.
        -- (* the full cache answers *)
           cbn [fst snd].
           destruct Hleaf as (L1 & L2 & L3).
           split; [exact L1 | split; [exact L2 | split; [exact L3 | split]]].
           ++ rewrite (calcTransformMatrix_unfold false this1), Hagain, Hg1.
              cbv zeta. rewrite Hmc. unfold key in Hkey. rewrite Hkey.
              reflexivity.
           ++ intro H. split; [| apply Hcoh1; exact H].
              rewrite coherent_unfold, Hg in H. destruct H as [_ [H _]].
              change (FabricObject.matrixCache o) with
                (FabricObject.matrixCache this1) in H.
              rewrite Hmc in H. apply H. unfold key in Hkey.
              rewrite (Hk1 false) in Hkey. exact Hkey.
        -- cbn [fst snd]. fold final.
           split; [exact Hkf | split; [exact Hmf | split; [exact Hcf | split]]].
           ++ exact Hfinal_again.
           ++ exact Hfinal_coh.
      * cbn [fst snd]. fold final.
        split; [exact Hkf | split; [exact Hmf | split; [exact Hcf | split]]].
        ++ exact Hfinal_again.
        ++ exact Hfinal_coh.
  - (* not in a group *)
    cbn [fst snd].
    destruct Hleaf as (L1 & L2 & L3).
    split; [exact L1 | split; [exact L2 | split; [exact L3 | split]]].
    + rewrite (calcTransformMatrix_unfold sg this1), Hagain, Hg1.
      reflexivity.
    + intro H. split; [| apply Hcoh1; exact H].
      rewrite <- Hcv, (Hcoh H). rewrite (chain_matrix_unfold o), Hg.
      destruct sg; reflexivity.
Qed.

(** X19: when the caches of an object and of its groups are coherent, in
    particular when they are empty, [calcTransformMatrix] returns the
    product of the own matrices from the outermost group down to the
    object, or the own matrix alone when [skipGroup] is set, and leaves
    coherent caches behind. *)
Theorem calcTransformMatrix_coherent (o : FabricObject.t) (skipGroup : bool) :
  coherent o ->
  fst (calcTransformMatrix skipGroup o) =
    (if skipGroup then own_matrix o else chain_matrix o) /\
  coherent (snd (calcTransformMatrix skipGroup o)).
Proof.
  intro H. destruct (calcTransformMatrix_spec o skipGroup) as (_ & _ & _ & _ & K).
  apply K. exact H.
Qed.

Lemma calcTransformMatrix_coherent_witness :
  fst (calcTransformMatrix false sample_child) =
    multiplyTransformMatrices (own_matrix sample_group)
      (own_matrix sample_child) false /\
  coherent (snd (calcTransformMatrix false sample_child)).
Proof.
  apply (calcTransformMatrix_coherent sample_child false).
  apply cold_coherent. simpl. repeat split.
Defined.

(** X20: whatever the caches hold, [calcTransformMatrix] changes nothing
    but caches (the fingerprints and the own matrices of the object and of
    its groups are the same afterwards), and a second call answers with
    the same matrix and leaves the object as the first call left it. *)
Theorem calcTransformMatrix_again (o : FabricObject.t) (skipGroup b : bool) :
  calcTransformMatrix skipGroup (snd (calcTransformMatrix skipGroup o)) =
    calcTransformMatrix skipGroup o /\
  transformMatrixKey b (snd (calcTransformMatrix skipGroup o)) =
    transformMatrixKey b o /\
  own_matrix (snd (calcTransformMatrix skipGroup o)) = own_matrix o /\
  chain_matrix (snd (calcTransformMatrix skipGroup o)) = chain_matrix o.
Proof.
  destruct (calcTransformMatrix_spec o skipGroup) as (Hk & Hm & Hc & Ha & _).
  auto.
Qed.

Lemma own_matrix_translation (o : FabricObject.t) :
  m4 (own_matrix o) = Point.x (getRelativeCenterPoint o) /\
  m5 (own_matrix o) = Point.y (getRelativeCenterPoint o).
Proof.
  unfold own_matrix. rewrite composeMatrix_closed. simpl. auto.
Qed.

(** X21: the fingerprint of [transformMatrixKey] does not cover
    [strokeUniform], which the center of an object depends on: for an
    object anchored off its center on x, not rotated or skewed, with a
    stroke and a horizontal scale other than 1, [calcOwnMatrix] after a
    change of [strokeUniform] still answers from its cache, with a matrix
    that is not the one the changed object computes. *)
Theorem calcOwnMatrix_stale_strokeUniform (o : FabricObject.t) :
  FabricObject.ownMatrixCache o = None ->
  resolveOrigin (FabricObject.originX o) <> 1 / 2 ->
  FabricObject.angle o = 0 ->
  FabricObject.skewX o = 0 -> FabricObject.skewY o = 0 ->
  FabricObject.strokeWidth o <> 0 -> FabricObject.scaleX o <> 1 ->
  let o1 := snd (calcOwnMatrix o) in
  let o2 := set_strokeUniform o1 (negb (FabricObject.strokeUniform o)) in
  transformMatrixKey true o2 = transformMatrixKey true o /\
  fst (calcOwnMatrix o2) = fst (calcOwnMatrix o) /\
  fst (calcOwnMatrix o2) <> own_matrix o2.
Proof.
  intros Hcache Hox Hang Hkx Hky Hsw Hsx. cbv zeta.
  assert (Hfirst : calcOwnMatrix o =
            (own_matrix o,
             FabricObject.set_ownMatrixCache o
               (Some (mkCache (transformMatrixKey true o) (own_matrix o))))).
  { unfold calcOwnMatrix. rewrite Hcache. reflexivity. }
  rewrite Hfirst. cbn [fst snd].
  set (o2 := set_strokeUniform _ _).
  assert (Hkey : transformMatrixKey true o2 = transformMatrixKey true o).
  { rewrite !own_key_true. reflexivity. }
  assert (Hsecond : fst (calcOwnMatrix o2) = own_matrix o).
  { unfold calcOwnMatrix. simpl FabricObject.ownMatrixCache. simpl cache_key.
    rewrite Hkey, key_eqb_refl. reflexivity. }
  split; [exact Hkey | split; [exact Hsecond |]].
  rewrite Hsecond. intro Heq.
  apply (f_equal m4) in Heq.
  destruct (own_matrix_translation o) as [Hx _].
  destruct (own_matrix_translation o2) as [Hx2 _].
  rewrite Hx, Hx2 in Heq.
  unfold getRelativeCenterPoint, translateToCenterPoint in Heq.
  rewrite !translateToGivenOrigin_closed in Heq.
  change (FabricObject.angle o2) with (FabricObject.angle o) in Heq.
  rewrite Hang, truthy_0 in Heq. simpl Point.x in Heq.
  unfold _getTransformedDimensions in Heq. simpl in Heq.
  rewrite Hkx, Hky, Reqb_refl in Heq. simpl in Heq.
  destruct (FabricObject.strokeUniform o); simpl in Heq.
  - assert (Hd : (1 / 2 - resolveOrigin (FabricObject.originX o)) *
                 (FabricObject.strokeWidth o * (FabricObject.scaleX o - 1)) = 0)
      by lra.
    apply Rmult_integral in Hd. destruct Hd as [Hd | Hd]; [lra |].
    apply Rmult_integral in Hd. destruct Hd; lra.
  - assert (Hd : (1 / 2 - resolveOrigin (FabricObject.originX o)) *
                 (FabricObject.strokeWidth o * (FabricObject.scaleX o - 1)) = 0)
      by lra.
    apply Rmult_integral in Hd. destruct Hd as [Hd | Hd]; [lra |].
    apply Rmult_integral in Hd. destruct Hd; lra.
Qed.

Lemma calcOwnMatrix_stale_strokeUniform_witness :
  let o2 := set_strokeUniform (snd (calcOwnMatrix scaled_stroked)) true in
  fst (calcOwnMatrix o2) = fst (calcOwnMatrix scaled_stroked) /\
  fst (calcOwnMatrix o2) <> own_matrix o2.
Proof.
  apply (calcOwnMatrix_stale_strokeUniform scaled_stroked); simpl;
    try reflexivity; lra.
Defined.

(** X22: the own matrix of an object sends the origin of its plane to its
    center, and when the object has no skew and its stroke is not uniform,
    it sends the corners of the box of its width and height plus stroke,
    centred on that origin, to the corners of [calcACoords], whatever the
    scale, the flips being off. *)
Theorem own_matrix_corners (o : FabricObject.t) :
  transformPoint (Point.new 0 0) (own_matrix o) false =
    getRelativeCenterPoint o /\
  (FabricObject.skewX o = 0 -> FabricObject.skewY o = 0 ->
   FabricObject.strokeUniform o = false ->
   FabricObject.flipX o = false -> FabricObject.flipY o = false ->
   let w := (FabricObject.width o + FabricObject.strokeWidth o) / 2 in
   let h := (FabricObject.height o + FabricObject.strokeWidth o) / 2 in
   calcACoords o =
     Corners.make
       (transformPoint (Point.new (- w) (- h)) (own_matrix o) false)
       (transformPoint (Point.new w (- h)) (own_matrix o) false)
       (transformPoint (Point.new (- w) h) (own_matrix o) false)
       (transformPoint (Point.new w h) (own_matrix o) false)).
Proof.
  split.
  - destruct (own_matrix_translation o) as [Hx Hy].
    unfold transformPoint, Point_transform. rewrite Hx, Hy.
    destruct (getRelativeCenterPoint o) as [cx cy]. simpl. f_equal; ring.
  - intros Hkx Hky Hsu Hfx Hfy. cbv zeta.
    unfold calcACoords, own_matrix.
    rewrite composeMatrix_closed, calcDimensionsMatrix_closed. simpl.
    unfold _getTransformedDimensions. simpl.
    rewrite Hkx, Hky, Hsu, Hfx, Hfy, Reqb_refl, angleToSkew_0. simpl.
    generalize (getRelativeCenterPoint o) as c. intros [cx cy].
    unfold createRotateMatrix, fcos, fsin, createTranslateMatrix,
      multiplyTransformMatrices, transformPoint, Point_transform,
      Point.scalarAdd; simpl.
    rewrite truthy_0. f_equal; f_equal; field.
Qed.

Lemma own_matrix_corners_witness :
  calcACoords scaled_stroked =
    Corners.make
      (transformPoint (Point.new (- ((100 + 4) / 2)) (- ((50 + 4) / 2)))
         (own_matrix scaled_stroked) false)
      (transformPoint (Point.new ((100 + 4) / 2) (- ((50 + 4) / 2)))
         (own_matrix scaled_stroked) false)
      (transformPoint (Point.new (- ((100 + 4) / 2)) ((50 + 4) / 2))
         (own_matrix scaled_stroked) false)
      (transformPoint (Point.new ((100 + 4) / 2) ((50 + 4) / 2))
         (own_matrix scaled_stroked) false).
Proof.
  apply (own_matrix_corners scaled_stroked); reflexivity.
Defined.



(** *** Coordinates for intersection *)

Lemma same_group_matrix_refl (o : FabricObject.t) : same_group_matrix o o.
Proof.
  unfold same_group_matrix. destruct (FabricObject.group o) as [g |].
  - exists g. auto.
  - reflexivity.
Qed.

(** [calcTransformMatrix] leaves the center of the object where it is and
    the matrix of its group as it answers. *)
Lemma calcTransformMatrix_keeps (sg : bool) (o : FabricObject.t) :
  getRelativeCenterPoint (snd (calcTransformMatrix sg o)) =
    getRelativeCenterPoint o /\
  same_group_matrix o (snd (calcTransformMatrix sg o)).
Proof.
  split.
  - destruct (calcTransformMatrix_spec o sg) as (_ & Hown & _).
    destruct (own_matrix_translation o) as [Hx Hy].
    destruct (own_matrix_translation (snd (calcTransformMatrix sg o)))
      as [Hx1 Hy1].
    rewrite Hown in Hx1, Hy1.
    rewrite <- (Point_eta (getRelativeCenterPoint o)).
    rewrite <- (Point_eta (getRelativeCenterPoint _)).
    congruence.
  - unfold same_group_matrix.
    destruct (calcOwnMatrix_frame o) as (c & Hsnd & _).
    rewrite (calcTransformMatrix_unfold sg o).
    destruct (calcOwnMatrix o) as [matrix this1]. cbn [snd] in Hsnd.
    subst this1.
    change (FabricObject.matrixCache
              (FabricObject.set_ownMatrixCache o (Some c)))
      with (FabricObject.matrixCache o).
    destruct (FabricObject.group o) as [g |] eqn:Hg.
    + destruct sg; [exists g; auto |].
      assert (Hcompute :
        exists g1,
          FabricObject.group
            (snd (let '(gm, g') := calcTransformMatrix false g in
                  (multiplyTransformMatrices gm matrix false,
                   FabricObject.set_matrixCache
                     (FabricObject.set_group
                        (FabricObject.set_ownMatrixCache o (Some c))
                        (Some g'))
                     (Some
                        (mkCache
                           (transformMatrixKey false
                              (FabricObject.set_ownMatrixCache o (Some c)))
                           (multiplyTransformMatrices gm matrix false))))))
          = Some g1 /\
          fst (calcTransformMatrix false g1) =
            fst (calcTransformMatrix false g)).
      { destruct (calcTransformMatrix_spec g false) as (_ & _ & _ & Hagain & _).
        destruct (calcTransformMatrix false g) as [gm g'] eqn:Hcg.
        cbn [snd] in *. exists g'. split; [reflexivity |].
        now rewrite Hagain. }
      cbv zeta.
      destruct (FabricObject.matrixCache o) as [cache |].
      * destruct (key_eqb _ _); [exists g; auto | exact Hcompute].
      * exact Hcompute.
    + exact Hg.
Qed.

Lemma getTotalAngle_keeps (o : FabricObject.t) :
  getRelativeCenterPoint (snd (getTotalAngle o)) = getRelativeCenterPoint o /\
  same_group_matrix o (snd (getTotalAngle o)).
Proof.
  unfold getTotalAngle. destruct (FabricObject.group o) eqn:Hg.
  - destruct (calcTransformMatrix_keeps false o) as [Hc Hs].
    destruct (calcTransformMatrix false o) as [m this1]. cbn [snd] in *.
    auto.
  - split; [reflexivity |]. unfold same_group_matrix. now rewrite Hg.
Qed.

(** The corners of [calcLineCoords] are symmetric about the center seen
    through the viewport, whatever the padding. *)
Lemma calcLineCoords_symmetric
  (o : FabricObject.t) (padding : R) (viewportTransform : option TMat2D) :
  symmetric_about (fst (calcLineCoords o padding viewportTransform))
    (transformPoint (getRelativeCenterPoint o)
       (dflt viewportTransform iMatrix) false) /\
  snd (calcLineCoords o padding viewportTransform) = snd (getTotalAngle o).
Proof.
  unfold calcLineCoords.
  destruct (getTotalAngle_keeps o) as [Hc _].
  destruct (getTotalAngle o) as [totalAngle this1]. cbn [snd] in Hc.
  destruct (calcACoords_sums this1) as (H1 & H2 & H3 & H4).
  rewrite Hc in H1, H2, H3, H4.
  destruct (transformPoint_symmetric (dflt viewportTransform iMatrix)
              _ _ _ H1 H2) as [K1 K2].
  destruct (transformPoint_symmetric (dflt viewportTransform iMatrix)
              _ _ _ H3 H4) as [K3 K4].
  destruct (truthy padding); cbn [fst snd]; (split; [| reflexivity]);
    unfold symmetric_about; cbn [Corners.tl Corners.tr Corners.bl Corners.br
                                 Point.x Point.y];
    repeat split; lra.
Qed.

Lemma line_coords_spec (this : ObjectGeometry.t) :
  symmetric_about (fst (line_coords this))
    (transformPoint (getRelativeCenterPoint (ObjectGeometry.object this))
       (dflt (ObjectGeometry.viewportTransform this) iMatrix) false) /\
  snd (line_coords this) =
    ObjectGeometry.set_object this
      (snd (getTotalAngle (ObjectGeometry.object this))).
Proof.
  unfold line_coords.
  destruct (calcLineCoords_symmetric (ObjectGeometry.object this)
              (ObjectGeometry.padding this)
              (ObjectGeometry.viewportTransform this)) as [Hs Ho].
  destruct (calcLineCoords _ _ _) as [l o]. cbn [fst snd] in *.
  split; [exact Hs | now rewrite Ho].
Qed.

(** What [_getCoords] returns when it calculates, or finds nothing
    stored, and what it leaves of the object in every case. *)
Lemma _getCoords_spec (this : ObjectGeometry.t) (absolute calculate : bool) :
  let o := ObjectGeometry.object this in
  let c := getRelativeCenterPoint o in
  let r := _getCoords this absolute calculate in
  same_group_matrix o (ObjectGeometry.object (snd r)) /\
  (calculate = true \/
   (if absolute then ObjectGeometry.aCoords this
    else ObjectGeometry.lineCoords this) = None ->
   symmetric_about (fst r)
     (if absolute then c
      else transformPoint c
             (dflt (ObjectGeometry.viewportTransform this) iMatrix) false)).
Proof.
  cbv zeta. unfold _getCoords.
  pose proof (calcACoords_sums (ObjectGeometry.object this)) as Ha.
  destruct (line_coords_spec this) as [Hl Hlo].
  destruct (getTotalAngle_keeps (ObjectGeometry.object this)) as [_ Hg].
  destruct calculate.
  - destruct absolute.
    + split; [apply same_group_matrix_refl | intros _; exact Ha].
    + rewrite Hlo. split; [exact Hg | intros _; exact Hl].
  - destruct (ObjectGeometry.aCoords this) as [a |] eqn:Hsa.
    + destruct (ObjectGeometry.lineCoords this) as [l |] eqn:Hsl.
      * cbn [fst snd]. split; [apply same_group_matrix_refl |].
        intros [H | H]; [discriminate |]. destruct absolute; discriminate.
      * destruct (line_coords this) as [l this'] eqn:Hlc.
        cbn [fst snd] in *. subst this'. split; [exact Hg |].
        intros [H | H]; [discriminate |].
        destruct absolute; [discriminate | exact Hl].
    + cbn [ObjectGeometry.lineCoords ObjectGeometry.set_aCoords].
      destruct (ObjectGeometry.lineCoords this) as [l |] eqn:Hsl.
      * cbn [fst snd]. split; [apply same_group_matrix_refl |].
        intros [H | H]; [discriminate |].
        destruct absolute; [exact Ha | discriminate].
      * destruct (line_coords_spec
                    (ObjectGeometry.set_aCoords this
                       (Some (calcACoords (ObjectGeometry.object this)))))
          as [Hl' Hlo'].
        destruct (line_coords (ObjectGeometry.set_aCoords this _))
          as [l this'] eqn:Hlc.
        cbn [fst snd] in *. subst this'. split; [exact Hg |].
        intros _. destruct absolute; [exact Ha | exact Hl'].
Qed.

(** [getCoords] returns four points. *)
Lemma getCoords_four (this : ObjectGeometry.t) (absolute calculate : bool) :
  exists a b c d, fst (getCoords this absolute calculate) = [a; b; c; d].
Proof.
  unfold getCoords. destruct (_getCoords this absolute calculate) as [k this1].
  destruct (FabricObject.group (ObjectGeometry.object this1)) as [g |].
  - destruct (calcTransformMatrix false g) as [t g']. simpl.
    do 4 eexists. reflexivity.
  - do 4 eexists. reflexivity.
Qed.

(** X17: when [getCoords(absolute, calculate)] calculates the
    coordinates, or finds none stored of the kind it is asked for, the
    box around the points it returns is centred on the center of the
    object, seen through the viewport transform unless [absolute] is
    set, and then through the matrix of the group if the object is in
    one; with [absolute] set that is the point [getCenterPoint]
    returns. *)
Theorem getCoords_box_centre
  (this : ObjectGeometry.t) (absolute calculate : bool) :
  calculate = true \/
  (if absolute then ObjectGeometry.aCoords this
   else ObjectGeometry.lineCoords this) = None ->
  let o := ObjectGeometry.object this in
  let vpt := dflt (ObjectGeometry.viewportTransform this) iMatrix in
  let c := getRelativeCenterPoint o in
  let seen := if absolute then c else transformPoint c vpt false in
  let centre :=
    match FabricObject.group o with
    | Some g => transformPoint seen (fst (calcTransformMatrix false g)) false
    | None => seen
    end in
  let box :=
    makeBoundingBoxFromPoints (fst (getCoords this absolute calculate)) in
  BBox.left box + BBox.width box / 2 = Point.x centre /\
  BBox.top box + BBox.height box / 2 = Point.y centre /\
  (absolute = true -> centre = fst (getCenterPoint o)).
Proof.
  intro Hmode. cbv zeta.
  destruct (_getCoords_spec this absolute calculate) as [Hg Hsym].
  specialize (Hsym Hmode). cbv zeta in Hg, Hsym.
  unfold getCoords.
  destruct (_getCoords this absolute calculate) as [k this1].
  cbn [fst snd] in Hg, Hsym.
  destruct Hsym as (H1 & H2 & H3 & H4).
  unfold same_group_matrix in Hg.
  assert (Hcentre : absolute = true ->
    match FabricObject.group (ObjectGeometry.object this) with
    | Some g =>
        transformPoint
          (if absolute then getRelativeCenterPoint (ObjectGeometry.object this)
           else transformPoint
                  (getRelativeCenterPoint (ObjectGeometry.object this))
                  (dflt (ObjectGeometry.viewportTransform this) iMatrix)
                  false)
          (fst (calcTransformMatrix false g)) false
    | None =>
        if absolute then getRelativeCenterPoint (ObjectGeometry.object this)
        else transformPoint
               (getRelativeCenterPoint (ObjectGeometry.object this))
               (dflt (ObjectGeometry.viewportTransform this) iMatrix) false
    end = fst (getCenterPoint (ObjectGeometry.object this))).
  { intros ->. unfold getCenterPoint.
    destruct (FabricObject.group (ObjectGeometry.object this)) as [g |];
      [| reflexivity].
    destruct (calcTransformMatrix false g) as [t g']. reflexivity. }
  destruct (FabricObject.group (ObjectGeometry.object this)) as [g |].
  - destruct Hg as (g1 & Hg1 & Ht). rewrite Hg1.
    destruct (calcTransformMatrix false g1) as [t g'] eqn:Hc1.
    cbn [fst] in Ht. subst t. cbn [fst]. simpl map.
    destruct (transformPoint_symmetric (fst (calcTransformMatrix false g))
                _ _ _ H1 H2) as [K1 K2].
    destruct (transformPoint_symmetric (fst (calcTransformMatrix false g))
                _ _ _ H3 H4) as [K3 K4].
    destruct (box_of_symmetric _ _ _ _ _ K1 K2 K3 K4) as [B1 B2].
    split; [exact B1 | split; [exact B2 | exact Hcentre]].
  - rewrite Hg. cbn [fst].
    destruct (box_of_symmetric _ _ _ _ _ H1 H2 H3 H4) as [B1 B2].
    split; [exact B1 | split; [exact B2 | exact Hcentre]].
Qed.

(** The default call on the zoomed square: the box is centred on the
    image (10, 20) of the center under the viewport transform. *)
Lemma getCoords_box_centre_witness :
  let box :=
    makeBoundingBoxFromPoints (fst (getCoords zoomed_square false false)) in
  BBox.left box + BBox.width box / 2 = 10 /\
  BBox.top box + BBox.height box / 2 = 20.
Proof.
  assert (Hc : getRelativeCenterPoint stroked_square = Point.new 0 0).
  { unfold getRelativeCenterPoint, translateToCenterPoint,
      translateToGivenOrigin, stroked_square; simpl.
    replace (1 / 2 - 1 / 2) with 0 by lra. rewrite truthy_0. reflexivity. }
  destruct (getCoords_box_centre zoomed_square false false) as (Hx & Hy & _).
  - right. reflexivity.
  - cbv zeta.
    change (BBox.left
              (makeBoundingBoxFromPoints
                 (fst (getCoords zoomed_square false false))) +
            BBox.width
              (makeBoundingBoxFromPoints
                 (fst (getCoords zoomed_square false false))) / 2 =
            Point.x (transformPoint (getRelativeCenterPoint stroked_square)
                       (Mat 2 0 0 2 10 20) false)) in Hx.
    change (BBox.top
              (makeBoundingBoxFromPoints
                 (fst (getCoords zoomed_square false false))) +
            BBox.height
              (makeBoundingBoxFromPoints
                 (fst (getCoords zoomed_square false false))) / 2 =
            Point.y (transformPoint (getRelativeCenterPoint stroked_square)
                       (Mat 2 0 0 2 10 20) false)) in Hy.
    rewrite Hc in Hx, Hy. rewrite Hx, Hy.
    unfold transformPoint, Point_transform; simpl. split; lra.
Defined.

(** X18: for every choice of [absolute] and [calculate] and whatever
    coordinates are stored on the object, [isContainedWithinRect]
    answers true exactly when each of the four points that [getCoords]
    returns for the same arguments lies between the two points of the
    rectangle, on both axes. *)
Theorem isContainedWithinRect_iff
  (this : ObjectGeometry.t) (pointTL pointBR : Point)
  (absolute calculate : bool) :
  fst (isContainedWithinRect this pointTL pointBR absolute calculate) = true <->
  forall p, In p (fst (getCoords this absolute calculate)) ->
    Point.x pointTL <= Point.x p <= Point.x pointBR /\
    Point.y pointTL <= Point.y p <= Point.y pointBR.
Proof.
  unfold isContainedWithinRect.
  destruct (getCoords_four this absolute calculate) as (a & b & c & d & Hfour).
  destruct (getCoords this absolute calculate) as [coords this1].
  cbn [fst] in *.
  assert (Hne : coords <> []) by (rewrite Hfour; discriminate).
  destruct (makeBoundingBoxFromPoints_extrema _ Hne)
    as (minx & miny & maxx & maxy & [Hxi Hx] & [Hyi Hy] & [HXi HX] & [HYi HY] & Hb).
  rewrite Hb. simpl BBox.left. simpl BBox.top. simpl BBox.width.
  simpl BBox.height.
  rewrite !andb_true_iff, !Rgeb_true.
  split.
  - intros [[[A B] C] D] p Hp.
    pose proof (Hx _ (in_map Point.x _ _ Hp)).
    pose proof (HX _ (in_map Point.x _ _ Hp)).
    pose proof (Hy _ (in_map Point.y _ _ Hp)).
    pose proof (HY _ (in_map Point.y _ _ Hp)).
    repeat split; lra.
  - intro H.
    apply in_map_iff in Hxi. destruct Hxi as (p1 & E1 & I1).
    apply in_map_iff in Hyi. destruct Hyi as (p2 & E2 & I2).
    apply in_map_iff in HXi. destruct HXi as (p3 & E3 & I3).
    apply in_map_iff in HYi. destruct HYi as (p4 & E4 & I4).
    pose proof (H _ I1). pose proof (H _ I2). pose proof (H _ I3).
    pose proof (H _ I4). subst.
    repeat split; lra.
Qed.

(** *** More stroke capture *)

Lemma Point_eq_false (p q : Point) : Point.eq p q = false -> p <> q.
Proof. intros H ->. rewrite Point_eq_refl in H. discriminate. Qed.

(** X24: [_addPoint] either turns the point away, which happens only
    when two or more points are captured and the point is the last of
    them, and then changes nothing; or it takes the point, which then is
    the last captured point: appended to the points there were, or, when
    a straight line is being drawn and two or more points are captured,
    put in the place of the last one, with [_hasStraightLine] set. *)
Theorem _addPoint_outcome (this : Brush.t) (point : Point) :
  let points := Brush._points this in
  let r := _addPoint this point in
  (fst r = false /\ snd r = this /\
   (2 <= List.length points)%nat /\ last points point = point /\
   Point.eq point (last points point) = true) \/
  (fst r = true /\
   ((Brush.drawStraightLine this = true /\ (2 <= List.length points)%nat /\
     Brush._points (snd r) = removelast points ++ [point] /\
     Brush._hasStraightLine (snd r) = true) \/
    ((Brush.drawStraightLine this = false \/ (List.length points < 2)%nat) /\
     Brush._points (snd r) = points ++ [point] /\
     Brush._hasStraightLine (snd r) = Brush._hasStraightLine this))).
Proof.
  cbv zeta. unfold _addPoint.
  destruct (1 <? List.length (Brush._points this))%nat eqn:Hlen.
  - apply Nat.ltb_lt in Hlen.
    destruct (Point.eq point (last (Brush._points this) point)) eqn:Heq; simpl.
    + left. repeat split; auto. symmetry. apply Point_eq_true. exact Heq.
    + right. split; [reflexivity |].
      destruct (Brush.drawStraightLine this); simpl.
      * left. repeat split; auto.
      * right. repeat split; auto.
  - apply Nat.ltb_ge in Hlen. simpl. right. split; [reflexivity |].
    rewrite andb_false_r. right. repeat split; auto. right. lia.
Qed.

Lemma nth_error_app_last {A : Type} (l : list A) (a b : A) :
  nth_error ((l ++ [a]) ++ [b]) (List.length ((l ++ [a]) ++ [b]) - 2) = Some a /\
  nth_error ((l ++ [a]) ++ [b]) (List.length ((l ++ [a]) ++ [b]) - 1) = Some b.
Proof.
  rewrite !length_app. simpl. split.
  - replace (List.length l + 1 + 1 - 2)%nat with (List.length l) by lia.
    rewrite nth_error_app1 by (rewrite length_app; simpl; lia).
    rewrite nth_error_app2 by lia. now rewrite Nat.sub_diag.
  - replace (List.length l + 1 + 1 - 1)%nat with (List.length (l ++ [a]))
      by (rewrite length_app; simpl; lia).
    rewrite nth_error_app2 by lia. now rewrite Nat.sub_diag.
Qed.

(** X25: on a main event inside the canvas, without the straight-line key
    and with no full render needed, a move to a point [p] other than the
    last captured point [q] appends [p] and draws one curve: from the end
    of the previous curve, with [q] as control point, to the midpoint of
    [q] and [p], which becomes the end that the next curve starts from. *)
Theorem onMouseMove_incremental
  (this : Brush.t) (pts : list Point) (q p : Point) (w : World) :
  Brush._points this = pts ++ [q] ->
  Brush._hasStraightLine this = false ->
  Point.eq p q = false ->
  let mid := Point.midPointFrom q p in
  onMouseMove this p true false false false w =
    Some (Brush.set_oldEnd
            (Brush.set_points (Brush.set_drawStraightLine this false)
               ((pts ++ [q]) ++ [p]))
            (Some mid),
          w,
          Some (mkSegment (Brush.oldEnd this) q mid)).
Proof.
  intros Hpts Hflag Heq. cbv zeta. unfold onMouseMove. simpl negb. cbv iota.
  unfold _addPoint. simpl Brush._points. simpl Brush.drawStraightLine.
  rewrite Hpts, last_last, Heq, andb_false_r. simpl andb at 1. cbv iota.
  simpl Brush._points.
  assert (Hl : (1 <? List.length ((pts ++ [q]) ++ [p]))%nat = true).
  { apply Nat.ltb_lt. rewrite !length_app. simpl. lia. }
  rewrite Hl. simpl andb.
  unfold needsFullRender. simpl Brush._hasStraightLine. rewrite Hflag.
  simpl orb. cbv iota.
  destruct (nth_error_app_last pts q p) as [H1 H2]. rewrite H1, H2.
  reflexivity.
Qed.

Lemma onMouseMove_incremental_witness :
  onMouseMove two_point_brush (Point.new 5 6) true false false false
    sample_world =
    Some (Brush.set_oldEnd
            (Brush.set_points (Brush.set_drawStraightLine two_point_brush false)
               (([Point.new 0 0] ++ [Point.new 3 4]) ++ [Point.new 5 6]))
            (Some (Point.midPointFrom (Point.new 3 4) (Point.new 5 6))),
          sample_world,
          Some (mkSegment None (Point.new 3 4)
                  (Point.midPointFrom (Point.new 3 4) (Point.new 5 6)))).
Proof.
  apply (onMouseMove_incremental two_point_brush [Point.new 0 0]
           (Point.new 3 4) (Point.new 5 6) sample_world).
  - reflexivity.
  - reflexivity.
  - unfold Point.eq. simpl. rewrite (Reqb_neq 5 3) by lra. reflexivity.
Defined.

(** *** More decimation *)

Lemma thin_Subseq (adj : R) (lastPoint : Point) (l : list Point) :
  Subseq (thin adj lastPoint l) l.
Proof.
  revert lastPoint. induction l as [| p l IH]; intro lastPoint; simpl.
  - constructor.
  - destruct (Rgeb _ adj); constructor; apply IH.
Qed.

Lemma thin_spaced (adj : R) (lastPoint : Point) (l : list Point) :
  spaced adj (lastPoint :: thin adj lastPoint l).
Proof.
  revert lastPoint. induction l as [| p l IH]; intro lastPoint.
  - exact I.
  - simpl thin. destruct (Rgeb _ adj) eqn:Hge.
    + split; [now apply Rgeb_true | apply IH].
    + apply IH.
Qed.

Lemma thin_zero (lastPoint : Point) (l : list Point) : thin 0 lastPoint l = l.
Proof.
  revert lastPoint. induction l as [| p l IH]; intro lastPoint; simpl.
  - reflexivity.
  - assert (H : Rgeb (squared_distance lastPoint p) 0 = true).
    { apply Rgeb_true. unfold squared_distance, pow2.
      assert (Hsq : forall v : R, 0 <= v * v) by (intro v; nra).
      apply Rplus_le_le_0_compat; apply Hsq. }
    rewrite H, IH. reflexivity.
Qed.

(** The loop of [decimatePoints], run over the window [l] of the array,
    appends what [thin] keeps of the window. *)
Lemma decimate_loop_thin
  (pre l post : list Point) (adj : R) (lastPoint : Point)
  (newPoints : list Point) :
  decimate_loop (pre ++ l ++ post) adj (List.length l) (List.length pre)
    lastPoint newPoints = Some (newPoints ++ thin adj lastPoint l).
Proof.
  revert pre lastPoint newPoints.
  induction l as [| p l IH]; intros pre lastPoint newPoints.
  - simpl. now rewrite app_nil_r.
  - simpl List.length. simpl decimate_loop.
    rewrite nth_error_app2 by lia. rewrite Nat.sub_diag. simpl nth_error.
    cbv iota.
    assert (Hw : pre ++ p :: l ++ post = (pre ++ [p]) ++ l ++ post)
      by (rewrite <- app_assoc; reflexivity).
    assert (Hi : S (List.length pre) = List.length (pre ++ [p]))
      by (rewrite length_app; simpl; lia).
    rewrite Hw, Hi. simpl thin. fold (squared_distance lastPoint p).
    destruct (Rgeb (squared_distance lastPoint p) adj).
    + rewrite IH. rewrite <- app_assoc. reflexivity.
    + apply IH.
Qed.

Lemma decimatePoints_thin
  (zoom distance : R) (p0 a b : Point) (mid : list Point) :
  decimatePoints zoom (p0 :: mid ++ [a; b]) distance =
    Some (p0 :: thin (pow2 (distance / zoom)) p0 mid ++ [b]).
Proof.
  unfold decimatePoints.
  assert (Hlen : List.length (p0 :: mid ++ [a; b]) = S (S (S (List.length mid))))
    by (simpl; rewrite length_app; simpl; lia).
  rewrite Hlen. simpl Nat.leb. cbv iota. simpl nth_error at 1. cbv iota zeta.
  replace (S (S (S (List.length mid))) - 1 - 1 - 1)%nat with (List.length mid)
    by lia.
  change (p0 :: mid ++ [a; b]) with ([p0] ++ mid ++ [a; b]).
  change 1%nat with (List.length [p0]) at 1.
  rewrite decimate_loop_thin.
  replace (S (S (S (List.length mid))) - 1)%nat
    with (List.length ([p0] ++ mid ++ [a])) by (simpl; rewrite length_app; simpl; lia).
  replace ([p0] ++ mid ++ [a; b]) with (([p0] ++ mid ++ [a]) ++ [b])
    by (simpl; rewrite <- app_assoc; reflexivity).
  rewrite nth_error_app2 by lia. rewrite Nat.sub_diag. reflexivity.
Qed.

(** X26: on three or more points and a zoom other than 0 (at zoom 0 the
    threshold of the code is not a number), [decimatePoints] keeps the
    first point and the last point and never keeps the point before the
    last, whatever its distance; of the points between it keeps some, in their order, and each point kept is at
    squared distance [(distance / zoom)^2] or more from the point kept
    before it. *)
Theorem decimatePoints_shape
  (zoom distance : R) (p0 a b : Point) (mid : list Point) :
  zoom <> 0 ->
  exists kept,
    decimatePoints zoom (p0 :: mid ++ [a; b]) distance =
      Some (p0 :: kept ++ [b]) /\
    Subseq kept mid /\
    spaced (pow2 (distance / zoom)) (p0 :: kept).
Proof.
  intros _. exists (thin (pow2 (distance / zoom)) p0 mid).
  split; [apply decimatePoints_thin | split].
  - apply thin_Subseq.
  - apply thin_spaced.
Qed.

Lemma decimatePoints_shape_witness :
  exists kept,
    decimatePoints 1
      (Point.new 0 0 :: [Point.new 1 0] ++ [Point.new 2 0; Point.new 3 0])
      (4 / 10) =
      Some (Point.new 0 0 :: kept ++ [Point.new 3 0]) /\
    Subseq kept [Point.new 1 0] /\
    spaced (pow2 (4 / 10 / 1)) (Point.new 0 0 :: kept).
Proof.
  apply (decimatePoints_shape 1 (4 / 10) (Point.new 0 0) (Point.new 2 0)
           (Point.new 3 0) [Point.new 1 0]).
  lra.
Defined.

(** X27: with the threshold 0 and a zoom other than 0, [decimatePoints]
    on three or more points removes the point before the last and nothing
    else. *)
Theorem decimatePoints_zero_threshold
  (zoom : R) (p0 a b : Point) (mid : list Point) :
  zoom <> 0 ->
  decimatePoints zoom (p0 :: mid ++ [a; b]) 0 = Some (p0 :: mid ++ [b]).
Proof.
  intros _. rewrite decimatePoints_thin.
  replace (pow2 (0 / zoom)) with 0 by (unfold pow2, Rdiv; ring).
  now rewrite thin_zero.
Qed.

Lemma decimatePoints_zero_threshold_witness :
  decimatePoints 1
    (Point.new 0 0 :: [Point.new 1 0] ++ [Point.new 2 0; Point.new 3 0]) 0 =
    Some (Point.new 0 0 :: [Point.new 1 0] ++ [Point.new 3 0]).
Proof.
  apply (decimatePoints_zero_threshold 1 (Point.new 0 0) (Point.new 2 0)
           (Point.new 3 0) [Point.new 1 0]).
  lra.
Defined.

(** *** What attaching an erase path changes *)

Section MaskProperties.

Variable mergeClipPaths : ClipPath -> ClipPath -> ClipPath.

Lemma only_masks_grow_refl (w : World) : only_masks_grow w w.
Proof.
  split; [reflexivity | split].
  - exists []. split; [now rewrite app_nil_r | constructor].
  - intro j. repeat split; auto. exists []. now rewrite app_nil_r.
Qed.

Lemma only_masks_grow_trans (w1 w2 w3 : World) :
  only_masks_grow w1 w2 -> only_masks_grow w2 w3 -> only_masks_grow w1 w3.
Proof.
  intros (Hc1 & (ev1 & Hl1 & Hf1) & Hs1) (Hc2 & (ev2 & Hl2 & Hf2) & Hs2).
  split; [congruence | split].
  - exists (ev1 ++ ev2). split.
    + rewrite Hl2, Hl1, app_assoc. reflexivity.
    + apply Forall_app. split; assumption.
  - intro j.
    destruct (Hs1 j) as (He1 & Hv1 & Hp1 & Hm1 & (p1 & Hk1) & Hn1).
    destruct (Hs2 j) as (He2 & Hv2 & Hp2 & Hm2 & (p2 & Hk2) & Hn2).
    repeat split; try congruence.
    + exists (p1 ++ p2). rewrite Hk2, Hk1, app_assoc. reflexivity.
    + auto.
Qed.

Lemma attach_to_leaf_grows
  (id : ObjId) (path : Path) (context : option Context) (w : World) :
  only_masks_grow w (res_world (attach_to_leaf id path context w)).
Proof.
  unfold attach_to_leaf.
  replace (geometry (set_eraser (store w id)
             (Some match eraser (store w id) with
                   | Some e => e
                   | None => mkEraser []
                   end)))
    with (geometry (store w id)) by reflexivity.
  destruct (calcTransformMatrix_spec (geometry (store w id)) false)
    as (_ & _ & Hchain & _).
  destruct (calcTransformMatrix false (geometry (store w id))) as [m g].
  cbn [snd] in Hchain. unfold emit, set_store.
  cbn [res_world store canvas log].
  split; [reflexivity | split].
  - eexists. split; [reflexivity |]. repeat constructor.
  - intro j. cbn [store]. destruct (Nat.eq_dec j id) as [-> | Hne].
    + rewrite update_same. simpl. repeat split; auto.
      * unfold mask_paths. simpl.
        destruct (eraser (store w id)); eexists; reflexivity.
      * discriminate.
    + rewrite update_other by exact Hne. repeat split; auto.
      exists []. now rewrite app_nil_r.
Qed.

Lemma clonePathWithClipPath_grows
  (path : Path) (id : ObjId) (clip : ClipPath) (w : World) :
  only_masks_grow w (snd (clonePathWithClipPath mergeClipPaths path id clip w)).
Proof.
  unfold clonePathWithClipPath.
  destruct (calcTransformMatrix_spec (geometry (store w id)) false)
    as (_ & _ & Hchain & _).
  destruct (calcTransformMatrix false (geometry (store w id))) as [m g].
  cbn [snd] in Hchain. unfold set_store. cbn [snd store canvas log].
  split; [reflexivity | split].
  - exists []. split; [now rewrite app_nil_r | constructor].
  - intro j. cbn [store]. destruct (Nat.eq_dec j id) as [-> | Hne].
    + rewrite update_same. simpl. repeat split; auto.
      exists []. now rewrite app_nil_r.
    + rewrite update_other by exact Hne. repeat split; auto.
      exists []. now rewrite app_nil_r.
Qed.

(** A fan-out over [objs] whose every task only lets masks grow. *)
Lemma fold_grows
  (f : option Context * World -> SceneObject -> option Context * World)
  (objs : list SceneObject) :
  (forall c, In c objs -> forall acc, only_masks_grow (snd acc) (snd (f acc c))) ->
  forall acc, only_masks_grow (snd acc) (snd (fold_left f objs acc)).
Proof.
  induction objs as [| c objs IH]; intros Hf acc; simpl.
  - apply only_masks_grow_refl.
  - eapply only_masks_grow_trans.
    + apply Hf. now left.
    + apply IH. intros c' Hc'. apply Hf. now right.
Qed.

(** Every call of [_addPathToObjectEraser] only lets masks grow. *)
Lemma _addPathToObjectEraser_grows_aux
  (obj : SceneObject) (path : Path) (context : option Context) (w : World) :
  only_masks_grow w
    (res_world (_addPathToObjectEraser mergeClipPaths obj path context w)).
Proof.
  revert path context w.
  induction obj as [id kids IH] using SceneObject_nested_ind.
  intros path context w. simpl.
  destruct kids as [objs |]; [| apply attach_to_leaf_grows].
  destruct (is_deep (erasable (store w id))); [| apply attach_to_leaf_grows].
  destruct (existsb _ objs); [| apply only_masks_grow_refl].
  assert (Hfan : forall path1 acc,
    only_masks_grow (snd acc)
      (snd (fold_left
              (fun acc c =>
                 if erasable_truthy (erasable (store w (obj_id c))) then
                   let r :=
                     _addPathToObjectEraser mergeClipPaths c path1 (fst acc)
                       (snd acc) in
                   (res_context r, res_world r)
                 else acc) objs acc))).
  { intros path1 acc. apply fold_grows. intros c Hc acc'.
    destruct (erasable_truthy (erasable (store w (obj_id c)))).
    - simpl. rewrite Forall_forall in IH. apply (IH c Hc).
    - apply only_masks_grow_refl. }
  destruct (clipPath (store w id)) as [clip |].
  - pose proof (clonePathWithClipPath_grows path id clip w) as Hclone.
    destruct (clonePathWithClipPath mergeClipPaths path id clip w)
      as [path1 w1].
    specialize (Hfan path1 (context, w1)).
    destruct (fold_left _ objs (context, w1)) as [context2 w2].
    simpl in *. eapply only_masks_grow_trans; eassumption.
  - specialize (Hfan path (context, w)).
    destruct (fold_left _ objs (context, w)) as [context2 w2].
    simpl in *. exact Hfan.
Qed.

(** X28: whatever the object, the path and the world,
    [_addPathToObjectEraser] leaves the canvas as it is, logs nothing but
    [erasing:end] events of objects, and changes no object's [erasable],
    [visible], [clipPath] or matrix; a mask keeps the paths it had, in
    their order, and paths are only added after them. *)
Theorem _addPathToObjectEraser_only_masks_grow
  (obj : SceneObject) (path : Path) (context : option Context) (w : World) :
  only_masks_grow w
    (res_world (_addPathToObjectEraser mergeClipPaths obj path context w)).
Proof. apply _addPathToObjectEraser_grows_aux. Qed.

(** X29: when the matrix of the path can be inverted,
    [applyClipPathToPath] gives the path a clip path, merged with the
    clip path the path had if it had one, that is never
    [absolutePositioned], keeps the [inverted] flag of the clip path it
    was given and, seen through the matrix of the path, lies where that
    clip path lay: at its own matrix when it was [absolutePositioned],
    else at its matrix inside its container. *)
Theorem applyClipPathToPath_places_clip
  (path : Path) (clip : ClipPath) (container : TMat2D) :
  det (path_transform path) <> 0 ->
  exists c,
    applyClipPathToPath mergeClipPaths path clip container =
      set_path_clipPath path
        (match path_clipPath path with
         | Some own => Some (mergeClipPaths c own)
         | None => Some c
         end) /\
    absolutePositioned c = false /\
    clip_inverted c = clip_inverted clip /\
    multiplyTransformMatrices (path_transform path) (clip_transform c) false =
      (if absolutePositioned clip then clip_transform clip
       else multiplyTransformMatrices container (clip_transform clip) false).
Proof.
  intro Hdet. unfold applyClipPathToPath, applyTransformToClipPath.
  eexists. split; [reflexivity |]. cbn [absolutePositioned clip_inverted
    clip_transform]. repeat split.
  destruct (absolutePositioned clip).
  - rewrite <- multiply_assoc, multiply_invert_r, multiply_id_l by exact Hdet.
    reflexivity.
  - rewrite <- !multiply_assoc. rewrite multiply_invert_r by exact Hdet.
    rewrite multiply_id_l. reflexivity.
Qed.

Lemma existsb_false {A : Type} (f : A -> bool) (l : list A) :
  (forall x, In x l -> f x = false) -> existsb f l = false.
Proof.
  intro H. induction l as [| a l IH]; simpl; [reflexivity |].
  rewrite (H a) by now left. apply IH. intros x Hx. apply H. now right.
Qed.

(** A drawable that is a deep collection without erasable objects: the
    call on it returns [undefined], on which [then] is called. *)
Lemma apply_to_drawable_undefined
  (record : Context -> ObjId -> Context) (path : Path)
  (st : option Context * World) (id : ObjId) (objs : list SceneObject) :
  erasable (store (snd st) id) = ErasableDeep ->
  (forall c, In c objs -> erasable (store (snd st) (obj_id c)) = ErasableFalse) ->
  apply_to_drawable mergeClipPaths (Some (Obj id (Some objs))) record path st =
    None.
Proof.
  destruct st as [context w]. cbn [snd]. intros Hdeep Hkids.
  unfold apply_to_drawable. cbn [obj_id]. rewrite Hdeep. cbn [erasable_truthy].
  cbn [_addPathToObjectEraser]. rewrite Hdeep. cbn [is_deep].
  rewrite existsb_false; [reflexivity |].
  intros c Hc. now rewrite (Hkids c Hc).
Qed.

Lemma apply_to_drawable_grows
  (drawable : option SceneObject) (record : Context -> ObjId -> Context)
  (path : Path) (st st' : option Context * World) :
  apply_to_drawable mergeClipPaths drawable record path st = Some st' ->
  only_masks_grow (snd st) (snd st').
Proof.
  destruct st as [context w]. unfold apply_to_drawable.
  destruct drawable as [d |].
  - destruct (erasable_truthy (erasable (store w (obj_id d)))).
    + pose proof (_addPathToObjectEraser_grows_aux d path None w) as Hg.
      destruct (returned _); [| discriminate].
      intro H. injection H as <-. exact Hg.
    + intro H. injection H as <-. apply only_masks_grow_refl.
  - intro H. injection H as <-. apply only_masks_grow_refl.
Qed.

(** X30: when the background image or the overlay image of the canvas is
    a deep-erasable collection none of whose objects is erasable,
    [applyEraserToCanvas] ends in a [TypeError] whatever the path and the
    context: it calls [then] on the [undefined] that
    [_addPathToObjectEraser] returns for such a collection. *)
Theorem applyEraserToCanvas_deep_drawable
  (path : Path) (context : option Context) (w : World)
  (id : ObjId) (objs : list SceneObject) :
  backgroundImage (canvas w) = Some (Obj id (Some objs)) \/
  overlayImage (canvas w) = Some (Obj id (Some objs)) ->
  erasable (store w id) = ErasableDeep ->
  (forall c, In c objs -> erasable (store w (obj_id c)) = ErasableFalse) ->
  applyEraserToCanvas mergeClipPaths path context w = None.
Proof.
  intros Hd Hdeep Hkids. unfold applyEraserToCanvas.
  destruct Hd as [Hbg | Hov].
  - rewrite Hbg. rewrite apply_to_drawable_undefined; auto.
  - destruct (apply_to_drawable mergeClipPaths (backgroundImage (canvas w)) _
                path (context, w)) as [st |] eqn:Hfirst; [| reflexivity].
    apply apply_to_drawable_grows in Hfirst.
    destruct Hfirst as (_ & _ & Hs). cbn [snd] in Hs.
    rewrite Hov. apply apply_to_drawable_undefined.
    + destruct (Hs id) as (He & _). now rewrite He.
    + intros c Hc. destruct (Hs (obj_id c)) as (He & _). rewrite He. auto.
Qed.

End MaskProperties.

Lemma applyClipPathToPath_places_clip_witness :
  exists c,
    applyClipPathToPath sample_mergeClipPaths sample_path sample_clip
      sample_matrix =
      set_path_clipPath sample_path
        (match path_clipPath sample_path with
         | Some own => Some (sample_mergeClipPaths c own)
         | None => Some c
         end) /\
    absolutePositioned c = false /\
    clip_inverted c = clip_inverted sample_clip /\
    multiplyTransformMatrices (path_transform sample_path) (clip_transform c)
      false =
      (if absolutePositioned sample_clip then clip_transform sample_clip
       else multiplyTransformMatrices sample_matrix
              (clip_transform sample_clip) false).
Proof.
  apply (applyClipPathToPath_places_clip sample_mergeClipPaths sample_path
           sample_clip sample_matrix).
  unfold det. simpl. lra.
Defined.

(** The sample path over the deep background. *)
Lemma applyEraserToCanvas_deep_drawable_witness :
  applyEraserToCanvas sample_mergeClipPaths sample_path (Some empty_context)
    deep_background_world = None.
Proof.
  apply (applyEraserToCanvas_deep_drawable sample_mergeClipPaths sample_path
           (Some empty_context) deep_background_world 2%nat [Obj 4%nat None]).
  - left. reflexivity.
  - reflexivity.
  - intros c [<- | []]. reflexivity.
Defined.
